(** * Spreadsheet engine: cell table, dependency edges, evaluation, propagation

    A shallow embedding of the [Spreadsheet] class (its [eval],
    [updateDependentCells], [extractReferencedCellIds] and [evalAst] methods,
    the [CellInfo] class and the [FNS] table), followed by the properties of
    the specification that were checked against it.

    Conventions.
    - JavaScript numbers are IEEE 754 doubles: primitive floats. The texts
      of numbers and the numbers of texts are those of the platform
      ([JsPlatform]).
    - [FNS] is an object literal: a member access on it also finds what
      [Object.prototype] holds, so a formula can call [constructor] or
      [toString], and a cell can hold a value that is not a number.
    - [this.cells] is an object used as a dictionary: a [gmap string CellInfo].
      Identifiers are column letters followed by a row number, so they never
      name a member of [Object.prototype].
    - A [CellInfo] is a mutable object reachable from at most one key of
      [this.cells]; mutation through a local alias is modelled as an update
      of the table at that key.
    - Exceptions are results of the [Exec] monad.
    - The expression parser ([parse], [CellRef]) is imported by the class
      and is an interface here.

    The code around the class follows it, each part in a module of its own:
    the web services ([WS]), the React component ([View]), the page of the
    DOM user interface ([Dom]) and the data access object ([Dao]). *)

From Stdlib Require Import PrimFloat SpecFloat FloatOps FloatAxioms Ascii String.
From stdpp Require Import gmap strings list fin_maps.

Local Open Scope string_scope.

(** ** JavaScript values held in a cell *)

(** [value] is declared a number. A JSON round trip can leave [null] there,
    and a call of a function that [FNS] inherits from [Object.prototype] a
    string, a boolean or an object: [JNumObj], [JStrObj] and [JBoolObj] are
    the wrapper objects that [Object(v)] makes of a primitive, [JPlainObj]
    is the object [{}]. *)
Inductive JsVal : Type :=
  | JNum (f : float)
  | JNull
  | JStr (s : string)
  | JBool (b : bool)
  | JNumObj (f : float)
  | JStrObj (s : string)
  | JBoolObj (b : bool)
  | JPlainObj.

(** The conversions of ECMAScript between a number and its text,
    Number::toString and StringToNumber, are an interface. *)
Class JsPlatform : Type := {
  NumberToString : float → string;
  StringToNumber : string → float;
}.

(** [typeof v === 'object'] for a value that is not [null]. *)
Definition is_object (v : JsVal) : bool :=
  match v with
  | JNumObj _ | JStrObj _ | JBoolObj _ | JPlainObj => true
  | _ => false
  end.

(** The primitives that the operators see. *)
Inductive Primitive : Type :=
  | PUndefined
  | PNull
  | PNum (f : float)
  | PStr (s : string)
  | PBool (b : bool).

(** ToPrimitive of an argument; [None] is [undefined], an argument that the
    call did not supply. [valueOf] of a wrapper object is the primitive it
    wraps; [valueOf] of [{}] is the object itself, so its [toString]
    answers. *)
Definition ToPrimitive (v : option JsVal) : Primitive :=
  match v with
  | None => PUndefined
  | Some JNull => PNull
  | Some (JNum f) | Some (JNumObj f) => PNum f
  | Some (JStr s) | Some (JStrObj s) => PStr s
  | Some (JBool b) | Some (JBoolObj b) => PBool b
  | Some JPlainObj => PStr "[object Object]"
  end.

(** ToNumber of an argument. *)
Definition toNumber `{JsPlatform} (v : option JsVal) : float :=
  match ToPrimitive v with
  | PUndefined => nan
  | PNull => 0%float
  | PNum f => f
  | PStr s => StringToNumber s
  | PBool b => if b then 1%float else 0%float
  end.

(** ToString of an argument. *)
Definition toText `{JsPlatform} (v : option JsVal) : string :=
  match ToPrimitive v with
  | PUndefined => "undefined"
  | PNull => "null"
  | PNum f => NumberToString f
  | PStr s => s
  | PBool b => if b then "true" else "false"
  end.

(** [true] when the primitive of the argument is a string. *)
Definition is_text (v : option JsVal) : bool :=
  match ToPrimitive v with
  | PStr _ => true
  | _ => false
  end.

(** [a + b]: with a string among the primitives of the operands their
    texts are joined, otherwise their numbers are added. *)
Definition js_add `{JsPlatform} (a b : option JsVal) : JsVal :=
  if is_text a || is_text b then JStr (toText a +:+ toText b)
  else JNum (toNumber a + toNumber b)%float.

(** [Math.min] and [Math.max] on two numbers: NaN if either is NaN, and
    [-0] is smaller than [+0]. *)
Definition Math_min (a b : float) : float :=
  if is_nan a || is_nan b then nan
  else if (a <? b)%float then a
  else if (b <? a)%float then b
  else if get_sign a then a else b.

Definition Math_max (a b : float) : float :=
  if is_nan a || is_nan b then nan
  else if (a <? b)%float then b
  else if (b <? a)%float then a
  else if get_sign a then b else a.

(** The own properties of the object [FNS]; [fn.apply(null, kidValues)]
    binds the parameters [a] and [b] to the first two values, [undefined]
    when absent. The operators other than [+] bring their operands to
    numbers. The member access [FNS[node.fn]] of [evalAst] also finds what
    the object inherits: that is [FNS_get] below. *)
Definition FNS `{JsPlatform} (fn : string) : option (list JsVal → JsVal) :=
  let a (args : list JsVal) := toNumber (args !! 0%nat) in
  let b (args : list JsVal) := toNumber (args !! 1%nat) in
  if String.eqb fn "+" then
    Some (λ args, js_add (args !! 0%nat) (args !! 1%nat))
  else if String.eqb fn "-" then
    Some (λ args, JNum (match args !! 1%nat with
                        | None => - a args
                        | Some _ => a args - b args
                        end))%float
  else if String.eqb fn "*" then Some (λ args, JNum (a args * b args))%float
  else if String.eqb fn "/" then Some (λ args, JNum (a args / b args))%float
  else if String.eqb fn "min" then
    Some (λ args, JNum (Math_min (a args) (b args)))
  else if String.eqb fn "max" then
    Some (λ args, JNum (Math_max (a args) (b args)))
  else None.

(** ** Syntax trees and the parser interface *)

(** [Ast]: a [num] node, a [ref] node holding a [CellRef], or an [app] node
    with a function name and its kids. *)
#[local] Unset Elimination Schemes.
Inductive Ast (R : Type) : Type :=
  | Num (value : JsVal)
  | Ref (value : R)
  | App (fn : string) (kids : list (Ast R)).
#[local] Set Elimination Schemes.

Arguments Num {R} value.
Arguments Ref {R} value.
Arguments App {R} fn kids.

(** Induction over a tree whose [app] nodes hold a list of trees. *)
Lemma Ast_ind (R : Type) (Q : Ast R → Prop)
    (HNum : ∀ v, Q (Num v)) (HRef : ∀ r, Q (Ref r))
    (HApp : ∀ fn kids, Forall Q kids → Q (App fn kids)) :
  ∀ a : Ast R, Q a.
Proof.
  fix IH 1. intros [v | r | fn kids].
  - apply HNum.
  - apply HRef.
  - apply HApp. induction kids as [| k rest IHrest]; constructor.
    + apply IH.
    + exact IHrest.
Qed.

(** The imports from [./expr-parser.js]. [parse expr cellId] and
    [CellRef_parse] give [None] for a result that is not [isOk].
    [CellRef_toText self (Some arg)] is [self.toText(arg)] and
    [CellRef_toText self None] is [self.toText()]. *)
Class ExprParser (CellRef : Type) : Type := {
  parse : string → string → option (Ast CellRef);
  CellRef_parse : string → option CellRef;
  CellRef_toText : CellRef → option CellRef → string;
}.

(** ** Results and exceptions *)

(** [okResult(val)] and [errResult(message, code)] of [cs544-js-utils]. *)
Inductive Result (A : Type) : Type :=
  | okResult (val : A)
  | errResult (message code : string).

Arguments okResult {A} val.
Arguments errResult {A} message code.

(** What a [throw] carries: an error result, an [Error] with its message, or
    a [TypeError]: that of calling a method that the receiver does not have,
    or that of a method of [Object.prototype] called on [null]. *)
Inductive Thrown : Type :=
  | ThrownErrResult (message code : string)
  | ThrownError (message : string)
  | ThrownTypeError.

(** A computation returns, throws, or runs out of the recursion budget of
    the model. *)
Inductive Exec (A : Type) : Type :=
  | Return (a : A)
  | Throw (e : Thrown)
  | OutOfFuel.

Arguments Return {A} a.
Arguments Throw {A} e.
Arguments OutOfFuel {A}.

#[global] Instance Exec_ret : MRet Exec := λ A a, Return a.

#[global] Instance Exec_bind : MBind Exec := λ A B k m,
  match m with
  | Return a => k a
  | Throw e => Throw e
  | OutOfFuel => OutOfFuel
  end.

(** [array.map(f)] with a callback that may throw: left to right, the first
    exception ends it. *)
Fixpoint mapM {A B : Type} (f : A → Exec B) (l : list A) : Exec (list B) :=
  match l with
  | [] => Return []
  | x :: rest => y ← f x; ys ← mapM f rest; Return (y :: ys)
  end.

(** ** The members that [FNS] inherits *)

(** What the member access [FNS[node.fn]] finds: a function, or an object
    that is not one. *)
Inductive Member : Type :=
  | MFunction (f : list JsVal → Exec JsVal)
  | MObject.

(** [Object(value)], the function that [constructor] names: a new object
    for [undefined] and [null], the wrapper object of a primitive, and an
    object as it is. *)
Definition Object_call (value : option JsVal) : JsVal :=
  match value with
  | None | Some JNull => JPlainObj
  | Some (JNum f) => JNumObj f
  | Some (JStr s) => JStrObj s
  | Some (JBool b) => JBoolObj b
  | Some o => o
  end.

(** The members of [Object.prototype], called as [evalAst] calls them, with
    [this] set to [null]. [toString] answers for [null]; [isPrototypeOf]
    answers [false] for an argument that is not an object before it looks at
    [this]; the other methods convert [this] to an object first, which
    throws a [TypeError]. [__proto__] is an accessor that gives the
    prototype, an object. *)
Definition Object_prototype (name : string) : option Member :=
  if String.eqb name "constructor" then
    Some (MFunction (λ args, Return (Object_call (args !! 0%nat))))
  else if String.eqb name "toString" then
    Some (MFunction (λ _, Return (JStr "[object Null]")))
  else if String.eqb name "isPrototypeOf" then
    Some (MFunction (λ args,
      match args !! 0%nat with
      | Some v => if is_object v then Throw ThrownTypeError
                  else Return (JBool false)
      | None => Return (JBool false)
      end))
  else if bool_decide (name ∈ ["toLocaleString"; "valueOf"; "hasOwnProperty";
                               "propertyIsEnumerable"; "__defineGetter__";
                               "__defineSetter__"; "__lookupGetter__";
                               "__lookupSetter__"]) then
    Some (MFunction (λ _, Throw ThrownTypeError))
  else if String.eqb name "__proto__" then Some MObject
  else None.

(** [FNS[name]]: an own property, or else a member of the prototype. *)
Definition FNS_get `{JsPlatform} (name : string) : option Member :=
  match FNS name with
  | Some f => Some (MFunction (λ args, Return (f args)))
  | None => Object_prototype name
  end.

(** ** Cell records *)

(** [dependents] is a [Set<string>], kept in insertion order; after
    [JSON.parse(JSON.stringify(..))] it is the plain object [{}]. *)
Inductive Dependents : Type :=
  | DepSet (ids : list string)
  | DepPlain.

(** [Array.from(dependents)]: the elements of a set in insertion order, and
    the empty array for a plain object without [length]. *)
Definition Array_from (d : Dependents) : list string :=
  match d with
  | DepSet ids => ids
  | DepPlain => []
  end.

Definition Set_add (x : string) (ids : list string) : list string :=
  if decide (x ∈ ids) then ids else ids ++ [x].

Definition Set_delete (x : string) (ids : list string) : list string :=
  filter (λ y, y ≠ x) ids.

Section Spreadsheet.
Context {CellRef : Type} {P : ExprParser CellRef} {J : JsPlatform}.

Record CellInfo : Type := mkCellInfo {
  cell_id : string;
  cell_expr : string;
  cell_ast : option (Ast CellRef);
  cell_value : JsVal;
  cell_dependents : Dependents;
}.

(** The constructor of [CellInfo]. *)
Definition new_CellInfo (id expr : string) : CellInfo :=
  mkCellInfo id expr None (JNum 0) (DepSet []).

Definition set_ast (a : option (Ast CellRef)) (c : CellInfo) : CellInfo :=
  mkCellInfo (cell_id c) (cell_expr c) a (cell_value c) (cell_dependents c).

Definition set_value (v : JsVal) (c : CellInfo) : CellInfo :=
  mkCellInfo (cell_id c) (cell_expr c) (cell_ast c) v (cell_dependents c).

Definition set_dependents (d : Dependents) (c : CellInfo) : CellInfo :=
  mkCellInfo (cell_id c) (cell_expr c) (cell_ast c) (cell_value c) d.

(** [Updates]: an object from cell ids to values, in insertion order. *)
Definition Updates : Type := list (string * JsVal).

(** [updates[k] = v]. *)
Fixpoint updates_set (k : string) (v : JsVal) (u : Updates) : Updates :=
  match u with
  | [] => [(k, v)]
  | (k', v') :: rest =>
      if String.eqb k' k then (k', v) :: rest
      else (k', v') :: updates_set k v rest
  end.

(** [Object.assign(target, source)]. *)
Definition Object_assign (target source : Updates) : Updates :=
  fold_left (λ t kv, updates_set kv.1 kv.2 t) source target.

(** ** [JSON.parse(JSON.stringify(this.cells))] *)

(** A number that is not finite is written [null]; [-0] is written [0]. A
    wrapper object is written as the primitive it wraps, and [{}] as it
    is. *)
Definition json_val (v : JsVal) : JsVal :=
  match v with
  | JNum f | JNumObj f =>
      if is_finite f then (if is_zero f then JNum 0 else JNum f) else JNull
  | JNull => JNull
  | JStr s | JStrObj s => JStr s
  | JBool b | JBoolObj b => JBool b
  | JPlainObj => JPlainObj
  end.

(** A [CellRef] is a record of data fields and comes back with the same
    fields. *)
Fixpoint json_ast (a : Ast CellRef) : Ast CellRef :=
  match a with
  | Num v => Num (json_val v)
  | Ref r => Ref r
  | App fn kids => App fn (map json_ast kids)
  end.

(** A [Set] has no enumerable properties: it is written [{}]. *)
Definition json_cell (c : CellInfo) : CellInfo :=
  mkCellInfo (cell_id c) (cell_expr c) (json_ast <$> cell_ast c)
             (json_val (cell_value c)) DepPlain.

Definition json_roundtrip (cells : gmap string CellInfo) : gmap string CellInfo :=
  json_cell <$> cells.

(** ** [extractReferencedCellIds] and [evalAst] *)

(** [CellRef.parse(baseCellRef.toText(node.value))], then [.toText()] of the
    parsed reference when it is ok. *)
Definition resolve (baseCellRef : CellRef) (r : CellRef) : option string :=
  match CellRef_parse (CellRef_toText baseCellRef (Some r)) with
  | Some cellRef => Some (CellRef_toText cellRef None)
  | None => None
  end.

Fixpoint extractReferencedCellIds (ast : Ast CellRef) (baseCellRef : CellRef)
  : list string :=
  match ast with
  | Ref r =>
      match resolve baseCellRef r with
      | Some cellId => [cellId]
      | None => []
      end
  | App _ kids =>
      (fix traverse (ks : list (Ast CellRef)) : list string :=
         match ks with
         | [] => []
         | kid :: rest =>
             (extractReferencedCellIds kid baseCellRef ++ traverse rest)%list
         end) kids
  | Num _ => []
  end.

Fixpoint evalAst (cells : gmap string CellInfo) (node : Ast CellRef)
    (baseCellRef : CellRef) (cellId : string) : Exec JsVal :=
  match node with
  | Num v => Return v
  | Ref r =>
      match resolve baseCellRef r with
      | Some refCellId =>
          match cells !! refCellId with
          | Some cellInfo => Return (cell_value cellInfo)
          | None => Return (JNum 0)
          end
      | None => Return (JNum 0)
      end
  | App fn kids =>
      kidValues ← mapM (λ kid, evalAst cells kid baseCellRef cellId) kids;
      match FNS_get fn with
      | Some (MFunction f) => f kidValues
      | _ => Throw (ThrownError ("Unsupported function: " +:+ fn))
      end
  end.

(** ** [updateDependentCells] *)

(** What a propagation reads and writes: the table, the set
    [processedCells] shared by the recursive calls, and [st_recomputed], the
    ids whose value the assignment [dependentCellInfo.value = dependentValue]
    has set, in order. The last is instrumentation: nothing reads it. *)
Record PropState : Type := mkPropState {
  st_cells : gmap string CellInfo;
  st_processed : gset string;
  st_recomputed : list string;
}.

Definition processed_add (cellId : string) (st : PropState) : PropState :=
  mkPropState (st_cells st) ({[cellId]} ∪ st_processed st) (st_recomputed st).

Definition store_value (dependentId : string) (v : JsVal) (st : PropState)
  : PropState :=
  mkPropState (alter (set_value v) dependentId (st_cells st))
              (st_processed st) (st_recomputed st ++ [dependentId]).

(** The [for] loop over [dependentIds]; [recurse] is the recursive call. *)
Definition dependentsLoop
    (recurse : PropState → string → list string → Exec (Updates * PropState))
    (cellId : string) (path : list string)
  : list string → Updates → PropState → Exec (Updates * PropState) :=
  fix loop (dependentIds : list string) (updates : Updates) (st : PropState) :=
    match dependentIds with
    | [] => Return (updates, st)
    | dependentId :: rest =>
        match st_cells st !! dependentId with
        | Some dependentCellInfo =>
            match cell_ast dependentCellInfo with
            | Some dependentAst =>
                if decide (dependentId ∈ path) then
                  Throw (ThrownErrResult "CIRCULAR_REF" "CIRCULAR_REF")
                else
                  let st := processed_add cellId st in
                  match CellRef_parse dependentId with
                  | Some dependentCellRef =>
                      dependentValue ←
                        evalAst (st_cells st) dependentAst dependentCellRef
                                dependentId;
                      let st := store_value dependentId dependentValue st in
                      let updates := updates_set dependentId dependentValue updates in
                      '(recursiveUpdates, st) ←
                        recurse st dependentId (path ++ [cellId])%list;
                      loop rest (Object_assign updates recursiveUpdates) st
                  | None =>
                      Throw (ThrownError ("Invalid cell reference: " +:+ dependentId))
                  end
            | None => loop rest updates st
            end
        | None => loop rest updates st
        end
    end.

(** [fuel] bounds the depth of the recursion. *)
Fixpoint updateDependentCells (fuel : nat) (st : PropState) (cellId : string)
    (path : list string) : Exec (Updates * PropState) :=
  match fuel with
  | O => OutOfFuel
  | S fuel' =>
      match st_cells st !! cellId with
      | None => Return ([], st)
      | Some cellInfo =>
          match cell_ast cellInfo with
          | None => Return ([], st)
          | Some _ =>
              if decide (cellId ∈ st_processed st) then Return ([], st)
              else
                dependentsLoop (updateDependentCells fuel') cellId path
                  (Array_from (cell_dependents cellInfo)) [] st
          end
      end
  end.

(** ** [eval] *)

(** The [forEach] over [previousReferencedCellIds]: [delete] is a method of
    a [Set] only. *)
Fixpoint removeFromPrevious (cellId : string) (previousReferencedCellIds : list string)
    (cells : gmap string CellInfo) : Exec (gmap string CellInfo) :=
  match previousReferencedCellIds with
  | [] => Return cells
  | previousReferencedCellId :: rest =>
      match cells !! previousReferencedCellId with
      | Some previousReferencedCellInfo =>
          match cell_dependents previousReferencedCellInfo with
          | DepSet ids =>
              removeFromPrevious cellId rest
                (<[previousReferencedCellId :=
                     set_dependents (DepSet (Set_delete cellId ids))
                                    previousReferencedCellInfo]> cells)
          | DepPlain => Throw ThrownTypeError
          end
      | None => removeFromPrevious cellId rest cells
      end
  end.

(** The [for] loop over [referencedCellIds], with its [break]; the boolean
    is [circularRefFound]. *)
Fixpoint addToReferenced (cellId : string) (referencedCellIds : list string)
    (circularRefFound : bool) (cells : gmap string CellInfo)
  : bool * gmap string CellInfo :=
  match referencedCellIds with
  | [] => (circularRefFound, cells)
  | referencedCellId :: rest =>
      if decide (referencedCellId = cellId) then (true, cells)
      else
        match cells !! referencedCellId with
        | Some referencedCellInfo =>
            let ids :=
              match cell_dependents referencedCellInfo with
              | DepSet ids => ids
              | DepPlain => []
              end in
            addToReferenced cellId rest circularRefFound
              (<[referencedCellId :=
                   set_dependents (DepSet (Set_add cellId ids)) referencedCellInfo]>
                 cells)
        | None =>
            addToReferenced cellId rest circularRefFound
              (<[referencedCellId :=
                   set_dependents (DepSet (Set_add cellId []))
                                  (new_CellInfo referencedCellId "0")]> cells)
        end
  end.

(** The local [cellInfo] is [this.cells[cellId]] when that exists ([None]
    below: the object is the one in the table), and a new object that is not
    in the table yet otherwise ([Some]). *)
Definition update_cellInfo (f : CellInfo → CellInfo) (cellId : string)
    (cells : gmap string CellInfo) (fresh : option CellInfo)
  : gmap string CellInfo * option CellInfo :=
  match fresh with
  | Some c => (cells, Some (f c))
  | None => (alter f cellId cells, None)
  end.

(** The [try] block once [parse] and [CellRef.parse] are ok. *)
Definition eval_try (cells : gmap string CellInfo) (cellId expr : string)
    (ast : Ast CellRef) (baseCellRef : CellRef) : Exec (Updates * PropState) :=
  let fresh :=
    match cells !! cellId with
    | Some _ => None
    | None => Some (new_CellInfo cellId expr)
    end in
  let previousAst :=
    match cells !! cellId with
    | Some cellInfo => cell_ast cellInfo
    | None => None
    end in
  let '(cells, fresh) := update_cellInfo (set_ast (Some ast)) cellId cells fresh in
  let referencedCellIds := extractReferencedCellIds ast baseCellRef in
  cells ←
    match previousAst with
    | Some previousAst =>
        removeFromPrevious cellId
          (extractReferencedCellIds previousAst baseCellRef) cells
    | None => Return cells
    end;
  let '(circularRefFound, cells) :=
    addToReferenced cellId referencedCellIds
      (bool_decide (cellId ∈ referencedCellIds)) cells in
  if circularRefFound then
    Throw (ThrownErrResult "CIRCULAR_REF" "expected direct circular reference")
  else
    result ← evalAst cells ast baseCellRef cellId;
    let '(cells, fresh) := update_cellInfo (set_value result) cellId cells fresh in
    let cells :=
      match fresh with
      | Some cellInfo => <[cellId := cellInfo]> cells
      | None => cells
      end in
    let updates : Updates := [(cellId, result)] in
    '(updatedCells, st) ←
      updateDependentCells (S (size cells)) (mkPropState cells ∅ []) cellId [];
    Return (Object_assign updates updatedCells, st).

(** [eval], with the ids that propagation recomputed. [None] stands for a
    run that exhausts the recursion budget; [eval_traced_total] shows that
    there is none. *)
Definition eval_traced (cells : gmap string CellInfo) (cellId expr : string)
  : option (Result Updates * gmap string CellInfo * list string) :=
  let oldCells := json_roundtrip cells in
  match parse expr cellId with
  | Some ast =>
      match CellRef_parse cellId with
      | Some baseCellRef =>
          match eval_try cells cellId expr ast baseCellRef with
          | Return (updates, st) =>
              Some (okResult updates, st_cells st, st_recomputed st)
          | Throw _ =>
              Some (errResult "CIRCULAR_REF" "CIRCULAR_REF",
                    json_roundtrip oldCells, [])
          | OutOfFuel => None
          end
      | None =>
          Some (errResult "Invalid numeric expression" "SYNTAX", cells, [])
      end
  | None => Some (errResult "syntax error" "SYNTAX", cells, [])
  end.

Definition eval (cells : gmap string CellInfo) (cellId expr : string)
  : option (Result Updates * gmap string CellInfo) :=
  match eval_traced cells cellId expr with
  | Some (r, cells', _) => Some (r, cells')
  | None => None
  end.

(** ** [remove] *)

(** Modelled from the spec: the Propagator of section 4.3 started at a cell
    whose formula is cleared. "propagate(originId) walks the dependents set
    of originId and, for every cell with an active formula, recomputes its
    value via the Evaluator and records the new value", with a visited set
    and a current path list. The walk is the loop of the class over the
    dependents of the origin, entered whether or not the origin holds a
    formula; below the origin it is [updateDependentCells]. *)
Definition propagate (st : PropState) (originId : string)
  : Exec (Updates * PropState) :=
  let dependentIds :=
    match st_cells st !! originId with
    | Some cellInfo => Array_from (cell_dependents cellInfo)
    | None => []
    end in
  dependentsLoop (updateDependentCells (S (size (st_cells st)))) originId []
    dependentIds [] st.

(** Modelled from the spec: [remove], the clear-formula operation that the
    web services and the user interface call, is not defined in the class.
    Section 4.4 describes it: "equivalent to assigning an empty formula —
    clears ast and resets value to 0, retracts all outgoing edges from
    cellId via §4.1's retraction step, then runs the Propagator so
    dependents see the cell read as 0". Its answer is the cell's new value
    merged with what the Propagator recomputed, as step 7 says of evaluate,
    and a failure is reported as [eval] reports one. The retraction step is
    that of the class, [removeFromPrevious]. *)
Definition remove_try (cells : gmap string CellInfo) (cellId : string)
    (baseCellRef : CellRef) : Exec (Updates * PropState) :=
  match cells !! cellId with
  | Some cellInfo =>
      let cells :=
        alter (λ c, set_value (JNum 0) (set_ast None c)) cellId cells in
      cells ←
        match cell_ast cellInfo with
        | Some previousAst =>
            removeFromPrevious cellId
              (extractReferencedCellIds previousAst baseCellRef) cells
        | None => Return cells
        end;
      '(updatedCells, st) ← propagate (mkPropState cells ∅ []) cellId;
      Return (Object_assign [(cellId, JNum 0)] updatedCells, st)
  | None => Return ([(cellId, JNum 0)], mkPropState cells ∅ [])
  end.

(** Modelled from the spec: [remove] answers as [eval] does, a table of
    updates or, for any failure, [CIRCULAR_REF] with the copy of the table
    restored. *)
Definition remove (cells : gmap string CellInfo) (cellId : string)
  : option (Result Updates * gmap string CellInfo) :=
  match CellRef_parse cellId with
  | Some baseCellRef =>
      match remove_try cells cellId baseCellRef with
      | Return (updates, st) => Some (okResult updates, st_cells st)
      | Throw _ =>
          Some (errResult "CIRCULAR_REF" "CIRCULAR_REF",
                json_roundtrip (json_roundtrip cells))
      | OutOfFuel => None
      end
  | None => Some (errResult "Invalid numeric expression" "SYNTAX", cells)
  end.

End Spreadsheet.

Arguments CellInfo CellRef : clear implicits.
Arguments PropState CellRef : clear implicits.
Arguments updateDependentCells : simpl never.
Arguments resolve : simpl never.

(** * The web services ([ss-ws.ts])

    The handlers of the Express application are functions from the request
    and the outcome of the call of [ssServices] to the response that they
    send. [ssServices] is imported: its methods are arguments. *)
Module WS.

(** The codes of [http-status] that the file names. *)
Module STATUS.
Definition OK : Z := 200.
Definition BAD_REQUEST : Z := 400.
Definition UNAUTHORIZED : Z := 401.
Definition NOT_FOUND : Z := 404.
Definition CONFLICT : Z := 409.
Definition INTERNAL_SERVER_ERROR : Z := 500.
End STATUS.

(** [Err] of [cs544-js-utils]: a message and [options.code], which may be
    [undefined]. *)
Record Err : Type := mkErr {
  message : string;
  code : option string;
}.

(** An element of [errors]; [NotErr] is one that is not [instanceof Err]. *)
Inductive ErrorsItem : Type :=
  | IsErr (e : Err)
  | NotErr.

(** [ERROR_MAP[code]]; [None] is [undefined]. A member that the object
    inherits is not a number: it compares as [undefined] does. *)
Definition ERROR_MAP (code : string) : option Z :=
  if String.eqb code "EXISTS" then Some STATUS.CONFLICT
  else if String.eqb code "NOT_FOUND" then Some STATUS.NOT_FOUND
  else if String.eqb code "BAD_REQ" then Some STATUS.BAD_REQUEST
  else if String.eqb code "AUTH" then Some STATUS.UNAUTHORIZED
  else if String.eqb code "DB" then Some STATUS.INTERNAL_SERVER_ERROR
  else if String.eqb code "INTERNAL" then Some STATUS.INTERNAL_SERVER_ERROR
  else None.

(** [errStatus > 0] and [errStatus === STATUS.INTERNAL_SERVER_ERROR], false
    for [undefined]. *)
Definition is_positive (errStatus : option Z) : bool :=
  match errStatus with
  | Some z => (0 <? z)%Z
  | None => false
  end.

Definition is_server_error (errStatus : option Z) : bool :=
  match errStatus with
  | Some z => (z =? STATUS.INTERNAL_SERVER_ERROR)%Z
  | None => false
  end.

(** The body of the [for] loop of [getHttpStatus]. *)
Definition getHttpStatus_step (status : Z) (err : ErrorsItem) : Z :=
  match err with
  | IsErr e =>
      let errStatus :=
        match code e with
        | Some code => ERROR_MAP code
        | None => Some (-1)%Z
        end in
      let status :=
        if is_positive errStatus && (status =? 0)%Z
        then default status errStatus else status in
      if is_server_error errStatus then default status errStatus else status
  | NotErr => status
  end.

Definition getHttpStatus (errors : list ErrorsItem) : Z :=
  let status := fold_left getHttpStatus_step errors 0%Z in
  if (status =? 0)%Z then STATUS.BAD_REQUEST else status.

(** What a [catch] receives: an [Error] with its message, or a result that
    is not ok with its [errors]. *)
Inductive Caught : Type :=
  | CaughtError (message : string)
  | CaughtErrResult (errors : list ErrorsItem).

(** [ErrorEnvelope]; [isOk] is [false]. *)
Record ErrorEnvelope : Type := mkErrorEnvelope {
  env_status : Z;
  env_errors : list ErrorsItem;
}.

Definition mapResultErrors (err : Caught) : ErrorEnvelope :=
  let errors :=
    match err with
    | CaughtError message => [IsErr (mkErr message (Some "UNKNOWN"))]
    | CaughtErrResult errors => errors
    end in
  mkErrorEnvelope (getHttpStatus errors) errors.

(** A [Result]: ok with a value, or not ok with its errors. *)
Inductive SvcResult (T : Type) : Type :=
  | SvcOk (val : T)
  | SvcErr (errors : list ErrorsItem).

Arguments SvcOk {T} val.
Arguments SvcErr {T} errors.

(** [errResult(message, code)]: one [Err]. *)
Definition ws_errResult {T : Type} (message code : string) : SvcResult T :=
  SvcErr [IsErr (mkErr message (Some code))].

(** A string that is not [undefined] and not empty is truthy. *)
Definition truthy (s : option string) : bool :=
  match s with
  | Some s => negb (String.eqb s "")
  | None => false
  end.

Definition validateUpdateParams (srcCellId expr : option string)
  : SvcResult unit :=
  let isSrcCellId := truthy srcCellId in
  let isExpr := truthy expr in
  if Bool.eqb isSrcCellId isExpr then
    ws_errResult
      "exactly one of query parameter srcCellId or expr must be specified"
      "BAD_REQ"
  else SvcOk tt.

(** The fields of a request that the handlers read. *)
Record Request : Type := mkRequest {
  req_method : string;
  req_protocol : string;
  req_host : string;
  req_originalUrl : string;
  params_ssName : string;
  params_cellId : string;
  query_srcCellId : option string;
  query_expr : option string;
}.

(** [SuccessEnvelope]; [isOk] is [true]. *)
Record SuccessEnvelope (T : Type) : Type := mkSuccessEnvelope {
  suc_status : Z;
  suc_href : string;
  suc_method : string;
  suc_result : T;
}.

Arguments mkSuccessEnvelope {T} _ _ _ _.

(** What is sent: [res.json] with its status, 200 when [res.status] was not
    called. *)
Inductive Body (T : Type) : Type :=
  | Success (envelope : SuccessEnvelope T)
  | Failure (envelope : ErrorEnvelope).

Arguments Success {T} envelope.
Arguments Failure {T} envelope.

Record Response (T : Type) : Type := mkResponse {
  res_status : Z;
  res_body : Body T;
}.

Arguments mkResponse {T} _ _.

(** An awaited call of a service: its result, or the [Error] that it
    threw. *)
Inductive Outcome (T : Type) : Type :=
  | Resolved (r : SvcResult T)
  | Rejected (message : string).

Arguments Resolved {T} r.
Arguments Rejected {T} message.

Section Handlers.
(** [new URL(..).pathname] and [new URL(..).search] of the platform. *)
Variables URL_pathname URL_search : string → string.
(** The type of the updates that [evaluate] and [copy] return. *)
Variable T : Type.

Definition requestUrl (req : Request) : string :=
  req_protocol req +:+ "://" +:+ req_host req +:+ req_originalUrl req.

Definition selfHref (req : Request) (id : string) : string :=
  let url := requestUrl req in
  URL_pathname url +:+ (if String.eqb id "" then URL_search url else "/" +:+ id).

Definition selfResult (req : Request) (result : T) (status : Z)
  : SuccessEnvelope T :=
  mkSuccessEnvelope status (selfHref req "") (req_method req) result.

(** The [catch] of a handler. *)
Definition send_mapped (err : Caught) : Response T :=
  let mapped := mapResultErrors err in
  mkResponse (env_status mapped) (Failure mapped).

(** What follows the awaited call in the [try] of every handler: a result
    that is not ok is thrown, and a value is sent in its envelope. *)
Definition send_outcome (req : Request) (outcome : Outcome T) : Response T :=
  match outcome with
  | Rejected message => send_mapped (CaughtError message)
  | Resolved (SvcErr errors) => send_mapped (CaughtErrResult errors)
  | Resolved (SvcOk val) =>
      mkResponse STATUS.OK (Success (selfResult req val STATUS.OK))
  end.

(** [makeCellUpdateHandler]; [evaluate] and [copy] are the methods of
    [app.locals.ssServices]. *)
Definition makeCellUpdateHandler
    (evaluate : string → string → string → Outcome T)
    (copy : string → string → option string → Outcome T)
    (req : Request) : Response T :=
  let ssName := params_ssName req in
  let cellId := params_cellId req in
  let srcCellId := query_srcCellId req in
  let expr := query_expr req in
  match validateUpdateParams srcCellId expr with
  | SvcErr errors => send_mapped (CaughtErrResult errors)
  | SvcOk _ =>
      send_outcome req
        match expr with
        | Some e =>
            if String.eqb e "" then copy ssName cellId srcCellId
            else evaluate ssName cellId e
        | None => copy ssName cellId srcCellId
        end
  end.

(** [makeCellRemoveHandler]; [remove] is the method of
    [app.locals.ssServices]. *)
Definition makeCellRemoveHandler (remove : string → string → Outcome T)
    (req : Request) : Response T :=
  send_outcome req (remove (params_ssName req) (params_cellId req)).

End Handlers.

(** The statuses to which the codes of [errors] map, in order. *)
Definition mapped_statuses (errors : list ErrorsItem) : list Z :=
  omap (λ item, match item with
                | IsErr e => code e ≫= ERROR_MAP
                | NotErr => None
                end) errors.

End WS.

(** * The React component ([Spreadsheet] and [applySSUpdates])

    The state [ss] is an object from cell ids to objects [{ expr, value }].
    [applySSUpdates] copies the outer object only, so the inner objects are
    shared between the old state and the new one: they live in a heap, and
    a state maps a cell id to the address of its object. *)
Module View.

Record CellView : Type := mkCellView {
  expr : string;
  value : JsVal;
}.

Abbreviation Heap := (gmap nat CellView).
Abbreviation Sheet := (gmap string nat).

(** [ss[cellId]], read through the heap. *)
Definition view (heap : Heap) (ss : Sheet) (cellId : string) : option CellView :=
  ss !! cellId ≫= λ l, heap !! l.

(** The body of the [for] loop of [applySSUpdates]. *)
Definition applySSUpdates_step (acc : Heap * Sheet) (entry : string * JsVal)
  : Heap * Sheet :=
  let '(heap, ss) := acc in
  let '(cellId, value) := entry in
  match ss !! cellId with
  | None =>
      let l := fresh (dom heap) in
      (<[l := mkCellView "" value]> heap, <[cellId := l]> ss)
  | Some l => (alter (λ c, mkCellView (expr c) value) l heap, ss)
  end.

(** [{ ...spreadsheet }] has the keys of [spreadsheet] and the same inner
    objects. *)
Definition applySSUpdates (heap : Heap) (spreadsheet : Sheet) (updates : Updates)
  : Heap * Sheet :=
  fold_left applySSUpdates_step updates (heap, spreadsheet).

(** How a handler ends: with [setSS], with [errors.display], or with the
    [TypeError] of a property of [undefined]. *)
Inductive Handled : Type :=
  | SetSS (heap : Heap) (ss : Sheet)
  | Display (errors : list WS.ErrorsItem)
  | TypeError.

Section Handlers.
(** [String.prototype.trim]. *)
Variable trim : string → string.
(** [ws.remove] and [ws.evaluate], awaited. *)
Variable ws_remove : string → string → WS.SvcResult Updates.
Variable ws_evaluate : string → string → string → WS.SvcResult Updates.

Definition onBlur (ssName : string) (heap : Heap) (ss : Sheet)
    (cellId expr : string) : Handled :=
  let isRemove := String.eqb (trim expr) "" in
  let result :=
    if isRemove then ws_remove ssName cellId
    else ws_evaluate ssName cellId expr in
  match result with
  | WS.SvcOk val =>
      let '(heap, ss1) := applySSUpdates heap ss val in
      if isRemove then SetSS heap ss1
      else
        match ss1 !! cellId with
        | Some l => SetSS (alter (λ c, mkCellView expr (value c)) l heap) ss1
        | None => TypeError
        end
  | WS.SvcErr errors => Display errors
  end.

End Handlers.

(** Every cell of the state has its object, and no two cells share one. *)
Definition well_formed (heap : Heap) (ss : Sheet) : Prop :=
  (∀ k l, ss !! k = Some l → is_Some (heap !! l)) ∧
  (∀ k1 k2 l, ss !! k1 = Some l → ss !! k2 = Some l → k1 = k2).

End View.

(** * The data access object ([spreadsheet-dao.ts])

    The methods of the class are the code around the calls of the MongoDB
    driver, which is an interface ([Driver]): an awaited call resolves to a
    value or rejects with an error, and the [catch] of each method turns
    the rejection into an error result with the code [DB].

    [mongo] is the driver that the properties are about. Its collection is
    the list of its documents in their natural order; [updateOne],
    [findOne] and [deleteOne] act on the first document that matches the
    filter. A filter field that is [undefined] is sent as [null], and the
    documents of the collection are those that [setCellExpr] has inserted:
    each has the three fields, [cellId] being [null] ([None]) when the
    identifier had no colon. With a fault, every call of [mongo] rejects
    with the message of the fault and leaves the collection as it is. *)
Module Dao.

Record Document : Type := mkDocument {
  spreadsheetName : string;
  cellId : option string;
  expr : string;
}.

Abbreviation Collection := (list Document).

(** [s.split(sep)] for a separator of one character: never empty. *)
Fixpoint split (sep : ascii) (s : string) : list string :=
  match s with
  | EmptyString => [EmptyString]
  | String c rest =>
      if Ascii.eqb c sep then EmptyString :: split sep rest
      else
        match split sep rest with
        | w :: ws => String c w :: ws
        | [] => [String c EmptyString]
        end
  end.

(** [const [spreadsheetName, formattedCellId] = cellId.split(':')]. *)
Definition split_id (cellId : string) : string * option string :=
  let parts := split ":" cellId in
  (default "" (parts !! 0%nat), parts !! 1%nat).

(** [UpdateResult]: the counts that [setCellExpr] reads. *)
Record UpdateResult : Type := mkUpdateResult {
  modifiedCount : nat;
  upsertedCount : nat;
}.

(** An awaited call of the driver: the value that its promise resolves to,
    or the message of the error that it rejects with. *)
Inductive Awaited (A : Type) : Type :=
  | Resolves (a : A)
  | Rejects (message : string).

Arguments Resolves {A} a.
Arguments Rejects {A} message.

(** The methods of [mongo.Collection] that the class calls, on a
    collection in the state [C]: [updateOne(filter, { $set: { expr } },
    { upsert: true })], [findOne(filter)], [deleteMany({})],
    [deleteOne(filter)] and [find().toArray()]. A call that writes gives
    the state that it leaves. *)
Record Driver (C : Type) : Type := mkDriver {
  updateOne : string * option string → string → C → Awaited UpdateResult * C;
  findOne : string * option string → C → Awaited (option Document);
  deleteMany : C → Awaited unit * C;
  deleteOne : string * option string → C → Awaited unit * C;
  find_toArray : C → Awaited (list Document);
}.

Arguments updateOne {C} _ _ _ _.
Arguments findOne {C} _ _ _.
Arguments deleteMany {C} _ _.
Arguments deleteOne {C} _ _ _.
Arguments find_toArray {C} _ _.

Section Methods.
Context {C : Type} (driver : Driver C).

Definition setCellExpr (id new_expr : string) (coll : C)
  : WS.SvcResult unit * C :=
  let filter := split_id id in
  match updateOne driver filter new_expr coll with
  | (Resolves updateResult, coll) =>
      if (upsertedCount updateResult =? 1)%nat
         || (modifiedCount updateResult =? 1)%nat
      then (WS.SvcOk tt, coll)
      else (WS.ws_errResult ("Circular reference involving " +:+ id) "DB", coll)
  | (Rejects message, coll) => (WS.ws_errResult message "DB", coll)
  end.

Definition query (id : string) (coll : C) : WS.SvcResult string :=
  match findOne driver (split_id id) coll with
  | Resolves (Some doc) => WS.SvcOk (expr doc)
  | Resolves None => WS.SvcOk ""
  | Rejects message => WS.ws_errResult message "DB"
  end.

Definition clear (coll : C) : WS.SvcResult unit * C :=
  match deleteMany driver coll with
  | (Resolves _, coll) => (WS.SvcOk tt, coll)
  | (Rejects message, coll) => (WS.ws_errResult message "DB", coll)
  end.

Definition remove (id : string) (coll : C) : WS.SvcResult unit * C :=
  match deleteOne driver (split_id id) coll with
  | (Resolves _, coll) => (WS.SvcOk tt, coll)
  | (Rejects message, coll) => (WS.ws_errResult message "DB", coll)
  end.

Definition getData (coll : C) : WS.SvcResult (list (string * string)) :=
  match find_toArray driver coll with
  | Resolves docs => WS.SvcOk (map (λ doc, (spreadsheetName doc, expr doc)) docs)
  | Rejects message => WS.ws_errResult message "DB"
  end.

End Methods.

(** ** The driver on a list of documents *)

(** The filter [{ spreadsheetName, cellId: formattedCellId }]. *)
Definition matches (filter : string * option string) (doc : Document) : bool :=
  String.eqb (spreadsheetName doc) filter.1 &&
  bool_decide (cellId doc = filter.2).

(** [updateOne] with [upsert]: the first document that matches gets the
    text, and counts as modified when the text is new; without a match a
    document is inserted. *)
Fixpoint list_updateOne (filter : string * option string) (new_expr : string)
    (coll : Collection) : UpdateResult * Collection :=
  match coll with
  | [] => (mkUpdateResult 0 1, [mkDocument filter.1 filter.2 new_expr])
  | doc :: rest =>
      if matches filter doc then
        if String.eqb (expr doc) new_expr then (mkUpdateResult 0 0, coll)
        else (mkUpdateResult 1 0,
              mkDocument (spreadsheetName doc) (cellId doc) new_expr :: rest)
      else
        let '(r, rest') := list_updateOne filter new_expr rest in
        (r, doc :: rest')
  end.

Definition list_findOne (filter : string * option string) (coll : Collection)
  : option Document :=
  List.find (matches filter) coll.

Fixpoint list_deleteOne (filter : string * option string) (coll : Collection)
  : Collection :=
  match coll with
  | [] => []
  | doc :: rest =>
      if matches filter doc then rest else doc :: list_deleteOne filter rest
  end.

(** The driver; [fault] is the message of the error with which every call
    rejects, if any. *)
Definition mongo (fault : option string) : Driver Collection :=
  match fault with
  | Some message =>
      mkDriver Collection
        (λ _ _ coll, (Rejects message, coll))
        (λ _ _, Rejects message)
        (λ coll, (Rejects message, coll))
        (λ _ coll, (Rejects message, coll))
        (λ _, Rejects message)
  | None =>
      mkDriver Collection
        (λ filter new_expr coll,
           let '(r, coll') := list_updateOne filter new_expr coll in
           (Resolves r, coll'))
        (λ filter coll, Resolves (list_findOne filter coll))
        (λ _, (Resolves tt, []))
        (λ filter coll, (Resolves tt, list_deleteOne filter coll))
        (λ coll, Resolves coll)
  end.

(** No two documents have the same [spreadsheetName] and [cellId]. *)
Definition unique (coll : Collection) : Prop :=
  NoDup (map (λ doc, (spreadsheetName doc, cellId doc)) coll).

End Dao.

(** * The page of the DOM user interface ([blurCell] and [update])

    The cells of the table are the elements of class [cell], found by their
    id. An element has the attributes [data-expr] and [data-value], absent
    until they are set, and its text content. *)
Module Dom.

Record Element : Type := mkElement {
  data_expr : option string;
  data_value : option string;
  textContent : string;
}.

Abbreviation Page := (gmap string Element).

Section Listeners.
(** [Number.prototype.toString] and [String.prototype.trim]. *)
Variable Number_toString : JsVal → string.
Variable trim : string → string.
(** [ws.evaluate] and [ws.remove], awaited. *)
Variable ws_evaluate : string → string → string → WS.SvcResult Updates.
Variable ws_remove : string → string → WS.SvcResult Updates.

(** [update]: the page that the loop leaves, and [true] when it ended with
    the [TypeError] of an id that the page does not have. *)
Fixpoint update (focusedCellId : string) (updates : Updates) (page : Page)
  : Page * bool :=
  match updates with
  | [] => (page, false)
  | (cellId, value) :: rest =>
      if decide (cellId = focusedCellId) then update focusedCellId rest page
      else
        match page !! cellId with
        | Some cell =>
            let val := Number_toString value in
            update focusedCellId rest
              (<[cellId := mkElement (data_expr cell) (Some val) val]> page)
        | None => (page, true)
        end
  end.

(** The state of the listeners: the page and [focusedCellId]. *)
Record State : Type := mkState {
  page : Page;
  focusedCellId : string;
}.

(** [blurCell] on the element [target] of id [cellId]: the state that it
    leaves, and [true] when [update] ended it with a [TypeError]. *)
Definition blurCell (ssName : string) (st : State) (cellId : string)
    (target : Element) : State * bool :=
  let text := trim (textContent target) in
  let updatesResult :=
    if String.eqb text "" then ws_remove ssName cellId
    else ws_evaluate ssName cellId text in
  match updatesResult with
  | WS.SvcOk val =>
      let page1 :=
        <[cellId := mkElement (Some text) (data_value target)
                      (textContent target)]> (page st) in
      let '(page2, raised) := update (focusedCellId st) val page1 in
      if raised then (mkState page2 (focusedCellId st), true)
      else (mkState page2 "", false)
  | WS.SvcErr errors =>
      (mkState
         (<[cellId := mkElement (data_expr target) (data_value target)
                        (default "" (data_value target))]> (page st)) "",
       false)
  end.

End Listeners.

End Dom.

(** ** A parser for the examples

    The properties below hold for every parser. The concrete scenarios of the
    specification need one that reads their formulas: prefix applications
    [f(e,..)], unsigned integers, and references of one column letter and a
    row number, kept relative to the cell that holds the formula. *)
Module Demo.

Record Rel : Type := mkRel { col : Z; row : Z }.

Definition is_digit (c : ascii) : bool :=
  let n := nat_of_ascii c in (48 <=? n)%nat && (n <=? 57)%nat.

Definition is_lower (c : ascii) : bool :=
  let n := nat_of_ascii c in (97 <=? n)%nat && (n <=? 122)%nat.

Fixpoint all_digits (s : string) : bool :=
  match s with
  | EmptyString => true
  | String c rest => is_digit c && all_digits rest
  end.

Fixpoint nat_of_digits (acc : nat) (s : string) : nat :=
  match s with
  | EmptyString => acc
  | String c rest => nat_of_digits (10 * acc + (nat_of_ascii c - 48)) rest
  end.

Fixpoint float_of_nat (n : nat) : float :=
  match n with
  | O => 0%float
  | S m => (float_of_nat m + 1)%float
  end.

(** A column letter and a row number from 1, as indexes from 0. *)
Definition ref_parse (s : string) : option Rel :=
  match s with
  | String c digits =>
      if is_lower c && negb (String.eqb digits "") && all_digits digits
         && (1 <=? nat_of_digits 0 digits)%nat
      then Some (mkRel (Z.of_nat (nat_of_ascii c) - 97)
                       (Z.of_nat (nat_of_digits 0 digits) - 1))
      else None
  | EmptyString => None
  end.

Definition digit_text (d : nat) : string :=
  String (ascii_of_nat (48 + d)) EmptyString.

(** The decimal text of a number; [fuel] bounds the number of digits. *)
Fixpoint decimal_text (fuel n : nat) : string :=
  match fuel with
  | O => EmptyString
  | S fuel' =>
      if (n <? 10)%nat then digit_text n
      else decimal_text fuel' (n / 10) +:+ digit_text (n mod 10)
  end.

(** The text of [self] moved by the indexes of [arg]; the empty text when
    that leaves the sheet. *)
Definition ref_toText (self : Rel) (arg : option Rel) : string :=
  let b := default (mkRel 0 0) arg in
  let c := (col self + col b)%Z in
  let r := (row self + row b)%Z in
  if ((0 <=? c) && (c <? 26) && (0 <=? r))%Z
  then String (ascii_of_nat (Z.to_nat (97 + c)))
            (decimal_text 20 (Z.to_nat (r + 1)))
  else "".

Definition stops_word (c : ascii) : bool :=
  Ascii.eqb c "("%char || Ascii.eqb c ","%char || Ascii.eqb c ")"%char.

Fixpoint take_word (s : string) : string * string :=
  match s with
  | EmptyString => (EmptyString, EmptyString)
  | String c rest =>
      if stops_word c then (EmptyString, s)
      else let '(w, r) := take_word rest in (String c w, r)
  end.

Fixpoint parse_expr (fuel : nat) (base : Rel) (s : string)
  : option (Ast Rel * string) :=
  match fuel with
  | O => None
  | S fuel' =>
      let '(word, rest) := take_word s in
      match rest with
      | String "(" rest' =>
          match parse_args fuel' base rest' with
          | Some (kids, rest'') => Some (App word kids, rest'')
          | None => None
          end
      | _ =>
          if negb (String.eqb word "") && all_digits word
          then Some (Num (JNum (float_of_nat (nat_of_digits 0 word))), rest)
          else
            match ref_parse word with
            | Some r =>
                Some (Ref (mkRel (col r - col base) (row r - row base)), rest)
            | None => None
            end
      end
  end
with parse_args (fuel : nat) (base : Rel) (s : string)
  : option (list (Ast Rel) * string) :=
  match fuel with
  | O => None
  | S fuel' =>
      match parse_expr fuel' base s with
      | Some (kid, String "," rest) =>
          match parse_args fuel' base rest with
          | Some (kids, rest') => Some (kid :: kids, rest')
          | None => None
          end
      | Some (kid, String ")" rest) => Some ([kid], rest)
      | _ => None
      end
  end.

Definition parse_formula (expr cellId : string) : option (Ast Rel) :=
  match ref_parse cellId with
  | Some base =>
      match parse_expr (S (String.length expr)) base expr with
      | Some (ast, EmptyString) => Some ast
      | _ => None
      end
  | None => None
  end.

#[export] Instance parser : ExprParser Rel := {|
  parse := parse_formula;
  CellRef_parse := ref_parse;
  CellRef_toText := ref_toText;
|}.

(** Number::toString and StringToNumber on the numbers of the examples:
    NaN, the infinities and the integers up to 2^53 in absolute value, whose
    text is their decimal digits. The examples build no text from another
    number and read no other text as a number: such a number has the empty
    text here, and such a text reads as NaN. *)
Definition integer_of (f : float) : option Z :=
  match Prim2SF f with
  | S754_zero _ => Some 0%Z
  | S754_finite s m e =>
      let n :=
        if (0 <=? e)%Z then Some (Z.pos m * 2 ^ e)%Z
        else if (Z.pos m mod 2 ^ (- e) =? 0)%Z then Some (Z.pos m / 2 ^ (- e))%Z
        else None in
      (λ z, if s then (- z)%Z else z) <$> n
  | _ => None
  end.

Fixpoint decimal_digits (fuel : nat) (n : Z) : string :=
  match fuel with
  | O => EmptyString
  | S fuel' =>
      if (n <? 10)%Z then digit_text (Z.to_nat n)
      else decimal_digits fuel' (n / 10) +:+ digit_text (Z.to_nat (n mod 10))
  end.

Definition number_text (f : float) : string :=
  if is_nan f then "NaN"
  else
    match Prim2SF f with
    | S754_infinity false => "Infinity"
    | S754_infinity true => "-Infinity"
    | _ =>
        match integer_of f with
        | Some z =>
            if (Z.abs z <=? 2 ^ 53)%Z
            then (if (z <? 0)%Z then "-" else "") +:+ decimal_digits 17 (Z.abs z)
            else ""
        | None => ""
        end
    end.

Definition text_number (s : string) : float :=
  match s with
  | EmptyString => 0%float
  | String "-" digits =>
      if negb (String.eqb digits "") && all_digits digits
      then (- float_of_nat (nat_of_digits 0 digits))%float
      else nan
  | _ => if all_digits s then float_of_nat (nat_of_digits 0 s) else nan
  end.

#[export] Instance platform : JsPlatform := {|
  NumberToString := number_text;
  StringToNumber := text_number;
|}.

(** A parser that reads a reference as an offset from [a1], wherever the
    formula stands: in a cell other than [a1] a reference to a far column
    resolves to no cell of the sheet. *)
Definition absolute_parser : ExprParser Rel := {|
  parse := λ expr cellId,
    match ref_parse cellId with
    | Some _ => parse_formula expr "a1"
    | None => None
    end;
  CellRef_parse := ref_parse;
  CellRef_toText := ref_toText;
|}.

(** ** Tables of the examples *)

Definition ref_b1_from_a1 : Ast Rel := Ref (mkRel 1 0).

(** [b1 = 3] and [a1 = +(b1,2)], as [eval] leaves them. *)
Definition sheet_b1_a1 : gmap string (CellInfo Rel) :=
  <["a1" := mkCellInfo "a1" "+(b1,2)"
              (Some (App "+" [ref_b1_from_a1; Num (JNum 2)])) (JNum 5) (DepSet [])]>
  (<["b1" := mkCellInfo "b1" "3" (Some (Num (JNum 3))) (JNum 3) (DepSet ["a1"])]> ∅).

(** The same table after a call that failed. *)
Definition sheet_rolled_back : gmap string (CellInfo Rel) :=
  <["a1" := mkCellInfo "a1" "+(b1,2)"
              (Some (App "+" [ref_b1_from_a1; Num (JNum 2)])) (JNum 5) DepPlain]>
  (<["b1" := mkCellInfo "b1" "3" (Some (Num (JNum 3))) (JNum 3) DepPlain]> ∅).

(** [b1 = a1] on the empty table: [a1] is a placeholder. *)
Definition sheet_b1_refers_a1 : gmap string (CellInfo Rel) :=
  <["b1" := mkCellInfo "b1" "a1" (Some (Ref (mkRel (-1) 0))) (JNum 0) (DepSet [])]>
  (<["a1" := mkCellInfo "a1" "0" None (JNum 0) (DepSet ["b1"])]> ∅).

Definition sheet_b1_refers_a1_rolled_back : gmap string (CellInfo Rel) :=
  <["b1" := mkCellInfo "b1" "a1" (Some (Ref (mkRel (-1) 0))) (JNum 0) DepPlain]>
  (<["a1" := mkCellInfo "a1" "0" None (JNum 0) DepPlain]> ∅).

(** The diamond: [b1] and [c1] depend on [a1], [d1] on both. *)
Definition diamond_edits : list (string * string) :=
  [("a1", "1"); ("b1", "a1"); ("c1", "a1"); ("d1", "+(b1,c1)")].

Definition diamond : gmap string (CellInfo Rel) :=
  <["d1" := mkCellInfo "d1" "+(b1,c1)"
              (Some (App "+" [Ref (mkRel (-2) 0); Ref (mkRel (-1) 0)]))
              (JNum 2) (DepSet [])]>
  (<["c1" := mkCellInfo "c1" "a1" (Some (Ref (mkRel (-2) 0))) (JNum 1)
               (DepSet ["d1"])]>
  (<["b1" := mkCellInfo "b1" "a1" (Some (Ref (mkRel (-1) 0))) (JNum 1)
               (DepSet ["d1"])]>
  (<["a1" := mkCellInfo "a1" "1" (Some (Num (JNum 1))) (JNum 1)
               (DepSet ["b1"; "c1"])]> ∅))).

(** [sheet_b1_a1] after [c1 = d1]: [d1] is a placeholder. *)
Definition sheet_c1_refers_d1 : gmap string (CellInfo Rel) :=
  <["c1" := mkCellInfo "c1" "d1" (Some (Ref (mkRel 1 0))) (JNum 0) (DepSet [])]>
  (<["d1" := mkCellInfo "d1" "0" None (JNum 0) (DepSet ["c1"])]> sheet_b1_a1).

(** [sheet_c1_refers_d1] after [b1 = 10]. *)
Definition sheet_c1_refers_d1_b1_10 : gmap string (CellInfo Rel) :=
  <["c1" := mkCellInfo "c1" "d1" (Some (Ref (mkRel 1 0))) (JNum 0) (DepSet [])]>
  (<["d1" := mkCellInfo "d1" "0" None (JNum 0) (DepSet ["c1"])]>
  (<["a1" := mkCellInfo "a1" "+(b1,2)"
               (Some (App "+" [ref_b1_from_a1; Num (JNum 2)])) (JNum 12)
               (DepSet [])]>
  (<["b1" := mkCellInfo "b1" "3" (Some (Num (JNum 10))) (JNum 10)
               (DepSet ["a1"])]> ∅))).

(** [a1 = +(b1,2)] on the empty table: [b1] is a placeholder. *)
Definition sheet_a1_placeholder_b1 : gmap string (CellInfo Rel) :=
  <["a1" := mkCellInfo "a1" "+(b1,2)"
              (Some (App "+" [ref_b1_from_a1; Num (JNum 2)])) (JNum 2) (DepSet [])]>
  (<["b1" := mkCellInfo "b1" "0" None (JNum 0) (DepSet ["a1"])]> ∅).

End Demo.

(** * Notions used by the properties *)

Section Notions.
Context {CellRef : Type} {P : ExprParser CellRef} {J : JsPlatform}.

Implicit Types (cells : gmap string (CellInfo CellRef)) (st : PropState CellRef).
Implicit Types (ast node : Ast CellRef) (base : CellRef).

(** [typeof FNS[fn] === 'function']. *)
Definition is_function (fn : string) : bool :=
  match FNS_get fn with
  | Some (MFunction _) => true
  | _ => false
  end.

(** The [Error] that [evalAst] throws for a function name under which [FNS]
    has no function. *)
Definition unsupported_error (e : Thrown) : Prop :=
  ∃ fn, is_function fn = false ∧
        e = ThrownError ("Unsupported function: " +:+ fn).

(** [true] when the tree has an [app] node whose function name is not a key
    of [FNS]. *)
Fixpoint has_unsupported (node : Ast CellRef) : bool :=
  match node with
  | App fn kids =>
      match FNS fn with
      | Some _ =>
          (fix any (ks : list (Ast CellRef)) : bool :=
             match ks with
             | [] => false
             | k :: rest => has_unsupported k || any rest
             end) kids
      | None => true
      end
  | _ => false
  end.

(** [true] when the tree has an [app] node under whose function name [FNS]
    has no function, neither its own nor one that it inherits. *)
Fixpoint has_nonfunction (node : Ast CellRef) : bool :=
  match node with
  | App fn kids =>
      negb (is_function fn) ||
      (fix any (ks : list (Ast CellRef)) : bool :=
         match ks with
         | [] => false
         | k :: rest => has_nonfunction k || any rest
         end) kids
  | _ => false
  end.

(** [true] when the tree has an [app] node whose function is one that
    [FNS] inherits from [Object.prototype]. *)
Fixpoint calls_inherited (node : Ast CellRef) : bool :=
  match node with
  | App fn kids =>
      match FNS fn with
      | Some _ => false
      | None => is_function fn
      end ||
      (fix any (ks : list (Ast CellRef)) : bool :=
         match ks with
         | [] => false
         | k :: rest => calls_inherited k || any rest
         end) kids
  | _ => false
  end.

(** The table once the new AST is on [cellInfo] and the old edges are
    retracted. *)
Definition retracted cells (cellId : string) ast base
  : Exec (gmap string (CellInfo CellRef)) :=
  match cells !! cellId with
  | Some cellInfo =>
      match cell_ast cellInfo with
      | Some previousAst =>
          removeFromPrevious cellId (extractReferencedCellIds previousAst base)
            (alter (set_ast (Some ast)) cellId cells)
      | None => Return (alter (set_ast (Some ast)) cellId cells)
      end
  | None => Return cells
  end.

(** The table once the value is stored and [cellInfo] is in the table;
    [cells0] is the table at the start of the call. *)
Definition committed cells0 cells (cellId expr : string) ast (result : JsVal)
  : gmap string (CellInfo CellRef) :=
  match cells0 !! cellId with
  | Some _ => alter (set_value result) cellId cells
  | None => <[cellId := mkCellInfo cellId expr (Some ast) result (DepSet [])]> cells
  end.

(** The record that the loop over [referencedCellIds] leaves at a referenced
    id: the record that was there with [cellId] among its dependents, or a
    placeholder. *)
Definition referenced_record (cellId k : string) (o : option (CellInfo CellRef))
  : CellInfo CellRef :=
  match o with
  | Some c =>
      set_dependents (DepSet (Set_add cellId (Array_from (cell_dependents c)))) c
  | None => mkCellInfo k "0" None (JNum 0) (DepSet [cellId])
  end.

(** Propagation keeps the keys of the table and only adds to
    [processedCells]. *)
Definition grows st st' : Prop :=
  dom (st_cells st') = dom (st_cells st) ∧ st_processed st ⊆ st_processed st'.

(** Propagation changes nothing but the [value] of records that have an
    AST. *)
Definition values_only cells cells' : Prop :=
  ∀ k, match cells !! k, cells' !! k with
       | Some c, Some c' =>
           c' = set_value (cell_value c') c ∧ (cell_ast c = None → c' = c)
       | None, None => True
       | _, _ => False
       end.

(** Retraction changes [dependents] fields only. *)
Definition dependents_only cells cells' : Prop :=
  ∀ k, match cells !! k, cells' !! k with
       | Some c, Some c' => c' = set_dependents (cell_dependents c') c
       | None, None => True
       | _, _ => False
       end.

(** The number of records that are not in [processedCells] bounds the depth
    of the recursion. *)
Definition pending st : nat := size (dom (st_cells st) ∖ st_processed st).

(** The tables that calls of [eval] build from the empty table. *)
Inductive reachable : gmap string (CellInfo CellRef) → Prop :=
  | reachable_empty : reachable ∅
  | reachable_eval cells cellId expr r cells' :
      reachable cells → eval cells cellId expr = Some (r, cells') →
      reachable cells'.

(** A sequence of calls of [eval], each on the table the one before left. *)
Fixpoint replay (edits : list (string * string)) cells
  : option (gmap string (CellInfo CellRef)) :=
  match edits with
  | [] => Some cells
  | (cellId, expr) :: rest =>
      match eval cells cellId expr with
      | Some (_, cells') => replay rest cells'
      | None => None
      end
  end.

(** A record without an AST holds the value 0. *)
Definition unassigned_zero cells : Prop :=
  ∀ k c, cells !! k = Some c → cell_ast c = None → cell_value c = JNum 0.

(** [true] when no formula is assigned to [k]: no record, or no AST. *)
Definition unassigned cells (k : string) : bool :=
  match cells !! k with
  | Some c => match cell_ast c with Some _ => false | None => true end
  | None => true
  end.

(** The tree with the literal 0 in place of each reference to a cell
    without a formula. *)
Fixpoint zero_unassigned cells base ast : Ast CellRef :=
  match ast with
  | Ref r =>
      match resolve base r with
      | Some k => if unassigned cells k then Num (JNum 0) else Ref r
      | None => Ref r
      end
  | App fn kids => App fn (map (zero_unassigned cells base) kids)
  | Num v => Num v
  end.

(** The tree with the literal 0 in place of each reference that does not
    resolve against [base]. *)
Fixpoint zero_unresolved base ast : Ast CellRef :=
  match ast with
  | Ref r =>
      match resolve base r with
      | Some _ => Ref r
      | None => Num (JNum 0)
      end
  | App fn kids => App fn (map (zero_unresolved base) kids)
  | Num v => Num v
  end.

(** [Y]'s AST holds a reference that resolves to [X]. *)
Definition references cells (Y X : string) : bool :=
  match cells !! Y with
  | Some c =>
      match cell_ast c, CellRef_parse Y with
      | Some ast, Some base => bool_decide (X ∈ extractReferencedCellIds ast base)
      | _, _ => false
      end
  | None => false
  end.

(** [X]'s dependents hold [Y]. *)
Definition has_dependent cells (X Y : string) : bool :=
  match cells !! X with
  | Some c => bool_decide (Y ∈ Array_from (cell_dependents c))
  | None => false
  end.

(** I1, edge symmetry: for two cells of the table, one references the other
    exactly when the other holds it as a dependent. *)
Definition edge_symmetry cells : Prop :=
  ∀ X Y, is_Some (cells !! X) → is_Some (cells !! Y) →
    references cells Y X = has_dependent cells X Y.

(** Edge symmetry over all identifiers: a reference to an id without a
    record breaks it. *)
Definition edges_symmetric cells : Prop :=
  ∀ X Y, references cells Y X = has_dependent cells X Y.

(** The dependents and the AST of an id, empty and absent without a
    record. *)
Definition deps_of cells (k : string) : list string :=
  match cells !! k with
  | Some c => Array_from (cell_dependents c)
  | None => []
  end.

Definition ast_of cells (k : string) : option (Ast CellRef) :=
  cells !! k ≫= cell_ast.

(** The record that the retraction leaves at an id of the old reference
    set. *)
Definition retracted_record (cellId : string) (c : CellInfo CellRef)
  : CellInfo CellRef :=
  set_dependents (DepSet (Set_delete cellId (Array_from (cell_dependents c)))) c.

(** The old reference set of the edited cell. *)
Definition previous_refs cells (cellId : string) base : list string :=
  match ast_of cells cellId with
  | Some previousAst => extractReferencedCellIds previousAst base
  | None => []
  end.

(** The dependents of [k] after the retraction. *)
Definition retracted_deps cells (cellId : string) base (k : string)
  : list string :=
  if decide (k ∈ previous_refs cells cellId base)
  then Set_delete cellId (deps_of cells k)
  else deps_of cells k.

(** Two runs of [eval] on one cell [edited] with two trees [ast] and
    [ast']: the tables of the two runs are twins when they are equal but
    for the record of the edited cell, which holds [ast] in one and [ast']
    in the other, and may differ in its text. *)
Definition twin_cell_of (ast ast' : Ast CellRef) (c c' : CellInfo CellRef)
  : Prop :=
  cell_id c' = cell_id c ∧ cell_value c' = cell_value c ∧
  cell_dependents c' = cell_dependents c ∧
  cell_ast c = Some ast ∧ cell_ast c' = Some ast'.

Definition twin_of (edited : string) (ast ast' : Ast CellRef) cells cells'
  : Prop :=
  (∀ k, k ≠ edited → cells !! k = cells' !! k) ∧
  match cells !! edited, cells' !! edited with
  | Some c, Some c' => twin_cell_of ast ast' c c'
  | None, None => True
  | _, _ => False
  end.

Definition twin_state_of (edited : string) (ast ast' : Ast CellRef) st st'
  : Prop :=
  twin_of edited ast ast' (st_cells st) (st_cells st') ∧
  st_processed st = st_processed st' ∧ st_recomputed st = st_recomputed st'.

(** Two outcomes of the same kind, with related results. *)
Definition twin_exec {A : Type} (rel : A → A → Prop) (m m' : Exec A) : Prop :=
  match m, m' with
  | Return a, Return a' => rel a a'
  | Throw _, Throw _ => True
  | OutOfFuel, OutOfFuel => True
  | _, _ => False
  end.

Definition twin_result_of (edited : string) (ast ast' : Ast CellRef)
    (x x' : Updates * PropState CellRef) : Prop :=
  x.1 = x'.1 ∧ twin_state_of edited ast ast' x.2 x'.2.

(** The tables of the scenario of the specification, after each of its
    calls; [r] is the reference to [b1] in the formula of [a1]. The text of
    [b1] stays ["3"]: [eval] sets [expr] when it creates the record only. *)
Definition scenario1 : gmap string (CellInfo CellRef) :=
  <["b1" := mkCellInfo "b1" "3" (Some (Num (JNum 3))) (JNum 3) (DepSet [])]> ∅.

Definition scenario2 (r : CellRef) : gmap string (CellInfo CellRef) :=
  <["a1" := mkCellInfo "a1" "+(b1,2)" (Some (App "+" [Ref r; Num (JNum 2)]))
              (JNum 5) (DepSet [])]>
  (<["b1" := mkCellInfo "b1" "3" (Some (Num (JNum 3))) (JNum 3)
               (DepSet ["a1"])]> ∅).

Definition scenario3 (r : CellRef) : gmap string (CellInfo CellRef) :=
  <["a1" := mkCellInfo "a1" "+(b1,2)" (Some (App "+" [Ref r; Num (JNum 2)]))
              (JNum 12) (DepSet [])]>
  (<["b1" := mkCellInfo "b1" "3" (Some (Num (JNum 10))) (JNum 10)
               (DepSet ["a1"])]> ∅).

Definition scenario4 (r : CellRef) : gmap string (CellInfo CellRef) :=
  <["a1" := mkCellInfo "a1" "+(b1,2)" (Some (App "+" [Ref r; Num (JNum 2)]))
              (JNum 2) (DepSet [])]>
  (<["b1" := mkCellInfo "b1" "3" None (JNum 0) (DepSet ["a1"])]> ∅).

End Notions.

(** ** Notions of the further properties *)

Section MoreNotions.
Context {CellRef : Type} {P : ExprParser CellRef} {J : JsPlatform}.

Implicit Types (cells : gmap string (CellInfo CellRef)) (st : PropState CellRef).

(** [updates[k]]. *)
Fixpoint updates_get (k : string) (u : Updates) : option JsVal :=
  match u with
  | [] => None
  | (k', v) :: rest => if String.eqb k' k then Some v else updates_get k rest
  end.

(** The value that a reference to [k] reads: 0 without a record. *)
Definition value_of cells (k : string) : JsVal :=
  match cells !! k with
  | Some c => cell_value c
  | None => JNum 0
  end.

(** The map [u] tells what became of the table [cells0]: a key of [u] holds
    the value that [u] gives in [cells1], and the record of any other key
    is the one of [cells0]. *)
Definition reports (u : Updates) cells0 cells1 : Prop :=
  NoDup u.*1 ∧
  ∀ k, match updates_get k u with
       | Some v => cell_value <$> cells1 !! k = Some v
       | None => cells1 !! k = cells0 !! k
       end.

(** [y] is a dependent of [x] that holds a formula: what the loop of
    [updateDependentCells] on [x] recomputes. *)
Definition feeds cells (x y : string) : Prop :=
  y ∈ deps_of cells x ∧ is_Some (ast_of cells y).

(** [y] is reached from [x] through dependents that hold a formula. *)
Inductive feeds_into cells (x : string) : string → Prop :=
  | feeds_once y : feeds cells x y → feeds_into cells x y
  | feeds_next y z :
      feeds_into cells x y → feeds cells y z → feeds_into cells x z.

(** Two tables with the same dependents and the same trees. *)
Definition same_graph cells0 cells : Prop :=
  ∀ k, deps_of cells k = deps_of cells0 k ∧ ast_of cells k = ast_of cells0 k.

(** Every dependent of [y] that holds a formula is among the ids [done]. *)
Definition complete cells0 (done : list string) (y : string) : Prop :=
  ∀ d, feeds cells0 y d → d ∈ done.

(** The cells of [processedCells] are complete, but for those of [active],
    whose loop is running. *)
Definition processed_complete cells0 st (active : list string) : Prop :=
  ∀ y, y ∉ active → y ∈ st_processed st →
    complete cells0 (st_recomputed st) y.

(** The cells that were recomputed are complete, but for those of
    [active]. *)
Definition recomputed_complete cells0 st (active : list string) : Prop :=
  ∀ y, y ∉ active → y ∈ st_recomputed st → is_Some (ast_of cells0 y) →
    complete cells0 (st_recomputed st) y.

(** What a propagation from [x] under [path] ensures when it returns. *)
Definition propagated cells0 (x : string) (path : list string)
    (st : PropState CellRef) (u : Updates) (st' : PropState CellRef) : Prop :=
  same_graph cells0 (st_cells st') ∧
  processed_complete cells0 st' path ∧
  recomputed_complete cells0 st' path ∧
  (x ∉ path → is_Some (ast_of cells0 x) →
   complete cells0 (st_recomputed st') x) ∧
  (∀ k, k ∈ st_recomputed st → k ∈ st_recomputed st') ∧
  (∀ k, k ∈ st_recomputed st' → k ∈ st_recomputed st ∨ k ∈ u.*1) ∧
  (∀ k, k ∈ st_recomputed st' →
        k ∈ st_recomputed st ∨ ((k ∉ path) ∧ (k = x → x ∈ deps_of cells0 x))).

(** I3 at one cell: the value of [k] is the value of its formula in the
    table. *)
Definition consistent cells (k : string) : Prop :=
  ∀ a b, ast_of cells k = Some a → CellRef_parse k = Some b →
    evalAst cells a b k = Return (value_of cells k).

(** The trees and the dependents of a table [G] are those that the edit of
    [cellId] with the tree [ast] makes of the table [cells]. *)
Definition edited_graph cells (cellId : string) (ast : Ast CellRef)
    (base : CellRef) (G : gmap string (CellInfo CellRef)) : Prop :=
  ∀ k,
    ast_of G k = (if decide (k = cellId) then Some ast else ast_of cells k) ∧
    deps_of G k =
      (if decide (k = cellId) then retracted_deps cells cellId base k
       else if decide (k ∈ extractReferencedCellIds ast base)
            then Set_add cellId (retracted_deps cells cellId base k)
            else retracted_deps cells cellId base k).

(** Every [dependents] field is a [Set]: no call has failed. *)
Definition sets_kept cells : Prop :=
  ∀ k c, cells !! k = Some c → cell_dependents c ≠ DepPlain.

(** Every tree of the table uses supported functions only, and the id of
    its cell is one that [CellRef.parse] accepts. *)
Definition formulas_kept cells : Prop :=
  ∀ k a, ast_of cells k = Some a →
    has_unsupported a = false ∧ is_Some (CellRef_parse k).

(** No cell is reached from itself. *)
Definition acyclic cells : Prop := ∀ x, ¬ feeds_into cells x x.

End MoreNotions.

(** * Properties *)

(** ** The [Exec] monad *)

Lemma bind_Return_inv {A B : Type} (m : Exec A) (k : A → Exec B) (b : B) :
  m ≫= k = Return b → ∃ a, m = Return a ∧ k a = Return b.
Proof. destruct m as [a | e |]; simpl; [eauto | discriminate | discriminate]. Qed.

Lemma bind_OutOfFuel_inv {A B : Type} (m : Exec A) (k : A → Exec B) :
  m ≫= k = OutOfFuel → m = OutOfFuel ∨ ∃ a, m = Return a ∧ k a = OutOfFuel.
Proof. destruct m as [a | e |]; simpl; [eauto | discriminate | eauto]. Qed.

Lemma mapM_no_OutOfFuel {A B : Type} (f : A → Exec B) (l : list A) :
  Forall (λ x, f x ≠ OutOfFuel) l → mapM f l ≠ OutOfFuel.
Proof.
  induction 1 as [| x rest Hx _ IH]; simpl; [discriminate |].
  destruct (f x) as [y | e |]; simpl; [| discriminate | done].
  destruct (mapM f rest); simpl; [discriminate | discriminate | done].
Qed.

Lemma mapM_ext {A B : Type} (f g : A → Exec B) (l : list A) :
  Forall (λ x, f x = g x) l → mapM f l = mapM g l.
Proof.
  induction 1 as [| x rest Hx _ IH]; simpl; [done |].
  by rewrite Hx, IH.
Qed.

Lemma mapM_map {A B C : Type} (f : B → Exec C) (g : A → B) (l : list A) :
  mapM f (map g l) = mapM (λ x, f (g x)) l.
Proof. induction l as [| x rest IH]; simpl; [done |]. by rewrite IH. Qed.

(** A list whose callbacks never exhaust the budget and one of which throws
    makes [mapM] throw what the first throwing callback throws. *)
Lemma mapM_Throw {A B : Type} (f : A → Exec B) (Q : Thrown → Prop) (l : list A) :
  Forall (λ x, f x ≠ OutOfFuel ∧ ∀ e, f x = Throw e → Q e) l →
  Exists (λ x, ∃ e, f x = Throw e) l →
  ∃ e, mapM f l = Throw e ∧ Q e.
Proof.
  induction 1 as [| x rest [Hx HQ] Hall IH]; intros Hex.
  - inversion Hex.
  - simpl. destruct (f x) as [y | e |] eqn:Hfx; simpl.
    + apply Exists_cons in Hex as [[e He] | Hex]; [congruence |].
      destruct (IH Hex) as (e & -> & He). simpl. eauto.
    + eauto.
    + done.
Qed.

Section Properties.
Context {CellRef : Type} {P : ExprParser CellRef} {J : JsPlatform}.

Implicit Types (cells : gmap string (CellInfo CellRef)) (st : PropState CellRef).
Implicit Types (ast node : Ast CellRef) (base : CellRef).

(** ** [evalAst] *)

(** A function that [FNS] holds or inherits returns or throws a
    [TypeError]; the functions of [FNS] itself return. *)
Lemma FNS_get_outcome fn f args :
  FNS_get fn = Some (MFunction f) →
  f args ≠ OutOfFuel ∧
  ∀ e, f args = Throw e → e = ThrownTypeError ∧ FNS fn = None.
Proof.
  unfold FNS_get. destruct (FNS fn) as [g |].
  - intros [= <-]. split; [discriminate | intros e; discriminate].
  - unfold Object_prototype. intros Hm.
    repeat case_match; simplify_eq; split; try discriminate; intros e;
      repeat case_match; try discriminate; by intros [= <-].
Qed.

Lemma FNS_is_function fn f : FNS fn = Some f → is_function fn = true.
Proof. unfold is_function, FNS_get. by intros ->. Qed.

Lemma evalAst_outcome cells node base cellId :
  evalAst cells node base cellId ≠ OutOfFuel ∧
  ∀ e, evalAst cells node base cellId = Throw e →
       unsupported_error e ∨ e = ThrownTypeError.
Proof.
  induction node as [v | r | fn kids IH] using Ast_ind; simpl.
  - split; [discriminate | intros e; discriminate].
  - split; [| intros e]; destruct (resolve base r); try destruct (cells !! _);
      discriminate.
  - destruct (mapM (λ kid, evalAst cells kid base cellId) kids)
      as [vs | e0 |] eqn:Hkids; simpl.
    + destruct (FNS_get fn) as [[f |] |] eqn:Hfn.
      * destruct (FNS_get_outcome fn f vs Hfn) as [Hfuel Hthrow].
        split; [done |]. intros e He. right. by apply Hthrow.
      * split; [discriminate |]. intros e [= <-]. left. exists fn.
        unfold is_function. by rewrite Hfn.
      * split; [discriminate |]. intros e [= <-]. left. exists fn.
        unfold is_function. by rewrite Hfn.
    + split; [discriminate |]. intros e [= <-].
      clear -IH Hkids. revert Hkids.
      induction IH as [| k rest [_ Hk] _ IHrest]; simpl; [discriminate |].
      destruct (evalAst cells k base cellId) eqn:Hek; simpl; [| | discriminate].
      * destruct (mapM _ rest); simpl; [discriminate | | discriminate].
        intros [= <-]. by apply IHrest.
      * intros [= <-]. by apply Hk.
    + exfalso. revert Hkids. apply mapM_no_OutOfFuel.
      eapply Forall_impl; [exact IH |]. by intros k [Hk _].
Qed.

Lemma evalAst_no_OutOfFuel cells node base cellId :
  evalAst cells node base cellId ≠ OutOfFuel.
Proof. apply evalAst_outcome. Qed.

(** Evaluation reads the values of the table and nothing else. *)
Lemma evalAst_values cells cells' node base cellId cellId' :
  (∀ k, cell_value <$> cells !! k = cell_value <$> cells' !! k) →
  evalAst cells node base cellId = evalAst cells' node base cellId'.
Proof.
  intros Hv. induction node as [v | r | fn kids IH] using Ast_ind; simpl.
  - done.
  - destruct (resolve base r) as [k |]; [| done].
    specialize (Hv k).
    destruct (cells !! k), (cells' !! k); simpl in Hv; congruence.
  - by rewrite (mapM_ext _ _ _ IH).
Qed.

(** ** Propagation: what it preserves, and that it ends *)

Lemma updateDependentCells_S fuel st cellId path :
  updateDependentCells (S fuel) st cellId path =
  match st_cells st !! cellId with
  | None => Return ([], st)
  | Some cellInfo =>
      match cell_ast cellInfo with
      | None => Return ([], st)
      | Some _ =>
          if decide (cellId ∈ st_processed st) then Return ([], st)
          else
            dependentsLoop (updateDependentCells fuel) cellId path
              (Array_from (cell_dependents cellInfo)) [] st
      end
  end.
Proof. reflexivity. Qed.

Section PropagationInvariant.
Variable Inv : PropState CellRef → PropState CellRef → Prop.
Hypothesis Inv_refl : ∀ st, Inv st st.
Hypothesis Inv_trans : ∀ st1 st2 st3, Inv st1 st2 → Inv st2 st3 → Inv st1 st3.
Hypothesis Inv_add : ∀ st cellId, Inv st (processed_add cellId st).
Hypothesis Inv_store : ∀ st d c a v,
  st_cells st !! d = Some c → cell_ast c = Some a → Inv st (store_value d v st).

Lemma dependentsLoop_inv recurse cellId path :
  (∀ st d p u st', recurse st d p = Return (u, st') → Inv st st') →
  ∀ ids updates st u st',
    dependentsLoop recurse cellId path ids updates st = Return (u, st') →
    Inv st st'.
Proof.
  intros Hrec ids. induction ids as [| d rest IH]; intros updates st u st'; simpl.
  - intros [= _ <-]. apply Inv_refl.
  - destruct (st_cells st !! d) as [c |] eqn:Hd; [| by apply IH].
    destruct (cell_ast c) as [a |] eqn:Ha; [| by apply IH].
    case_decide; [discriminate |].
    destruct (CellRef_parse d) as [dref |]; [| discriminate].
    intros Hrun.
    apply bind_Return_inv in Hrun as (v & _ & Hrun).
    apply bind_Return_inv in Hrun as ([ru st2] & Hr & Hrun).
    apply Hrec in Hr. apply IH in Hrun.
    eapply Inv_trans; [apply (Inv_add st cellId) |].
    eapply Inv_trans; [by eapply Inv_store |].
    by eapply Inv_trans.
Qed.

Lemma updateDependentCells_inv fuel st cellId path u st' :
  updateDependentCells fuel st cellId path = Return (u, st') → Inv st st'.
Proof.
  revert st cellId path u st'.
  induction fuel as [| fuel IH]; intros st cellId path u st';
    [discriminate | rewrite updateDependentCells_S].
  destruct (st_cells st !! cellId) as [c |]; [| intros [= _ <-]; apply Inv_refl].
  destruct (cell_ast c); [| intros [= _ <-]; apply Inv_refl].
  case_decide; [intros [= _ <-]; apply Inv_refl |].
  apply dependentsLoop_inv. exact IH.
Qed.
End PropagationInvariant.

Lemma updateDependentCells_grows fuel st cellId path u st' :
  updateDependentCells fuel st cellId path = Return (u, st') → grows st st'.
Proof.
  apply (updateDependentCells_inv grows); unfold grows; simpl.
  - done.
  - intros st1 st2 st3 [-> ?] [-> ?]. split; [done | set_solver].
  - intros; split; [done | set_solver].
  - intros st1 d c a v _ _. split; [apply dom_alter_L | done].
Qed.

Lemma updateDependentCells_values_only fuel st cellId path u st' :
  updateDependentCells fuel st cellId path = Return (u, st') →
  values_only (st_cells st) (st_cells st').
Proof.
  apply (updateDependentCells_inv (λ a b, values_only (st_cells a) (st_cells b)));
    unfold values_only; simpl.
  - intros st1 k. destruct (st_cells st1 !! k) as [[]|]; done.
  - intros st1 st2 st3 H12 H23 k. specialize (H12 k). specialize (H23 k).
    destruct (st_cells st1 !! k) as [c1|], (st_cells st2 !! k) as [c2|],
      (st_cells st3 !! k) as [c3|]; try done.
    destruct H12 as [E12 N12], H23 as [E23 N23]. split.
    + rewrite E23, E12. done.
    + intros Hn. rewrite <- (N12 Hn). apply N23. by rewrite (N12 Hn).
  - intros st1 _ k. destruct (st_cells st1 !! k) as [[]|]; done.
  - intros st1 d c a v Hd Ha k. rewrite lookup_alter.
    case_decide as Hk; [subst k; rewrite Hd; simpl | ].
    + split; [done | congruence].
    + destruct (st_cells st1 !! k) as [[]|]; done.
Qed.

Lemma pending_grows st st' : grows st st' → (pending st' ≤ pending st)%nat.
Proof. intros [Hd Hp]. unfold pending. rewrite Hd. apply subseteq_size. set_solver. Qed.

Lemma pending_processed_add st cellId :
  cellId ∈ dom (st_cells st) → cellId ∉ st_processed st →
  (pending (processed_add cellId st) < pending st)%nat.
Proof.
  intros Hin Hnot. unfold pending; simpl. apply subset_size.
  apply strict_spec_alt. split; [set_solver |].
  intros Heq. assert (cellId ∈ dom (st_cells st) ∖ st_processed st) as H
    by set_solver.
  rewrite <- Heq in H. set_solver.
Qed.

Lemma dependentsLoop_terminates recurse cellId path fuel :
  (∀ st d p, (pending st < fuel)%nat → recurse st d p ≠ OutOfFuel) →
  (∀ st d p u st', recurse st d p = Return (u, st') → grows st st') →
  ∀ ids updates st,
    (pending (processed_add cellId st) < fuel)%nat →
    dependentsLoop recurse cellId path ids updates st ≠ OutOfFuel.
Proof.
  intros Hrec Hgrows ids.
  induction ids as [| d rest IH]; intros updates st Hfuel; simpl; [discriminate |].
  destruct (st_cells st !! d) as [c |] eqn:Hd; [| by apply IH].
  destruct (cell_ast c) as [a |] eqn:Ha; [| by apply IH].
  case_decide; [discriminate |].
  destruct (CellRef_parse d) as [dref |]; [| discriminate].
  intros Hrun.
  apply bind_OutOfFuel_inv in Hrun as [Hrun | (v & _ & Hrun)];
    [by eapply evalAst_no_OutOfFuel |].
  set (st1 := store_value d v (processed_add cellId st)) in *.
  assert (pending st1 = pending (processed_add cellId st)) as Hst1.
  { unfold pending, st1; simpl. by rewrite dom_alter_L. }
  apply bind_OutOfFuel_inv in Hrun as [Hrun | ([ru st2] & Hr & Hrun)].
  - revert Hrun. apply Hrec. lia.
  - revert Hrun. apply IH. apply Hgrows in Hr.
    assert (grows st1 (processed_add cellId st2)) as Hg.
    { destruct Hr as [Hdom Hsub]. split; simpl; [done | set_solver]. }
    apply pending_grows in Hg. lia.
Qed.

Lemma updateDependentCells_terminates fuel st cellId path :
  (pending st < fuel)%nat →
  updateDependentCells fuel st cellId path ≠ OutOfFuel.
Proof.
  revert st cellId path.
  induction fuel as [| fuel IH]; intros st cellId path Hfuel; [lia |].
  rewrite updateDependentCells_S.
  destruct (st_cells st !! cellId) as [c |] eqn:Hc; [| discriminate].
  destruct (cell_ast c); [| discriminate].
  case_decide as Hp; [discriminate |].
  apply (dependentsLoop_terminates _ _ _ fuel).
  - exact IH.
  - intros st1 d p u st'. apply updateDependentCells_grows.
  - assert (cellId ∈ dom (st_cells st)) as Hin by (apply elem_of_dom; eauto).
    pose proof (pending_processed_add st cellId Hin Hp). lia.
Qed.

(** ** [eval] always returns *)

Lemma removeFromPrevious_no_OutOfFuel cellId prev cells :
  removeFromPrevious cellId prev cells ≠ OutOfFuel.
Proof.
  revert cells. induction prev as [| p rest IH]; intros cells; simpl;
    [discriminate |].
  destruct (cells !! p) as [c |]; [| apply IH].
  destruct (cell_dependents c); [apply IH | discriminate].
Qed.

Lemma eval_try_no_OutOfFuel cells cellId expr ast base :
  eval_try cells cellId expr ast base ≠ OutOfFuel.
Proof.
  unfold eval_try.
  destruct (update_cellInfo _ cellId cells _) as [cells1 fresh1].
  intros Hrun.
  apply bind_OutOfFuel_inv in Hrun as [Hrun | (cells2 & _ & Hrun)].
  { destruct (match cells !! cellId with Some _ => _ | None => _ end);
      [by eapply removeFromPrevious_no_OutOfFuel | discriminate]. }
  destruct (addToReferenced _ _ _ cells2) as [[] cells3]; [discriminate |].
  apply bind_OutOfFuel_inv in Hrun as [Hrun | (v & _ & Hrun)];
    [by eapply evalAst_no_OutOfFuel |].
  destruct (update_cellInfo _ cellId cells3 fresh1) as [cells4 fresh2].
  apply bind_OutOfFuel_inv in Hrun as [Hrun | ([u st] & _ & Hrun)];
    [| discriminate].
  revert Hrun. apply updateDependentCells_terminates.
  unfold pending; simpl. rewrite difference_empty_L, size_dom. lia.
Qed.

Lemma eval_traced_total cells cellId expr :
  is_Some (eval_traced cells cellId expr).
Proof.
  unfold eval_traced.
  destruct (parse expr cellId) as [ast |]; [| eauto].
  destruct (CellRef_parse cellId) as [base |]; [| eauto].
  destruct (eval_try cells cellId expr ast base) as [[u st] | e |] eqn:Hrun;
    [eauto | eauto |].
  by apply eval_try_no_OutOfFuel in Hrun.
Qed.

Lemma eval_total cells cellId expr : is_Some (eval cells cellId expr).
Proof.
  unfold eval. destruct (eval_traced_total cells cellId expr) as [[[r c] t] ->].
  eauto.
Qed.

(** ** The stages of [eval] *)

Lemma eval_try_stages cells cellId expr ast base :
  eval_try cells cellId expr ast base =
  cells2 ← retracted cells cellId ast base;
  let refs := extractReferencedCellIds ast base in
  let '(found, cells3) :=
    addToReferenced cellId refs (bool_decide (cellId ∈ refs)) cells2 in
  if found then
    Throw (ThrownErrResult "CIRCULAR_REF" "expected direct circular reference")
  else
    result ← evalAst cells3 ast base cellId;
    let cells4 := committed cells cells3 cellId expr ast result in
    '(updatedCells, st) ←
      updateDependentCells (S (size cells4)) (mkPropState cells4 ∅ []) cellId [];
    Return (Object_assign [(cellId, result)] updatedCells, st).
Proof.
  unfold eval_try, retracted, committed.
  destruct (cells !! cellId) as [c |]; simpl.
  - destruct (cell_ast c); simpl; [| done].
    destruct (removeFromPrevious _ _ _); done.
  - done.
Qed.

Lemma retracted_no_OutOfFuel cells cellId ast base :
  retracted cells cellId ast base ≠ OutOfFuel.
Proof.
  unfold retracted. destruct (cells !! cellId) as [c |]; [| discriminate].
  destruct (cell_ast c); [apply removeFromPrevious_no_OutOfFuel | discriminate].
Qed.

(** Whatever the [try] block throws, [eval] restores the copy of the table
    and answers [CIRCULAR_REF]. *)
Lemma eval_Throw cells cellId expr ast base e :
  parse expr cellId = Some ast → CellRef_parse cellId = Some base →
  eval_try cells cellId expr ast base = Throw e →
  eval cells cellId expr =
    Some (errResult "CIRCULAR_REF" "CIRCULAR_REF",
          json_roundtrip (json_roundtrip cells)).
Proof. intros Hp Hb Ht. unfold eval, eval_traced. by rewrite Hp, Hb, Ht. Qed.

Lemma eval_Return cells cellId expr ast base u st :
  parse expr cellId = Some ast → CellRef_parse cellId = Some base →
  eval_try cells cellId expr ast base = Return (u, st) →
  eval cells cellId expr = Some (okResult u, st_cells st).
Proof. intros Hp Hb Ht. unfold eval, eval_traced. by rewrite Hp, Hb, Ht. Qed.

(** An [eval] that is ok ran its [try] block to the end. *)
Lemma eval_ok_inv cells cellId expr u cells' :
  eval cells cellId expr = Some (okResult u, cells') →
  ∃ ast base st,
    parse expr cellId = Some ast ∧ CellRef_parse cellId = Some base ∧
    eval_try cells cellId expr ast base = Return (u, st) ∧ cells' = st_cells st.
Proof.
  unfold eval, eval_traced.
  destruct (parse expr cellId) as [ast |]; [| discriminate].
  destruct (CellRef_parse cellId) as [base |]; [| discriminate].
  destruct (eval_try cells cellId expr ast base) as [[u' st] | e |] eqn:Ht;
    [| discriminate | discriminate].
  intros [= <- <-]. by exists ast, base, st.
Qed.

Lemma addToReferenced_found cellId refs cells :
  (addToReferenced cellId refs true cells).1 = true.
Proof.
  revert cells. induction refs as [| r rest IH]; intros cells; simpl; [done |].
  case_decide; [done |]. destruct (cells !! r); apply IH.
Qed.

Lemma eval_try_self_reference cells cellId expr ast base :
  cellId ∈ extractReferencedCellIds ast base →
  ∃ e, eval_try cells cellId expr ast base = Throw e.
Proof.
  intros Hin. rewrite eval_try_stages.
  destruct (retracted cells cellId ast base) as [cells2 | e |] eqn:Hr; simpl.
  - rewrite bool_decide_eq_true_2 by done.
    pose proof (addToReferenced_found cellId
                  (extractReferencedCellIds ast base) cells2) as Hf.
    destruct (addToReferenced _ _ _ _) as [found cells3]. simpl in Hf.
    subst found. eauto.
  - eauto.
  - by apply retracted_no_OutOfFuel in Hr.
Qed.

(** ** Unsupported functions *)

Lemma has_nonfunction_App fn (kids : list (Ast CellRef)) :
  has_nonfunction (App fn kids) =
  negb (is_function fn) || existsb has_nonfunction kids.
Proof. reflexivity. Qed.

Lemma has_unsupported_App fn (kids : list (Ast CellRef)) :
  has_unsupported (App fn kids) =
  match FNS fn with
  | Some _ => existsb has_unsupported kids
  | None => true
  end.
Proof. reflexivity. Qed.

(** A tree of keys of [FNS] holds functions only. *)
Lemma has_unsupported_nonfunction node :
  has_unsupported node = false → has_nonfunction node = false.
Proof.
  induction node as [v | r | fn kids IH] using Ast_ind; [done | done |].
  rewrite has_unsupported_App, has_nonfunction_App.
  destruct (FNS fn) as [f |] eqn:Hfn; [| discriminate].
  rewrite (FNS_is_function _ _ Hfn). simpl.
  induction IH as [| k rest Hk _ IHrest]; simpl; [done |].
  intros [Hk' Hrest]%orb_false_iff. by rewrite Hk, IHrest.
Qed.

Lemma evalAst_Return_functions cells node base cellId v :
  evalAst cells node base cellId = Return v → has_nonfunction node = false.
Proof.
  revert v. induction node as [v0 | r | fn kids IH] using Ast_ind; intros v;
    [done | done |].
  rewrite has_nonfunction_App. simpl.
  intros Hrun. apply bind_Return_inv in Hrun as (vs & Hkids & Hfn).
  unfold is_function.
  destruct (FNS_get fn) as [[f |] |]; [| discriminate | discriminate].
  clear Hfn. simpl.
  revert vs Hkids. induction IH as [| k rest Hk _ IHrest]; intros vs; simpl;
    [done |].
  intros Hrun. apply bind_Return_inv in Hrun as (v1 & Hk1 & Hrun).
  apply bind_Return_inv in Hrun as (vs1 & Hrest & _).
  rewrite (Hk _ Hk1). simpl. by eapply IHrest.
Qed.

(** A [TypeError] comes from a member that [FNS] inherits. *)
Lemma evalAst_TypeError cells node base cellId :
  evalAst cells node base cellId = Throw ThrownTypeError →
  calls_inherited node = true.
Proof.
  induction node as [v0 | r | fn kids IH] using Ast_ind; simpl.
  - discriminate.
  - destruct (resolve base r); try destruct (cells !! _); discriminate.
  - destruct (mapM (λ kid, evalAst cells kid base cellId) kids)
      as [vs | e0 |] eqn:Hkids; simpl; [| | discriminate].
    + destruct (FNS_get fn) as [[f |] |] eqn:Hfn; [| discriminate..].
      intros Hf. destruct (FNS_get_outcome fn f vs Hfn) as [_ Hthrow].
      destruct (Hthrow _ Hf) as [_ Hnone].
      unfold is_function. by rewrite Hnone, Hfn.
    + intros [= ->]. apply orb_true_iff. right.
      clear -IH Hkids. revert Hkids.
      induction IH as [| k rest Hk _ IHrest]; simpl; [discriminate |].
      destruct (evalAst cells k base cellId) eqn:Hek; simpl; [| | discriminate].
      * destruct (mapM _ rest); simpl; [discriminate | | discriminate].
        intros [= ->]. rewrite IHrest by done. apply orb_true_r.
      * intros [= ->]. by rewrite Hk.
Qed.

Lemma evalAst_nonfunction cells node base cellId :
  has_nonfunction node = true →
  ∃ e, evalAst cells node base cellId = Throw e ∧
       (unsupported_error e ∨
        (e = ThrownTypeError ∧ calls_inherited node = true)).
Proof.
  intros Hu. destruct (evalAst_outcome cells node base cellId) as [Hfuel Hthrow].
  destruct (evalAst cells node base cellId) as [v | e |] eqn:Hrun.
  - apply evalAst_Return_functions in Hrun. congruence.
  - exists e. split; [done |]. destruct (Hthrow e eq_refl) as [He | ->].
    + by left.
    + right. split; [done |]. by eapply evalAst_TypeError.
  - done.
Qed.

Lemma eval_try_nonfunction cells cellId expr ast base :
  has_nonfunction ast = true →
  ∃ e, eval_try cells cellId expr ast base = Throw e.
Proof.
  intros Hu. rewrite eval_try_stages.
  destruct (retracted cells cellId ast base) as [cells2 | e |] eqn:Hr; simpl.
  - destruct (addToReferenced _ _ _ _) as [[] cells3]; [eauto |].
    destruct (evalAst_nonfunction cells3 ast base cellId Hu) as (e & -> & _).
    simpl. eauto.
  - eauto.
  - by apply retracted_no_OutOfFuel in Hr.
Qed.

(** ** The edge updates of [eval] *)

Lemma Set_add_idemp x ids : Set_add x (Set_add x ids) = Set_add x ids.
Proof.
  unfold Set_add. destruct (decide (x ∈ ids)) as [Hin | Hnin].
  - by rewrite decide_True.
  - rewrite decide_True; [done |]. apply elem_of_app. right. by left.
Qed.

Lemma referenced_record_idemp cellId k (o : option (CellInfo CellRef)) :
  referenced_record cellId k (Some (referenced_record cellId k o)) =
  referenced_record cellId k o.
Proof.
  destruct o as [[i e a v [ids |]] |]; unfold referenced_record, set_dependents;
    simpl; try by rewrite Set_add_idemp.
  unfold Set_add. simpl. rewrite decide_True; [done | by left].
Qed.

Lemma addToReferenced_step cellId r rest b cells :
  r ≠ cellId →
  addToReferenced cellId (r :: rest) b cells =
  addToReferenced cellId rest b
    (<[r := referenced_record cellId r (cells !! r)]> cells).
Proof.
  intros Hr. simpl. rewrite decide_False by done.
  destruct (cells !! r) as [c |]; simpl; [| done].
  by destruct (cell_dependents c).
Qed.

(** Without a self reference the loop runs to its end, and the table it
    leaves is known key by key. *)
Lemma addToReferenced_lookup cellId refs b cells :
  cellId ∉ refs →
  (addToReferenced cellId refs b cells).1 = b ∧
  ∀ k, (addToReferenced cellId refs b cells).2 !! k =
       if decide (k ∈ refs) then Some (referenced_record cellId k (cells !! k))
       else cells !! k.
Proof.
  revert cells. induction refs as [| r rest IH]; intros cells Hnin.
  - split; [done |]. intros k. rewrite decide_False; [done | set_solver].
  - assert (r ≠ cellId) as Hr by set_solver.
    assert (cellId ∉ rest) as Hrest by set_solver.
    rewrite addToReferenced_step by done.
    destruct (IH (<[r := referenced_record cellId r (cells !! r)]> cells) Hrest)
      as [Hb Hk].
    split; [done |]. intros k. rewrite Hk.
    destruct (decide (k = r)) as [-> | Hne].
    + rewrite lookup_insert_eq, referenced_record_idemp.
      rewrite (decide_True (P := r ∈ r :: rest)) by set_solver.
      by destruct (decide (r ∈ rest)).
    + rewrite lookup_insert_ne by done.
      destruct (decide (k ∈ rest)).
      * rewrite decide_True; [done | set_solver].
      * rewrite decide_False; [done | set_solver].
Qed.

(** With a self reference the loop reports it. *)
Lemma addToReferenced_self cellId refs b cells :
  cellId ∈ refs → (addToReferenced cellId refs b cells).1 = true.
Proof.
  revert cells. induction refs as [| r rest IH]; intros cells Hin;
    [by apply elem_of_nil in Hin |].
  simpl. case_decide as Hr; [done |].
  assert (cellId ∈ rest) by set_solver.
  destruct (cells !! r); by apply IH.
Qed.

Lemma dependents_only_refl cells : dependents_only cells cells.
Proof. intros k. by destruct (cells !! k) as [[] |]. Qed.

Lemma dependents_only_trans cells1 cells2 cells3 :
  dependents_only cells1 cells2 → dependents_only cells2 cells3 →
  dependents_only cells1 cells3.
Proof.
  intros H12 H23 k. specialize (H12 k). specialize (H23 k).
  destruct (cells1 !! k), (cells2 !! k), (cells3 !! k); try done.
  rewrite H23, H12. done.
Qed.

Lemma removeFromPrevious_dependents_only cellId prev cells cells' :
  removeFromPrevious cellId prev cells = Return cells' →
  dependents_only cells cells'.
Proof.
  revert cells. induction prev as [| p rest IH]; intros cells; simpl.
  - intros [= <-]. apply dependents_only_refl.
  - destruct (cells !! p) as [c |] eqn:Hp; [| apply IH].
    destruct (cell_dependents c) as [ids |]; [| discriminate].
    intros Hrun. apply IH in Hrun.
    eapply dependents_only_trans; [| exact Hrun].
    intros k. destruct (decide (k = p)) as [-> | Hne].
    + rewrite Hp, lookup_insert_eq. by destruct c.
    + rewrite lookup_insert_ne by done. by destruct (cells !! k) as [[] |].
Qed.

Lemma retracted_dependents_only cells cellId ast base cells2 :
  retracted cells cellId ast base = Return cells2 →
  dependents_only
    (match cells !! cellId with
     | Some _ => alter (set_ast (Some ast)) cellId cells
     | None => cells
     end) cells2.
Proof.
  unfold retracted. intros Hrun.
  destruct (cells !! cellId) as [c |];
    [| injection Hrun as <-; apply dependents_only_refl].
  destruct (cell_ast c).
  - by eapply removeFromPrevious_dependents_only.
  - injection Hrun as <-. apply dependents_only_refl.
Qed.

Lemma retracted_lookup_ne cells cellId ast base cells2 k :
  retracted cells cellId ast base = Return cells2 → k ≠ cellId →
  match cells !! k, cells2 !! k with
  | Some c, Some c' => c' = set_dependents (cell_dependents c') c
  | None, None => True
  | _, _ => False
  end.
Proof.
  intros Hrun Hne. apply retracted_dependents_only in Hrun. specialize (Hrun k).
  destruct (cells !! cellId); [rewrite lookup_alter_ne in Hrun by done |]; done.
Qed.

Lemma retracted_lookup_eq cells cellId ast base cells2 :
  retracted cells cellId ast base = Return cells2 →
  match cells !! cellId, cells2 !! cellId with
  | Some c, Some c' =>
      c' = set_dependents (cell_dependents c') (set_ast (Some ast) c)
  | None, None => True
  | _, _ => False
  end.
Proof.
  intros Hrun. apply retracted_dependents_only in Hrun. specialize (Hrun cellId).
  destruct (cells !! cellId) as [c |] eqn:Hc.
  - by rewrite lookup_alter_eq, Hc in Hrun.
  - by rewrite Hc in Hrun.
Qed.

(** ** An [eval] that is ok, stage by stage *)

Lemma eval_try_Return_inv cells cellId expr ast base u st :
  eval_try cells cellId expr ast base = Return (u, st) →
  ∃ cells2 result updatedCells,
    retracted cells cellId ast base = Return cells2 ∧
    (cellId ∉ extractReferencedCellIds ast base) ∧
    evalAst
      (addToReferenced cellId (extractReferencedCellIds ast base) false cells2).2
      ast base cellId = Return result ∧
    updateDependentCells
      (S (size (committed cells
                  (addToReferenced cellId (extractReferencedCellIds ast base)
                     false cells2).2 cellId expr ast result)))
      (mkPropState
         (committed cells
            (addToReferenced cellId (extractReferencedCellIds ast base)
               false cells2).2 cellId expr ast result) ∅ [])
      cellId [] = Return (updatedCells, st) ∧
    u = Object_assign [(cellId, result)] updatedCells.
Proof.
  rewrite eval_try_stages. intros Hrun.
  apply bind_Return_inv in Hrun as (cells2 & Hr & Hrun).
  cbv zeta in Hrun.
  destruct (decide (cellId ∈ extractReferencedCellIds ast base)) as [Hin | Hnin].
  { pose proof (addToReferenced_self cellId _
                  (bool_decide (cellId ∈ extractReferencedCellIds ast base))
                  cells2 Hin) as Hf.
    destruct (addToReferenced _ _ _ _) as [found cells3].
    simpl in Hf. subst found. discriminate. }
  rewrite bool_decide_eq_false_2 in Hrun by done.
  pose proof (addToReferenced_lookup cellId _ false cells2 Hnin) as [Hf _].
  exists cells2.
  destruct (addToReferenced _ _ _ _) as [found cells3].
  cbn [fst snd] in *. subst found.
  apply bind_Return_inv in Hrun as (result & Hev & Hrun).
  apply bind_Return_inv in Hrun as ([updatedCells st'] & Hup & Hrun).
  injection Hrun as <- <-.
  by exists result, updatedCells.
Qed.

Lemma committed_lookup_ne cells0 cells cellId expr ast result k :
  k ≠ cellId → committed cells0 cells cellId expr ast result !! k = cells !! k.
Proof.
  intros Hne. unfold committed. destruct (cells0 !! cellId).
  - by rewrite lookup_alter_ne.
  - by rewrite lookup_insert_ne.
Qed.

(** The table before propagation, at a key that is not the edited one. *)
Lemma before_propagation_lookup cells cells2 cellId expr ast base result k :
  retracted cells cellId ast base = Return cells2 →
  cellId ∉ extractReferencedCellIds ast base → k ≠ cellId →
  committed cells
    (addToReferenced cellId (extractReferencedCellIds ast base) false cells2).2
    cellId expr ast result !! k =
  if decide (k ∈ extractReferencedCellIds ast base)
  then Some (referenced_record cellId k (cells2 !! k))
  else cells2 !! k.
Proof.
  intros Hr Hnin Hne. rewrite committed_lookup_ne by done.
  by destruct (addToReferenced_lookup cellId _ false cells2 Hnin) as [_ ->].
Qed.

(** The record of the edited cell before propagation: it has the new AST
    and the value of the formula. *)
Lemma before_propagation_lookup_eq cells cells2 cellId expr ast base result :
  retracted cells cellId ast base = Return cells2 →
  cellId ∉ extractReferencedCellIds ast base →
  ∃ c, committed cells
         (addToReferenced cellId (extractReferencedCellIds ast base) false cells2).2
         cellId expr ast result !! cellId = Some c ∧
       cell_ast c = Some ast ∧ cell_value c = result.
Proof.
  intros Hr Hnin. pose proof (retracted_lookup_eq _ _ _ _ _ Hr) as Heq.
  unfold committed.
  destruct (addToReferenced_lookup cellId _ false cells2 Hnin) as [_ Hk].
  destruct (cells !! cellId) as [c |].
  - rewrite lookup_alter_eq, Hk, decide_False by done.
    destruct (cells2 !! cellId) as [c2 |]; [| done].
    eexists. split; [done |]. rewrite Heq. done.
  - rewrite lookup_insert_eq. eauto.
Qed.

(** ** Self reference (C3) *)

(** C3. A formula whose direct reference set contains the edited cell makes
    [eval] fail with code [CIRCULAR_REF], whatever the table: the call
    answers the error result and leaves the restored copy of the table. *)
Theorem self_reference_rejected cells cellId expr ast base :
  parse expr cellId = Some ast →
  CellRef_parse cellId = Some base →
  cellId ∈ extractReferencedCellIds ast base →
  eval cells cellId expr =
    Some (errResult "CIRCULAR_REF" "CIRCULAR_REF",
          json_roundtrip (json_roundtrip cells)).
Proof.
  intros Hp Hb Hin.
  destruct (eval_try_self_reference cells cellId expr ast base Hin) as [e He].
  by eapply eval_Throw.
Qed.

(** ** Placeholders (C6) *)

(** C6, amended. When an edit that is ok references an id that has no
    record, the table has a placeholder at that id afterwards: formula text
    ["0"], no AST, value 0, and the edited cell as its one dependent. *)
Theorem placeholder_created cells cellId expr ast base u cells' rid :
  parse expr cellId = Some ast →
  CellRef_parse cellId = Some base →
  eval cells cellId expr = Some (okResult u, cells') →
  rid ∈ extractReferencedCellIds ast base →
  cells !! rid = None →
  cells' !! rid = Some (mkCellInfo rid "0" None (JNum 0) (DepSet [cellId])).
Proof.
  intros Hp Hb Hev Hin Hnone.
  apply eval_ok_inv in Hev as (ast' & base' & st & Hp' & Hb' & Hrun & ->).
  simplify_eq.
  apply eval_try_Return_inv in Hrun
    as (cells2 & result & upd & Hr & Hnin & _ & Hup & _).
  assert (rid ≠ cellId) as Hne by (intros ->; done).
  apply updateDependentCells_values_only in Hup. specialize (Hup rid).
  simpl in Hup.
  rewrite (before_propagation_lookup _ _ _ _ _ _ _ _ Hr Hnin Hne) in Hup.
  rewrite decide_True in Hup by done.
  pose proof (retracted_lookup_ne _ _ _ _ _ rid Hr Hne) as H2.
  rewrite Hnone in H2. destruct (cells2 !! rid); [done |]. simpl in Hup.
  destruct (st_cells st !! rid) as [c' |]; [| done].
  destruct Hup as [_ ->]; done.
Qed.

(** ** Unsupported functions (C7) *)

(** C7, amended. [evalAst] on a tree that names a function which [FNS]
    neither holds nor inherits throws: the [Error] "Unsupported function:
    ..." or, when the tree also calls a member that [FNS] inherits from
    [Object.prototype], possibly the [TypeError] of that call. Neither is an
    error result; [eval] catches it like every other exception, restores the
    copy of the table and answers the typed result [CIRCULAR_REF]. *)
Theorem unsupported_function_reported_as_circular cells cellId expr ast base :
  parse expr cellId = Some ast →
  CellRef_parse cellId = Some base →
  has_nonfunction ast = true →
  (∀ cells0 cellId0, ∃ e,
      evalAst cells0 ast base cellId0 = Throw e ∧
      ((∃ fn, is_function fn = false ∧
              e = ThrownError ("Unsupported function: " +:+ fn)) ∨
       (e = ThrownTypeError ∧ calls_inherited ast = true))) ∧
  eval cells cellId expr =
    Some (errResult "CIRCULAR_REF" "CIRCULAR_REF",
          json_roundtrip (json_roundtrip cells)).
Proof.
  intros Hp Hb Hu. split.
  - intros cells0 cellId0.
    destruct (evalAst_nonfunction cells0 ast base cellId0 Hu) as (e & He & Hk).
    exists e. split; [done |]. destruct Hk as [(fn & Hfn & ->) | [-> Hi]].
    + left. by exists fn.
    + by right.
  - destruct (eval_try_nonfunction cells cellId expr ast base Hu) as [e He].
    by eapply eval_Throw.
Qed.

(** ** Cells without a formula read as zero (C8) *)

Lemma json_roundtrip_unassigned_zero cells :
  unassigned_zero cells → unassigned_zero (json_roundtrip cells).
Proof.
  intros Hz k c'. unfold json_roundtrip. rewrite lookup_fmap.
  destruct (cells !! k) as [c |] eqn:Hk; simpl; [| discriminate].
  intros [= <-]. simpl. intros Hast.
  destruct (cell_ast c) eqn:Ha; [discriminate |].
  by rewrite (Hz k c Hk Ha).
Qed.

Lemma eval_try_unassigned_zero cells cellId expr ast base u st :
  unassigned_zero cells →
  eval_try cells cellId expr ast base = Return (u, st) →
  unassigned_zero (st_cells st).
Proof.
  intros Hz Hrun k c' Hk' Hast'.
  apply eval_try_Return_inv in Hrun
    as (cells2 & result & upd & Hr & Hnin & _ & Hup & _).
  apply updateDependentCells_values_only in Hup. specialize (Hup k).
  simpl in Hup. rewrite Hk' in Hup.
  destruct (decide (k = cellId)) as [-> | Hne].
  - destruct (before_propagation_lookup_eq cells cells2 cellId expr ast base
                result Hr Hnin) as (c4 & Hc4 & Ha4 & _).
    rewrite Hc4 in Hup. destruct Hup as [Hc' _].
    rewrite Hc' in Hast'. simpl in Hast'. congruence.
  - rewrite (before_propagation_lookup _ _ _ _ _ _ result _ Hr Hnin Hne) in Hup.
    pose proof (retracted_lookup_ne _ _ _ _ _ k Hr Hne) as H2.
    assert (∀ c4, (if decide (k ∈ extractReferencedCellIds ast base)
                   then Some (referenced_record cellId k (cells2 !! k))
                   else cells2 !! k) = Some c4 →
                  cell_ast c4 = None → cell_value c4 = JNum 0) as H4.
    { intros c4 Hc4 Ha4.
      destruct (cells !! k) as [c |] eqn:Hk, (cells2 !! k) as [c2 |];
        try done.
      - assert (cell_ast c4 = cell_ast c ∧ cell_value c4 = cell_value c)
          as [Ea Ev].
        { case_decide; injection Hc4 as <-; rewrite H2; done. }
        rewrite Ev. apply (Hz k c Hk). congruence.
      - case_decide; [injection Hc4 as <-; done | done]. }
    destruct (if decide (k ∈ extractReferencedCellIds ast base)
              then Some (referenced_record cellId k (cells2 !! k))
              else cells2 !! k) as [c4 |]; [| done].
    destruct Hup as [Hc' Hnone].
    assert (cell_ast c4 = None) as Ha4 by (rewrite Hc' in Hast'; done).
    rewrite (Hnone Ha4). by apply H4.
Qed.

Lemma eval_unassigned_zero cells cellId expr r cells' :
  unassigned_zero cells → eval cells cellId expr = Some (r, cells') →
  unassigned_zero cells'.
Proof.
  intros Hz. unfold eval, eval_traced.
  destruct (parse expr cellId) as [ast |]; [| by intros [= _ <-]].
  destruct (CellRef_parse cellId) as [base |]; [| by intros [= _ <-]].
  destruct (eval_try cells cellId expr ast base) as [[u st] | e |] eqn:Hrun;
    [| | discriminate]; intros [= _ <-].
  - by eapply eval_try_unassigned_zero.
  - by do 2 apply json_roundtrip_unassigned_zero.
Qed.

Lemma reachable_unassigned_zero cells : reachable cells → unassigned_zero cells.
Proof.
  induction 1 as [| cells cellId expr r cells' _ IH Hev].
  - intros k c Hk. by rewrite lookup_empty in Hk.
  - by eapply eval_unassigned_zero.
Qed.

Lemma evalAst_zero_unassigned cells ast base cellId :
  unassigned_zero cells →
  evalAst cells (zero_unassigned cells base ast) base cellId =
  evalAst cells ast base cellId.
Proof.
  intros Hz. induction ast as [v | r | fn kids IH] using Ast_ind; simpl.
  - done.
  - destruct (resolve base r) as [k |] eqn:Hres; simpl; [| by rewrite Hres].
    unfold unassigned. destruct (cells !! k) as [c |] eqn:Hk; simpl.
    + destruct (cell_ast c) eqn:Ha; simpl; [by rewrite Hres, Hk |].
      by rewrite (Hz k c Hk Ha).
    + done.
  - rewrite mapM_map. by rewrite (mapM_ext _ _ _ IH).
Qed.

(** C8. A reference that resolves to an id without a record evaluates to 0;
    and in every table that [eval] can build, a formula evaluates to the
    same result as the formula with the literal 0 in place of each
    reference to a cell that was never assigned a formula. *)
Theorem empty_cell_reads_as_zero cells :
  (∀ base r refCellId cellId,
      resolve base r = Some refCellId → cells !! refCellId = None →
      evalAst cells (Ref r) base cellId = Return (JNum 0)) ∧
  (reachable cells →
   ∀ ast base cellId,
      evalAst cells (zero_unassigned cells base ast) base cellId =
      evalAst cells ast base cellId).
Proof.
  split.
  - intros base r refCellId cellId Hres Hnone. simpl. by rewrite Hres, Hnone.
  - intros Hreach ast base cellId. apply evalAst_zero_unassigned.
    by apply reachable_unassigned_zero.
Qed.

(** ** References that do not resolve (C10) *)

Lemma extractReferencedCellIds_App fn kids base :
  extractReferencedCellIds (App fn kids) base =
  concat (map (λ kid, extractReferencedCellIds kid base) kids).
Proof.
  simpl. induction kids as [| k rest IH]; simpl; [done |]. by rewrite IH.
Qed.

Lemma extract_zero_unresolved base ast :
  extractReferencedCellIds (zero_unresolved base ast) base =
  extractReferencedCellIds ast base.
Proof.
  induction ast as [v | r | fn kids IH] using Ast_ind.
  - done.
  - simpl. destruct (resolve base r) eqn:Hres; simpl; [by rewrite Hres | done].
  - change (zero_unresolved base (App fn kids))
      with (App fn (map (zero_unresolved base) kids)).
    rewrite !extractReferencedCellIds_App. f_equal.
    rewrite map_map. induction IH as [| k rest Hk _ IHrest]; simpl; [done |].
    by rewrite Hk, IHrest.
Qed.

Lemma evalAst_zero_unresolved cells ast base cellId :
  evalAst cells (zero_unresolved base ast) base cellId =
  evalAst cells ast base cellId.
Proof.
  induction ast as [v | r | fn kids IH] using Ast_ind; simpl.
  - done.
  - destruct (resolve base r) eqn:Hres; simpl; [by rewrite Hres | done].
  - rewrite mapM_map. by rewrite (mapM_ext _ _ _ IH).
Qed.

(** Two runs of [eval] on one cell with two trees that evaluate alike and
    reference the same cells: the tables stay equal but for the tree (and
    the text) stored at the edited cell. *)
Section Twin.
Variables (edited : string) (ast ast' : Ast CellRef) (base : CellRef).
Hypothesis Hbase : CellRef_parse edited = Some base.
Hypothesis Heval : ∀ cells cellId,
  evalAst cells ast' base cellId = evalAst cells ast base cellId.
Hypothesis Hrefs :
  extractReferencedCellIds ast' base = extractReferencedCellIds ast base.

Local Abbreviation twin_cell := (twin_cell_of ast ast').
Local Abbreviation twin := (twin_of edited ast ast').
Local Abbreviation twin_state := (twin_state_of edited ast ast').
Local Abbreviation twin_result := (twin_result_of edited ast ast').

Lemma twin_exec_bind {A B : Type} (rel : A → A → Prop) (rel' : B → B → Prop)
    (m m' : Exec A) (k k' : A → Exec B) :
  twin_exec rel m m' →
  (∀ a a', rel a a' → twin_exec rel' (k a) (k' a')) →
  twin_exec rel' (m ≫= k) (m' ≫= k').
Proof. destruct m, m'; simpl; try done. intros Hr Hk. by apply Hk. Qed.

Lemma twin_values cells cells' k :
  twin cells cells' → cell_value <$> cells !! k = cell_value <$> cells' !! k.
Proof.
  intros [Hne Heq]. destruct (decide (k = edited)) as [-> | Hk].
  - destruct (cells !! edited), (cells' !! edited); try done.
    simpl. destruct Heq as (_ & -> & _). done.
  - by rewrite (Hne k Hk).
Qed.

Lemma twin_size cells cells' : twin cells cells' → size cells = size cells'.
Proof.
  intros [Hne Heq]. rewrite <- !size_dom. f_equal. apply set_eq. intros k.
  rewrite !elem_of_dom. destruct (decide (k = edited)) as [-> | Hk].
  - destruct (cells !! edited), (cells' !! edited); try done;
      split; try (intros [? [=]]); eauto.
  - by rewrite (Hne k Hk).
Qed.

(** An update of the same key by functions that keep twins twins. *)
Lemma twin_alter (f : CellInfo CellRef → CellInfo CellRef) cells cells' k :
  (∀ c c', twin_cell c c' → twin_cell (f c) (f c')) →
  twin cells cells' → twin (alter f k cells) (alter f k cells').
Proof.
  intros Hf [Hne Heq]. split.
  - intros j Hj. rewrite !lookup_alter.
    case_decide; [subst k |]; by rewrite (Hne j Hj).
  - rewrite !lookup_alter. case_decide as Hk; [subst k |]; [| done].
    destruct (cells !! edited), (cells' !! edited); simpl; try done.
    by apply Hf.
Qed.

Lemma twin_insert cells cells' k c c' :
  (k ≠ edited → c' = c) → (k = edited → twin_cell c c') →
  twin cells cells' → twin (<[k := c]> cells) (<[k := c']> cells').
Proof.
  intros Hk Hed [Hne Heq]. split.
  - intros j Hj. rewrite !lookup_insert.
    case_decide; [subst k; by rewrite Hk | by apply Hne].
  - rewrite !lookup_insert. case_decide; [subst k; by apply Hed | done].
Qed.

Lemma twin_lookup_dependents cells cells' k :
  twin cells cells' →
  match cells !! k, cells' !! k with
  | Some c, Some c' =>
      cell_dependents c' = cell_dependents c ∧
      (k ≠ edited → c' = c) ∧ (k = edited → twin_cell c c')
  | None, None => True
  | _, _ => False
  end.
Proof.
  intros [Hne Heq]. destruct (decide (k = edited)) as [-> | Hk].
  - destruct (cells !! edited), (cells' !! edited); try done.
    split; [apply Heq | done].
  - rewrite <- (Hne k Hk). destruct (cells !! k); done.
Qed.

Lemma removeFromPrevious_twin cellId prev cells cells' :
  twin cells cells' →
  twin_exec twin (removeFromPrevious cellId prev cells)
                 (removeFromPrevious cellId prev cells').
Proof.
  revert cells cells'. induction prev as [| p rest IH]; intros cells cells' Ht;
    simpl; [done |].
  pose proof (twin_lookup_dependents _ _ p Ht) as Hp.
  destruct (cells !! p) as [c |] eqn:Hc, (cells' !! p) as [c' |] eqn:Hc';
    try done; [| by apply IH].
  destruct Hp as (Hd & Hsame & Htw). rewrite Hd.
  destruct (cell_dependents c) as [ids |] eqn:Hdc; [| done].
  apply IH. apply twin_insert; [| | done].
  - intros Hne. by rewrite (Hsame Hne).
  - intros He. destruct (Htw He) as (? & ? & ? & ? & ?). by repeat split.
Qed.

Lemma addToReferenced_twin refs b cells cells' :
  twin cells cells' →
  (addToReferenced edited refs b cells).1 =
  (addToReferenced edited refs b cells').1 ∧
  twin (addToReferenced edited refs b cells).2
       (addToReferenced edited refs b cells').2.
Proof.
  revert cells cells'. induction refs as [| r rest IH]; intros cells cells' Ht;
    simpl; [done |].
  case_decide as Hr; [done |].
  destruct Ht as [Hne Heq]. rewrite <- (Hne r Hr).
  destruct (cells !! r) as [c |]; apply IH;
    (apply twin_insert; [done | done | by split]).
Qed.

Lemma evalAst_twin cells cells' node b cellId :
  twin cells cells' →
  evalAst cells node b cellId = evalAst cells' node b cellId.
Proof. intros Ht. apply evalAst_values. intros k. by apply twin_values. Qed.

Lemma twin_state_processed_add cellId st st' :
  twin_state st st' →
  twin_state (processed_add cellId st) (processed_add cellId st').
Proof.
  intros (Hc & Hp & Hr). split; [exact Hc |].
  split; simpl; [by rewrite Hp | done].
Qed.

Lemma twin_state_store_value d v st st' :
  twin_state st st' → twin_state (store_value d v st) (store_value d v st').
Proof.
  intros (Hc & Hp & Hr). split; [| split]; simpl; [| done | by rewrite Hr].
  apply twin_alter; [| done].
  intros c c' (? & ? & ? & ? & ?). by repeat split.
Qed.

Lemma dependentsLoop_twin recurse recurse' cellId path :
  (∀ st st' d p, twin_state st st' →
     twin_exec twin_result (recurse st d p) (recurse' st' d p)) →
  ∀ ids updates st st', twin_state st st' →
    twin_exec twin_result
      (dependentsLoop recurse cellId path ids updates st)
      (dependentsLoop recurse' cellId path ids updates st').
Proof.
  intros Hrec ids. induction ids as [| d rest IH]; intros updates st st' Hst;
    simpl; [done |].
  pose proof (twin_lookup_dependents _ _ d (proj1 Hst)) as Hd.
  destruct (st_cells st !! d) as [c |], (st_cells st' !! d) as [c' |];
    try done; [| by apply IH].
  destruct Hd as (_ & Hsame & Htw).
  assert ((∃ a a', cell_ast c = Some a ∧ cell_ast c' = Some a' ∧
             ∀ dref cells, CellRef_parse d = Some dref →
               evalAst cells a' dref d = evalAst cells a dref d)
          ∨ (cell_ast c = None ∧ cell_ast c' = None)) as Hast.
  { destruct (decide (d = edited)) as [-> | Hne].
    - destruct (Htw eq_refl) as (_ & _ & _ & Ha & Ha'). left.
      exists ast, ast'. split; [done |]. split; [done |].
      intros dref cells Hd. rewrite Hbase in Hd. injection Hd as <-.
      apply Heval.
    - rewrite (Hsame Hne). destruct (cell_ast c) as [a |]; [left | by right].
      by exists a, a. }
  destruct Hast as [(a & a' & -> & -> & Hev) | [-> ->]]; [| by apply IH].
  case_decide; [done |].
  destruct (CellRef_parse d) as [dref |] eqn:Hdref; [| done].
  rewrite (Hev dref _ eq_refl).
  rewrite <- (evalAst_twin (st_cells st) (st_cells st') a dref d)
    by apply Hst.
  destruct (evalAst (st_cells st) a dref d) as [v | e |]; simpl;
    [| done | done].
  pose proof (Hrec _ _ d (path ++ [cellId])%list
                (twin_state_store_value d v _ _
                   (twin_state_processed_add cellId _ _ Hst))) as Hr.
  destruct (recurse _ d _) as [[ru st2] | e |],
           (recurse' _ d _) as [[ru' st2'] | e' |]; simpl; try done.
  destruct Hr as [Hu Hst2]. simpl in Hu, Hst2. subst ru'. by apply IH.
Qed.

Lemma updateDependentCells_twin fuel st st' cellId path :
  twin_state st st' →
  twin_exec twin_result (updateDependentCells fuel st cellId path)
                        (updateDependentCells fuel st' cellId path).
Proof.
  revert st st' cellId path.
  induction fuel as [| fuel IH]; intros st st' cellId path Hst; [done |].
  rewrite !updateDependentCells_S.
  pose proof (twin_lookup_dependents _ _ cellId (proj1 Hst)) as Hd.
  destruct (st_cells st !! cellId) as [c |], (st_cells st' !! cellId) as [c' |];
    try done.
  destruct Hd as (Hdeps & Hsame & Htw).
  assert (is_Some (cell_ast c) ↔ is_Some (cell_ast c')) as Hast.
  { destruct (decide (cellId = edited)) as [He | Hne].
    - destruct (Htw He) as (_ & _ & _ & -> & ->). split; eauto.
    - by rewrite (Hsame Hne). }
  destruct (cell_ast c), (cell_ast c'); try done;
    [| destruct Hast as [H1 H2]; by destruct (H1 ltac:(eauto))
     | destruct Hast as [H1 H2]; by destruct (H2 ltac:(eauto))].
  destruct Hst as (Hc & Hp & Hr). rewrite <- Hp.
  case_decide; [done |]. rewrite Hdeps.
  apply dependentsLoop_twin; [exact IH | done].
Qed.

Lemma retracted_twin cells :
  twin_exec twin (retracted cells edited ast base)
                 (retracted cells edited ast' base).
Proof.
  unfold retracted. destruct (cells !! edited) as [c |] eqn:Hc.
  - assert (twin (alter (set_ast (Some ast)) edited cells)
                 (alter (set_ast (Some ast')) edited cells)) as Ht.
    { split.
      - intros k Hk. by rewrite !lookup_alter_ne.
      - rewrite !lookup_alter_eq, Hc. simpl. by repeat split. }
    destruct (cell_ast c); [by apply removeFromPrevious_twin | done].
  - simpl. split; [done | by rewrite Hc].
Qed.

Lemma committed_twin cells0 cells cells' expr expr' result :
  twin cells cells' →
  twin (committed cells0 cells edited expr ast result)
       (committed cells0 cells' edited expr' ast' result).
Proof.
  intros Ht. unfold committed. destruct (cells0 !! edited).
  - apply twin_alter; [| done]. intros c1 c2 (? & ? & ? & ? & ?).
    by repeat split.
  - apply twin_insert; [done | | done]. intros _. by repeat split.
Qed.

Lemma eval_try_twin cells expr expr' :
  twin_exec twin_result (eval_try cells edited expr ast base)
                        (eval_try cells edited expr' ast' base).
Proof.
  rewrite !eval_try_stages. pose proof (retracted_twin cells) as Hr.
  destruct (retracted cells edited ast base) as [cells2 | e |],
           (retracted cells edited ast' base) as [cells2' | e' |];
    try done.
  cbv zeta. simpl. rewrite Hrefs.
  destruct (addToReferenced_twin (extractReferencedCellIds ast base)
              (bool_decide (edited ∈ extractReferencedCellIds ast base))
              cells2 cells2' Hr) as [Hfound H3].
  destruct (addToReferenced edited _ _ cells2) as [found cells3],
           (addToReferenced edited _ _ cells2') as [found' cells3'].
  simpl in Hfound, H3. subst found'. destruct found; [done |].
  rewrite Heval, <- (evalAst_twin cells3 cells3' ast base edited H3).
  destruct (evalAst cells3 ast base edited) as [result | e |]; simpl;
    [| done | done].
  pose proof (committed_twin cells cells3 cells3' expr expr' result H3) as H4.
  rewrite <- (twin_size _ _ H4).
  apply (twin_exec_bind twin_result).
  - by apply updateDependentCells_twin.
  - intros [u st] [u' st'] [Hu Hst]. simpl in Hu, Hst. subst u'. by split.
Qed.

End Twin.

(** The two runs answer alike. *)
Lemma eval_twin cells cellId expr expr' ast ast' base :
  parse expr cellId = Some ast → parse expr' cellId = Some ast' →
  CellRef_parse cellId = Some base →
  (∀ cells0 cellId0,
     evalAst cells0 ast' base cellId0 = evalAst cells0 ast base cellId0) →
  extractReferencedCellIds ast' base = extractReferencedCellIds ast base →
  fst <$> eval cells cellId expr' = fst <$> eval cells cellId expr.
Proof.
  intros Hp Hp' Hb Hev Hrefs.
  pose proof (eval_try_twin cellId ast ast' base Hb Hev Hrefs cells expr expr')
    as Ht.
  unfold eval, eval_traced. rewrite Hp, Hp', Hb.
  destruct (eval_try cells cellId expr ast base) as [[u st] | e |],
           (eval_try cells cellId expr' ast' base) as [[u' st'] | e' |];
    try done.
  destruct Ht as [Hu _]. simpl in Hu. by subst u'.
Qed.

(** C10. A reference that does not resolve against the base cell is no
    error. It adds nothing to the extracted reference set and evaluates to
    0: the formula has the references and the value of the formula with the
    literal 0 in its place. An edit whose formula is such a reference, on a
    cell without a record, is ok with value 0 and creates no edge; and any
    edit answers as the edit with the literal 0 in place of the reference
    does. *)
Theorem unresolved_reference_reads_zero cells cellId expr ast base :
  parse expr cellId = Some ast →
  CellRef_parse cellId = Some base →
  extractReferencedCellIds (zero_unresolved base ast) base =
    extractReferencedCellIds ast base ∧
  (∀ cells0 cellId0,
      evalAst cells0 (zero_unresolved base ast) base cellId0 =
      evalAst cells0 ast base cellId0) ∧
  (∀ r, ast = Ref r → resolve base r = None → cells !! cellId = None →
      extractReferencedCellIds ast base = [] ∧
      eval cells cellId expr =
        Some (okResult [(cellId, JNum 0)],
              <[cellId := mkCellInfo cellId expr (Some (Ref r)) (JNum 0)
                            (DepSet [])]> cells)) ∧
  (∀ expr', parse expr' cellId = Some (zero_unresolved base ast) →
      fst <$> eval cells cellId expr' = fst <$> eval cells cellId expr).
Proof.
  intros Hp Hb. split; [apply extract_zero_unresolved |].
  split; [intros; apply evalAst_zero_unresolved |]. split.
  - intros r -> Hres Hnone. split; [simpl; by rewrite Hres |].
    unfold eval, eval_traced. rewrite Hp, Hb.
    rewrite eval_try_stages. unfold retracted, committed. rewrite Hnone.
    simpl. rewrite Hres. simpl.
    rewrite updateDependentCells_S. simpl. rewrite lookup_insert_eq. simpl.
    rewrite decide_False by set_solver. done.
  - intros expr' Hp'. eapply eval_twin; try done.
    + intros. apply evalAst_zero_unresolved.
    + apply extract_zero_unresolved.
Qed.

(** ** Edge symmetry is kept by every edit that is ok *)

Lemma elem_of_Set_add y x ids : y ∈ Set_add x ids ↔ y = x ∨ y ∈ ids.
Proof.
  unfold Set_add. case_decide as Hin.
  - split; [auto |]. intros [-> | ?]; done.
  - rewrite elem_of_app, list_elem_of_singleton. tauto.
Qed.

Lemma elem_of_Set_delete y x ids : y ∈ Set_delete x ids ↔ y ≠ x ∧ y ∈ ids.
Proof. unfold Set_delete. by rewrite list_elem_of_filter. Qed.

Lemma Set_delete_idemp x ids :
  Set_delete x (Set_delete x ids) = Set_delete x ids.
Proof.
  unfold Set_delete. induction ids as [| y rest IH]; [done |].
  rewrite (filter_cons _ y rest). case_decide as Hy.
  - rewrite (filter_cons _ y). rewrite decide_True by done. by rewrite IH.
  - done.
Qed.

Lemma retracted_record_idemp cellId (c : CellInfo CellRef) :
  retracted_record cellId (retracted_record cellId c) = retracted_record cellId c.
Proof. unfold retracted_record. simpl. by rewrite Set_delete_idemp. Qed.

(** A retraction that does not throw leaves a table that is known key by
    key. *)
Lemma removeFromPrevious_lookup cellId prev cells cells' :
  removeFromPrevious cellId prev cells = Return cells' →
  ∀ k, cells' !! k =
       (λ c, if decide (k ∈ prev) then retracted_record cellId c else c)
         <$> cells !! k.
Proof.
  revert cells. induction prev as [| p rest IH]; intros cells; simpl.
  - intros [= <-] k. by destruct (cells !! k).
  - destruct (cells !! p) as [c |] eqn:Hp.
    + destruct (cell_dependents c) as [ids |] eqn:Hd; [| discriminate].
      intros Hrun k. rewrite (IH _ Hrun k).
      assert (set_dependents (DepSet (Set_delete cellId ids)) c
              = retracted_record cellId c) as Hrec
        by (unfold retracted_record; by rewrite Hd).
      rewrite Hrec. destruct (decide (k = p)) as [-> | Hne].
      * rewrite lookup_insert_eq, Hp. simpl.
        rewrite (decide_True (P := p ∈ p :: rest)) by set_solver.
        case_decide; [by rewrite retracted_record_idemp | done].
      * rewrite lookup_insert_ne by done. destruct (cells !! k); [| done].
        simpl. f_equal. destruct (decide (k ∈ rest)).
        -- rewrite decide_True; [done | set_solver].
        -- rewrite decide_False; [done | set_solver].
    + intros Hrun k. rewrite (IH _ Hrun k).
      destruct (decide (k = p)) as [-> | Hne]; [by rewrite Hp |].
      destruct (cells !! k); [| done]. simpl. f_equal.
      destruct (decide (k ∈ rest)).
      * rewrite decide_True; [done | set_solver].
      * rewrite decide_False; [done | set_solver].
Qed.

Lemma retracted_deps_of cells cellId ast base cells2 k :
  retracted cells cellId ast base = Return cells2 →
  deps_of cells2 k = retracted_deps cells cellId base k.
Proof.
  unfold retracted, retracted_deps, previous_refs, ast_of, deps_of.
  destruct (cells !! cellId) as [c |] eqn:Hc; simpl.
  - assert (∀ (prev : list string) cells2',
              (∀ j, cells2' !! j =
                 (λ c, if decide (j ∈ prev) then retracted_record cellId c
                       else c)
                   <$> alter (set_ast (Some ast)) cellId cells !! j) →
              match cells2' !! k with
              | Some c2 => Array_from (cell_dependents c2)
              | None => []
              end =
              if decide (k ∈ prev)
              then Set_delete cellId
                     match cells !! k with
                     | Some c0 => Array_from (cell_dependents c0)
                     | None => []
                     end
              else match cells !! k with
                   | Some c0 => Array_from (cell_dependents c0)
                   | None => []
                   end) as Haux.
    { intros prev cells2' Hl. rewrite (Hl k), lookup_alter.
      destruct (decide (cellId = k)) as [<- | Hk]; [rewrite Hc |]; simpl.
      - by case_decide.
      - destruct (cells !! k); simpl; by case_decide. }
    destruct (cell_ast c) as [previousAst |].
    + intros Hrun. apply Haux. by apply removeFromPrevious_lookup.
    + intros [= <-]. apply (Haux []). intros j.
      by destruct (alter _ _ _ !! j).
  - by intros [= <-].
Qed.

Lemma Set_add_nil x : Set_add x [] = [x].
Proof. unfold Set_add. rewrite decide_False by apply not_elem_of_nil. done. Qed.

(** The AST and the dependents of every id after an edit that is ok. *)
Lemma eval_ok_edges cells cellId expr ast base u st k :
  eval_try cells cellId expr ast base = Return (u, st) →
  ast_of (st_cells st) k =
    (if decide (k = cellId) then Some ast else ast_of cells k) ∧
  deps_of (st_cells st) k =
    (if decide (k = cellId) then retracted_deps cells cellId base k
     else if decide (k ∈ extractReferencedCellIds ast base)
          then Set_add cellId (retracted_deps cells cellId base k)
          else retracted_deps cells cellId base k).
Proof.
  intros Hrun.
  apply eval_try_Return_inv in Hrun
    as (cells2 & result & upd & Hr & Hnin & _ & Hup & _).
  apply updateDependentCells_values_only in Hup. specialize (Hup k).
  simpl in Hup.
  rewrite <- (retracted_deps_of _ _ _ _ _ k Hr).
  unfold ast_of, deps_of. destruct (decide (k = cellId)) as [-> | Hne].
  - unfold committed in Hup.
    destruct (addToReferenced_lookup cellId _ false cells2 Hnin) as [_ Hk].
    pose proof (retracted_lookup_eq _ _ _ _ _ Hr) as Heq.
    destruct (cells !! cellId) as [c |].
    + rewrite lookup_alter_eq, Hk, decide_False in Hup by done.
      destruct (cells2 !! cellId) as [c2 |]; [| done]. simpl in Hup.
      destruct (st_cells st !! cellId) as [c' |]; [| done].
      destruct Hup as [-> _]. simpl. by rewrite Heq.
    + rewrite lookup_insert_eq in Hup.
      destruct (cells2 !! cellId); [done |].
      destruct (st_cells st !! cellId) as [c' |]; [| done].
      by destruct Hup as [-> _].
  - rewrite (before_propagation_lookup _ _ _ _ _ _ result _ Hr Hnin Hne) in Hup.
    pose proof (retracted_lookup_ne _ _ _ _ _ k Hr Hne) as H2.
    destruct (decide (k ∈ extractReferencedCellIds ast base)).
    + destruct (st_cells st !! k) as [c' |]; [| done].
      destruct Hup as [-> _]. simpl.
      destruct (cells !! k) as [c |], (cells2 !! k) as [c2 |]; try done; simpl;
        first [by rewrite Set_add_nil | by rewrite H2].
    + destruct (cells !! k) as [c |], (cells2 !! k) as [c2 |]; try done;
        destruct (st_cells st !! k) as [c' |]; try done.
      destruct Hup as [-> _]. simpl. by rewrite H2.
Qed.

Lemma references_true cells Y X :
  references cells Y X = true ↔
  ∃ a b, ast_of cells Y = Some a ∧ CellRef_parse Y = Some b ∧
         X ∈ extractReferencedCellIds a b.
Proof.
  unfold references, ast_of. destruct (cells !! Y) as [c |]; simpl.
  - destruct (cell_ast c) as [a |], (CellRef_parse Y) as [b |]; simpl.
    + rewrite bool_decide_eq_true. split; [eauto |].
      by intros (a' & b' & [= <-] & [= <-] & ?).
    + split; [done | by intros (? & ? & _ & [=] & _)].
    + split; [done | by intros (? & ? & [=] & _)].
    + split; [done | by intros (? & ? & [=] & _)].
  - split; [done | by intros (? & ? & [=] & _)].
Qed.

Lemma has_dependent_true cells X Y :
  has_dependent cells X Y = true ↔ Y ∈ deps_of cells X.
Proof.
  unfold has_dependent, deps_of. destruct (cells !! X).
  - apply bool_decide_eq_true.
  - split; [done | by intros ?%elem_of_nil].
Qed.

Lemma edges_symmetric_iff cells :
  edges_symmetric cells ↔
  ∀ X Y, references cells Y X = true ↔ Y ∈ deps_of cells X.
Proof.
  unfold edges_symmetric. split; intros H X Y.
  - by rewrite H, has_dependent_true.
  - apply Bool.eq_true_iff_eq. by rewrite H, has_dependent_true.
Qed.

Lemma eval_try_edges_symmetric cells cellId expr ast base u st :
  CellRef_parse cellId = Some base →
  edges_symmetric cells →
  eval_try cells cellId expr ast base = Return (u, st) →
  edges_symmetric (st_cells st).
Proof.
  intros Hb Hold Hrun. apply edges_symmetric_iff. intros X Y.
  rewrite edges_symmetric_iff in Hold.
  assert (cellId ∉ extractReferencedCellIds ast base) as Hnin.
  { by apply eval_try_Return_inv in Hrun as (? & ? & ? & _ & ? & _). }
  assert (∀ Z, Z ∈ previous_refs cells cellId base ↔ cellId ∈ deps_of cells Z)
    as Hprev.
  { intros Z. rewrite <- Hold, references_true. unfold previous_refs.
    destruct (ast_of cells cellId) as [a |].
    - split; [by eauto |]. intros (a' & b' & [= <-] & Hb' & ?).
      rewrite Hb in Hb'. by injection Hb' as <-.
    - split; [by intros ?%elem_of_nil | by intros (? & ? & [=] & _)]. }
  assert (∀ Z, cellId ∉ retracted_deps cells cellId base Z) as Hgone.
  { intros Z. unfold retracted_deps. case_decide as Hz.
    - rewrite elem_of_Set_delete. tauto.
    - by rewrite <- Hprev. }
  assert (∀ Z W, W ≠ cellId →
            W ∈ retracted_deps cells cellId base Z ↔ W ∈ deps_of cells Z)
    as Hkeep.
  { intros Z W HW. unfold retracted_deps. case_decide; [| done].
    rewrite elem_of_Set_delete. tauto. }
  destruct (eval_ok_edges _ _ _ _ _ _ _ X Hrun) as [_ HdX].
  destruct (eval_ok_edges _ _ _ _ _ _ _ Y Hrun) as [HaY _].
  rewrite references_true, HaY, HdX. clear HaY HdX.
  destruct (decide (Y = cellId)) as [-> | HY].
  - split.
    + intros (a & b & [= <-] & Hb' & Hin). rewrite Hb in Hb'.
      injection Hb' as <-.
      destruct (decide (X = cellId)) as [-> | HX]; [done |].
      rewrite decide_True by done. apply elem_of_Set_add. by left.
    + intros Hin. exists ast, base. split; [done |]. split; [done |].
      destruct (decide (X = cellId)) as [-> | HX]; [by apply Hgone in Hin |].
      case_decide; [done | by apply Hgone in Hin].
  - rewrite <- references_true, Hold.
    destruct (decide (X = cellId)) as [-> | HX]; [by rewrite Hkeep |].
    case_decide; [| by rewrite Hkeep].
    rewrite elem_of_Set_add, Hkeep by done. split; [auto |].
    by intros [? | ?].
Qed.

Lemma eval_ok_edges_symmetric cells cellId expr u cells' :
  edges_symmetric cells →
  eval cells cellId expr = Some (okResult u, cells') →
  edges_symmetric cells'.
Proof.
  intros Hold Hev.
  apply eval_ok_inv in Hev as (ast & base & st & _ & Hb & Hrun & ->).
  by eapply eval_try_edges_symmetric.
Qed.

(** X4. Edge symmetry is an invariant of the edits that are ok: when it
    holds in a table over all identifiers, it holds in the table that an ok
    [eval] leaves, also in the form of I1, over the identifiers that have a
    record. *)
Theorem edge_symmetry_kept_by_ok_edits cells cellId expr u cells' :
  edges_symmetric cells →
  eval cells cellId expr = Some (okResult u, cells') →
  edges_symmetric cells' ∧ edge_symmetry cells'.
Proof.
  intros Hold Hev.
  apply eval_ok_inv in Hev as (ast & base & st & _ & Hb & Hrun & ->).
  assert (edges_symmetric (st_cells st)) as Hnew
    by by eapply eval_try_edges_symmetric.
  split; [done |]. intros X Y _ _. apply Hnew.
Qed.

(** ** What a failed call leaves *)

Lemma json_val_idemp v : json_val (json_val v) = json_val v.
Proof.
  assert (∀ f, json_val (json_val (JNum f)) = json_val (JNum f)) as Hnum.
  { intros f. simpl. destruct (is_finite f) eqn:Hfin; [| done].
    destruct (is_zero f) eqn:Hzero; simpl; [done |].
    by rewrite Hfin, Hzero. }
  destruct v; try done; apply Hnum.
Qed.

Lemma json_ast_idemp ast : json_ast (json_ast ast) = json_ast ast.
Proof.
  induction ast as [v | r | fn kids IH] using Ast_ind; simpl.
  - by rewrite json_val_idemp.
  - done.
  - f_equal. rewrite map_map.
    induction IH as [| k rest Hk _ IHrest]; simpl; [done |].
    by rewrite Hk, IHrest.
Qed.

Lemma json_roundtrip_idemp cells :
  json_roundtrip (json_roundtrip cells) = json_roundtrip cells.
Proof.
  unfold json_roundtrip. rewrite <- map_fmap_compose. apply map_fmap_ext.
  intros k [i e a v d] _. unfold json_cell, compose. simpl.
  rewrite json_val_idemp. f_equal. destruct a as [a |]; [| done]. simpl.
  by rewrite json_ast_idemp.
Qed.

(** X2. A call that fails with code [SYNTAX] leaves the table as it was. *)
Theorem syntax_failure_keeps_table cells cellId expr message cells' :
  eval cells cellId expr = Some (errResult message "SYNTAX", cells') →
  cells' = cells.
Proof.
  unfold eval, eval_traced.
  destruct (parse expr cellId) as [ast |]; [| by intros [= _ <-]].
  destruct (CellRef_parse cellId) as [base |]; [| by intros [= _ <-]].
  by destruct (eval_try cells cellId expr ast base) as [[u st] | e |].
Qed.

(** X3. A call that fails with code [CIRCULAR_REF] leaves the [JSON] copy of
    the table it started from: the same keys (no placeholder stays), every
    record with its id and text, its AST and value as [JSON] writes them,
    and [{}] for its dependents. *)
Theorem rollback_restores_json_copy cells cellId expr message cells' :
  eval cells cellId expr = Some (errResult message "CIRCULAR_REF", cells') →
  cells' = json_roundtrip cells ∧
  dom cells' = dom cells ∧
  ∀ k, cells' !! k = json_cell <$> cells !! k.
Proof.
  intros Hev. assert (cells' = json_roundtrip cells) as ->.
  { revert Hev. unfold eval, eval_traced.
    destruct (parse expr cellId) as [ast |]; [| discriminate].
    destruct (CellRef_parse cellId) as [base |]; [| discriminate].
    destruct (eval_try cells cellId expr ast base) as [[u st] | e |];
      [discriminate | | discriminate].
    intros [= _ <-]. apply json_roundtrip_idemp. }
  split; [done |]. split.
  - unfold json_roundtrip. apply dom_fmap_L.
  - intros k. unfold json_roundtrip. apply lookup_fmap.
Qed.

(** X1. [eval] returns for every table and every input: the recursion of
    [updateDependentCells] is no deeper than the number of records that are
    not in [processedCells], plus one. *)
Theorem eval_returns cells cellId expr :
  ∃ result cells', eval cells cellId expr = Some (result, cells').
Proof.
  destruct (eval_total cells cellId expr) as [[result cells'] Hev]. eauto.
Qed.

(** X6. After a failed call every dependents field is [{}], which has no
    [delete] method: an edit of a cell whose old formula references a cell
    with a record then fails with code [CIRCULAR_REF], whatever the new
    formula. *)
Theorem edit_after_rollback_fails cells cellId expr ast base c previousAst p :
  parse expr cellId = Some ast →
  CellRef_parse cellId = Some base →
  (∀ k ck, cells !! k = Some ck → cell_dependents ck = DepPlain) →
  cells !! cellId = Some c →
  cell_ast c = Some previousAst →
  p ∈ extractReferencedCellIds previousAst base →
  is_Some (cells !! p) →
  eval cells cellId expr =
    Some (errResult "CIRCULAR_REF" "CIRCULAR_REF", json_roundtrip cells).
Proof.
  intros Hp Hb Hplain Hc Ha Hin Hsome.
  rewrite <- (json_roundtrip_idemp cells).
  assert (∃ e, eval_try cells cellId expr ast base = Throw e) as [e He];
    [| by eapply eval_Throw].
  rewrite eval_try_stages. unfold retracted. rewrite Hc, Ha.
  assert (∀ k ck, alter (set_ast (Some ast)) cellId cells !! k = Some ck →
                  cell_dependents ck = DepPlain) as Hplain1.
  { intros k ck. rewrite lookup_alter. case_decide as Hk; [subst k |].
    - rewrite Hc. intros [= <-]. simpl. by apply (Hplain cellId).
    - apply Hplain. }
  assert (is_Some (alter (set_ast (Some ast)) cellId cells !! p)) as Hsome1.
  { rewrite lookup_alter. case_decide; [subst p; rewrite Hc |]; [eauto | done]. }
  revert Hplain1 Hsome1 Hin.
  generalize (alter (set_ast (Some ast)) cellId cells).
  generalize (extractReferencedCellIds previousAst base).
  intros prev. induction prev as [| q rest IH]; intros cells1 Hpl Hs Hin;
    [by apply elem_of_nil in Hin |].
  simpl. destruct (cells1 !! q) as [cq |] eqn:Hq.
  - rewrite (Hpl q cq Hq). simpl. eauto.
  - apply IH; [done | done |].
    apply elem_of_cons in Hin as [-> | Hin]; [| done].
    rewrite Hq in Hs. by destruct Hs.
Qed.

(** X5. Propagation writes [value] fields only: it keeps the keys of the
    table, and every record keeps its id, text, AST and dependents; a record
    without an AST keeps its value too. *)
Theorem propagation_writes_values_only fuel st cellId path updates st' k c :
  updateDependentCells fuel st cellId path = Return (updates, st') →
  st_cells st !! k = Some c →
  dom (st_cells st') = dom (st_cells st) ∧
  ∃ v, st_cells st' !! k = Some (set_value v c) ∧
       (cell_ast c = None → v = cell_value c).
Proof.
  intros Hrun Hk. split; [by apply updateDependentCells_grows in Hrun as [? _] |].
  apply updateDependentCells_values_only in Hrun. specialize (Hrun k).
  rewrite Hk in Hrun. destruct (st_cells st' !! k) as [c' |]; [| done].
  destruct Hrun as [Hc' Hnone]. exists (cell_value c'). split; [by rewrite Hc' |].
  intros Hn. by rewrite (Hnone Hn).
Qed.

(** ** The scenario of the specification (C9) *)

(** A lookup in a table of known keys, computed. *)
Ltac compute_lookup :=
  match goal with
  | |- context [@lookup string ?A ?M ?L ?k ?m] =>
      lazymatch m with
      | context [addToReferenced] => fail
      | context [removeFromPrevious] => fail
      | _ =>
          let v := eval vm_compute in (@lookup string A M L k m) in
          change (@lookup string A M L k m) with v
      end
  end.

Section Scenario.
Variables (r b1ref a1ref : CellRef).
Hypothesis Hparse3 : parse "3" "b1" = Some (Num (JNum 3)).
Hypothesis Hparse5 :
  parse "+(b1,2)" "a1" = Some (App "+" [Ref r; Num (JNum 2)]).
Hypothesis Hparse10 : parse "10" "b1" = Some (Num (JNum 10)).
Hypothesis Hb1 : CellRef_parse "b1" = Some b1ref.
Hypothesis Ha1 : CellRef_parse "a1" = Some a1ref.
Hypothesis Hres : resolve a1ref r = Some "b1".

Ltac run_calls :=
  repeat first
    [ rewrite Hres | rewrite Ha1 | rewrite Hb1
    | rewrite updateDependentCells_S
    | compute_lookup
    | progress simpl ];
  vm_compute; reflexivity.

Lemma scenario_step1 :
  eval ∅ "b1" "3" = Some (okResult [("b1", JNum 3)], scenario1).
Proof.
  unfold eval, eval_traced. rewrite Hparse3, Hb1. unfold eval_try. run_calls.
Qed.

Lemma scenario_step2 :
  eval scenario1 "a1" "+(b1,2)" = Some (okResult [("a1", JNum 5)], scenario2 r).
Proof.
  unfold eval, eval_traced. rewrite Hparse5, Ha1. unfold eval_try, scenario1.
  run_calls.
Qed.

Lemma scenario_step3 :
  eval (scenario2 r) "b1" "10" =
    Some (okResult [("b1", JNum 10); ("a1", JNum 12)], scenario3 r).
Proof.
  unfold eval, eval_traced. rewrite Hparse10, Hb1. unfold eval_try, scenario2.
  run_calls.
Qed.

Lemma scenario_step4 :
  remove (scenario3 r) "b1" =
    Some (okResult [("b1", JNum 0); ("a1", JNum 2)], scenario4 r).
Proof.
  unfold remove. rewrite Hb1. unfold remove_try, propagate, scenario3.
  run_calls.
Qed.

End Scenario.

(** C9. From the empty table, with a parser that reads the three formulas
    as the number 3, the sum of a reference to [b1] and 2, and the number
    10: [eval("b1","3")] answers [{b1:3}], [eval("a1","+(b1,2)")] answers
    [{a1:5}], [eval("b1","10")] answers [{b1:10, a1:12}], and [remove("b1")]
    as section 4.4 describes it answers [{b1:0, a1:2}]. *)
Theorem concrete_scenario (r b1ref a1ref : CellRef) :
  parse "3" "b1" = Some (Num (JNum 3)) →
  parse "+(b1,2)" "a1" = Some (App "+" [Ref r; Num (JNum 2)]) →
  parse "10" "b1" = Some (Num (JNum 10)) →
  CellRef_parse "b1" = Some b1ref →
  CellRef_parse "a1" = Some a1ref →
  resolve a1ref r = Some "b1" →
  eval ∅ "b1" "3" = Some (okResult [("b1", JNum 3)], scenario1) ∧
  eval scenario1 "a1" "+(b1,2)" =
    Some (okResult [("a1", JNum 5)], scenario2 r) ∧
  eval (scenario2 r) "b1" "10" =
    Some (okResult [("b1", JNum 10); ("a1", JNum 12)], scenario3 r) ∧
  remove (scenario3 r) "b1" =
    Some (okResult [("b1", JNum 0); ("a1", JNum 2)], scenario4 r).
Proof.
  intros H3 H5 H10 Hb1 Ha1 Hres.
  split; [by eapply scenario_step1 |].
  split; [by eapply scenario_step2 |].
  split; [by eapply scenario_step3 |].
  by eapply scenario_step4.
Qed.

(** ** Edge symmetry (I1) and replayed edits *)

Lemma replay_reachable edits cells cells' :
  reachable cells → replay edits cells = Some cells' → reachable cells'.
Proof.
  revert cells. induction edits as [| [cellId expr] rest IH]; intros cells Hr;
    simpl.
  - by intros [= <-].
  - destruct (eval cells cellId expr) as [[res cells1] |] eqn:Hev;
      [| discriminate].
    apply IH. by eapply reachable_eval.
Qed.

End Properties.

(** * Further properties of the class *)

Section MoreProperties.
Context {CellRef : Type} {P : ExprParser CellRef} {J : JsPlatform}.

Implicit Types (cells : gmap string (CellInfo CellRef)) (st : PropState CellRef).
Implicit Types (ast node : Ast CellRef) (base : CellRef).

(** ** The map of updates *)

Lemma updates_set_keys k v (u : Updates) :
  (updates_set k v u).*1 = if decide (k ∈ u.*1) then u.*1 else (u.*1 ++ [k])%list.
Proof.
  induction u as [| [k1 v1] rest IH]; [done |].
  cbn [updates_set fmap list_fmap fst].
  destruct (String.eqb_spec k1 k) as [-> | Hne].
  - rewrite decide_True; [done | by left].
  - cbn [fmap list_fmap fst]. rewrite IH.
    destruct (decide (k ∈ rest.*1)) as [Hin | Hnin].
    + rewrite decide_True; [done | by right].
    + rewrite decide_False; [done |]. intros [? | ?]%elem_of_cons; congruence.
Qed.

Lemma updates_set_NoDup k v (u : Updates) :
  NoDup u.*1 → NoDup (updates_set k v u).*1.
Proof.
  intros Hu. rewrite updates_set_keys. case_decide as Hk; [done |].
  apply NoDup_app. split; [done |]. split.
  - intros x Hx ->%list_elem_of_singleton. done.
  - apply NoDup_singleton.
Qed.

Lemma Object_assign_NoDup (t s : Updates) :
  NoDup t.*1 → NoDup (Object_assign t s).*1.
Proof.
  unfold Object_assign. revert t.
  induction s as [| [k v] rest IH]; intros t Ht; simpl; [done |].
  apply IH. by apply updates_set_NoDup.
Qed.

Lemma updates_get_set k k' v (u : Updates) :
  updates_get k (updates_set k' v u) =
  if decide (k = k') then Some v else updates_get k u.
Proof.
  induction u as [| [k1 v1] rest IH]; simpl.
  - destruct (String.eqb_spec k' k) as [-> | Hne].
    + by rewrite decide_True.
    + by rewrite decide_False.
  - destruct (String.eqb_spec k1 k') as [-> | Hne]; simpl.
    + destruct (String.eqb_spec k' k) as [-> | Hne'].
      * by rewrite decide_True.
      * by rewrite decide_False.
    + rewrite IH. destruct (String.eqb_spec k1 k) as [-> | Hne']; [| done].
      by rewrite decide_False.
Qed.

Lemma updates_get_None k (u : Updates) : k ∉ u.*1 → updates_get k u = None.
Proof.
  induction u as [| [k1 v1] rest IH]; simpl; [done |].
  intros Hk. destruct (String.eqb_spec k1 k) as [-> | Hne].
  - exfalso. apply Hk. by left.
  - apply IH. intros Hin. apply Hk. by right.
Qed.

Lemma updates_get_assign k (t s : Updates) :
  NoDup s.*1 →
  updates_get k (Object_assign t s) =
  match updates_get k s with
  | Some v => Some v
  | None => updates_get k t
  end.
Proof.
  unfold Object_assign. revert t.
  induction s as [| [k1 v1] rest IH]; intros t Hs; [done |].
  rewrite fmap_cons in Hs. apply NoDup_cons in Hs as [Hk1 Hrest].
  cbn [fold_left updates_get fst snd] in *.
  rewrite (IH _ Hrest), updates_get_set.
  destruct (String.eqb_spec k1 k) as [-> | Hne].
  - rewrite (updates_get_None _ _ Hk1). by rewrite decide_True.
  - rewrite decide_False by done. done.
Qed.

Lemma reports_nil cells : reports [] cells cells.
Proof. split; [apply NoDup_nil_2 | done]. Qed.

Lemma dependentsLoop_reports recurse cellId path :
  (∀ st d p u st', recurse st d p = Return (u, st') →
     reports u (st_cells st) (st_cells st')) →
  ∀ ids updates st cells0 u st',
    reports updates cells0 (st_cells st) →
    dependentsLoop recurse cellId path ids updates st = Return (u, st') →
    reports u cells0 (st_cells st').
Proof.
  intros Hrec ids.
  induction ids as [| d rest IH]; intros updates st cells0 u st' Hinv; simpl.
  - by intros [= <- <-].
  - destruct (st_cells st !! d) as [c |] eqn:Hd; [| by apply IH].
    destruct (cell_ast c) as [a |] eqn:Ha; [| by apply IH].
    case_decide; [discriminate |].
    destruct (CellRef_parse d) as [dref |]; [| discriminate].
    intros Hrun.
    apply bind_Return_inv in Hrun as (v & _ & Hrun).
    apply bind_Return_inv in Hrun as ([ru st2] & Hr & Hrun).
    apply Hrec in Hr. simpl in Hr. revert Hrun. apply IH.
    destruct Hinv as [Hnd Hinv], Hr as [Hnd2 Hr]. split.
    { by apply Object_assign_NoDup, updates_set_NoDup. }
    intros k. rewrite updates_get_assign, updates_get_set by done.
    specialize (Hr k). specialize (Hinv k).
    destruct (updates_get k ru) as [v2 |]; [done |].
    rewrite Hr, lookup_alter. destruct (decide (k = d)) as [-> | Hne].
    + rewrite decide_True by done. by rewrite Hd.
    + rewrite decide_False by done. done.
Qed.

Lemma updateDependentCells_reports fuel st cellId path u st' :
  updateDependentCells fuel st cellId path = Return (u, st') →
  reports u (st_cells st) (st_cells st').
Proof.
  revert st cellId path u st'.
  induction fuel as [| fuel IH]; intros st cellId path u st';
    [discriminate | rewrite updateDependentCells_S].
  destruct (st_cells st !! cellId) as [c |];
    [| intros [= <- <-]; apply reports_nil].
  destruct (cell_ast c); [| intros [= <- <-]; apply reports_nil].
  case_decide; [intros [= <- <-]; apply reports_nil |].
  apply dependentsLoop_reports; [exact IH | apply reports_nil].
Qed.

Lemma eval_try_values cells cellId expr ast base u st :
  eval_try cells cellId expr ast base = Return (u, st) →
  NoDup u.*1 ∧ is_Some (updates_get cellId u) ∧
  ∀ k, value_of (st_cells st) k = default (value_of cells k) (updates_get k u).
Proof.
  intros Hrun.
  apply eval_try_Return_inv in Hrun
    as (cells2 & result & upd & Hr & Hnin & _ & Hup & ->).
  apply updateDependentCells_reports in Hup as [Hnd Hup]. simpl in Hup.
  assert (∀ k, updates_get k (Object_assign [(cellId, result)] upd) =
               match updates_get k upd with
               | Some v => Some v
               | None => if decide (k = cellId) then Some result else None
               end) as Hget.
  { intros k. rewrite updates_get_assign by done.
    destruct (updates_get k upd); [done |]. simpl.
    destruct (String.eqb_spec cellId k) as [-> | Hne].
    - by rewrite decide_True.
    - by rewrite decide_False. }
  split; [apply Object_assign_NoDup; simpl; apply NoDup_singleton |].
  split.
  { rewrite Hget. destruct (updates_get cellId upd); [eauto |].
    rewrite decide_True by done. eauto. }
  intros k. rewrite Hget. specialize (Hup k). unfold value_of at 1.
  destruct (updates_get k upd) as [v |].
  - destruct (st_cells st !! k); simpl in *; congruence.
  - rewrite Hup. destruct (decide (k = cellId)) as [-> | Hne]; simpl.
    + destruct (before_propagation_lookup_eq cells cells2 cellId expr ast base
                  result Hr Hnin) as (c4 & -> & _ & Hv). done.
    + rewrite (before_propagation_lookup _ _ _ _ _ _ result _ Hr Hnin Hne).
      pose proof (retracted_lookup_ne _ _ _ _ _ k Hr Hne) as H2.
      unfold value_of.
      destruct (cells !! k) as [c |], (cells2 !! k) as [c2 |]; try done;
        case_decide; simpl; try done; by rewrite H2.
Qed.

(** X7. The map that an ok [eval] returns tells every value that the call
    changed: it has one entry per key, one of them the edited cell; a cell
    of the map holds the value that the map gives; and a reference to any
    other cell reads what it read before the call. *)
Theorem updates_report_values cells cellId expr u cells' :
  eval cells cellId expr = Some (okResult u, cells') →
  NoDup u.*1 ∧ is_Some (updates_get cellId u) ∧
  ∀ k, value_of cells' k = default (value_of cells k) (updates_get k u).
Proof.
  intros Hev.
  apply eval_ok_inv in Hev as (ast & base & st & _ & _ & Hrun & ->).
  by apply eval_try_values in Hrun.
Qed.

(** ** What [evalAst] reads *)

Lemma mapM_ext_in {A B : Type} (f g : A → Exec B) (l : list A) :
  (∀ x, x ∈ l → f x = g x) → mapM f l = mapM g l.
Proof.
  induction l as [| x rest IH]; intros Hfg; simpl; [done |].
  rewrite (Hfg x) by (by left). rewrite IH; [done |].
  intros y Hy. apply Hfg. by right.
Qed.

(** A formula evaluates alike in two tables that agree on what the
    references of its reference set read. *)
Lemma evalAst_agree cells cells' node base cellId cellId' :
  (∀ k, k ∈ extractReferencedCellIds node base →
        value_of cells k = value_of cells' k) →
  evalAst cells node base cellId = evalAst cells' node base cellId'.
Proof.
  induction node as [v | r | fn kids IH] using Ast_ind; intros Hk.
  - done.
  - simpl in *. destruct (resolve base r) as [k |]; [| done].
    specialize (Hk k (list_elem_of_here _ _)). unfold value_of in Hk.
    destruct (cells !! k), (cells' !! k); by f_equal.
  - rewrite extractReferencedCellIds_App in Hk. simpl.
    rewrite (mapM_ext_in _ (λ kid, evalAst cells' kid base cellId')); [done |].
    intros kid Hkid. rewrite Forall_forall in IH. apply (IH kid Hkid).
    intros k Hin. apply Hk. apply list_elem_of_In, in_concat.
    exists (extractReferencedCellIds kid base).
    split; [| by apply list_elem_of_In].
    apply (in_map (λ kid, extractReferencedCellIds kid base)).
    by apply list_elem_of_In.
Qed.

(** X8. The value of a formula depends on the table only through what a
    reference to each cell of its reference set reads: two tables that
    agree there give the same outcome, for any other contents. So a record
    that is added, replaced or removed at a cell outside the reference set
    does not change it. *)
Theorem evalAst_reads_references cells cells' node base cellId cellId' :
  ((∀ k, k ∈ extractReferencedCellIds node base →
         value_of cells k = value_of cells' k) →
   evalAst cells node base cellId = evalAst cells' node base cellId') ∧
  (∀ k c, k ∉ extractReferencedCellIds node base →
     evalAst (<[k := c]> cells) node base cellId =
       evalAst cells node base cellId ∧
     evalAst (delete k cells) node base cellId =
       evalAst cells node base cellId).
Proof.
  split; [apply evalAst_agree |].
  intros k c Hk. split; apply evalAst_agree; intros j Hj; unfold value_of.
  - rewrite lookup_insert_ne; [done |]. by intros ->.
  - rewrite lookup_delete_ne; [done |]. by intros ->.
Qed.

Lemma evalAst_supported_Return cells node base cellId :
  has_unsupported node = false → ∃ v, evalAst cells node base cellId = Return v.
Proof.
  induction node as [v | r | fn kids IH] using Ast_ind.
  - by exists v.
  - intros _. simpl. destruct (resolve base r); [destruct (cells !! _) |]; eauto.
  - rewrite has_unsupported_App.
    destruct (FNS fn) as [f |] eqn:Hfn; [| discriminate].
    intros Hkids. simpl.
    assert (∃ vs, mapM (λ kid, evalAst cells kid base cellId) kids = Return vs)
      as [vs ->].
    { induction IH as [| k rest Hk _ IHrest]; simpl; [by eexists |].
      simpl in Hkids. apply orb_false_iff in Hkids as [Hk' Hrest].
      destruct (Hk Hk') as [v ->]. destruct (IHrest Hrest) as [vs ->].
      simpl. by eexists. }
    simpl. unfold FNS_get. rewrite Hfn. by eexists.
Qed.

(** A tree of functions that calls no inherited member names keys of [FNS]
    only. *)
Lemma own_functions_supported node :
  calls_inherited node = false → has_nonfunction node = false →
  has_unsupported node = false.
Proof.
  induction node as [v | r | fn kids IH] using Ast_ind; [done | done |].
  rewrite has_unsupported_App, has_nonfunction_App.
  change (calls_inherited (App fn kids)) with
    (match FNS fn with Some _ => false | None => is_function fn end
     || existsb calls_inherited kids).
  intros [Hfn Hi]%orb_false_iff [Hfn' Hn]%orb_false_iff.
  destruct (FNS fn); [| by rewrite Hfn in Hfn'].
  clear Hfn Hfn'.
  induction IH as [| k rest Hk _ IHrest]; simpl; [done |].
  simpl in Hi, Hn. apply orb_false_iff in Hi as [Hi1 Hi2].
  apply orb_false_iff in Hn as [Hn1 Hn2]. by rewrite Hk, IHrest.
Qed.

(** X9. A formula that calls no member which [FNS] inherits from
    [Object.prototype] evaluates to a value exactly when every function
    name in it is a key of [FNS]: whatever the table holds and however many
    arguments an application has, nothing else makes [evalAst] throw. *)
Theorem evalAst_returns_iff_supported cells node base cellId :
  calls_inherited node = false →
  (∃ v, evalAst cells node base cellId = Return v) ↔
  has_unsupported node = false.
Proof.
  intros Hi. split.
  - intros [v Hv]. apply own_functions_supported; [done |].
    by apply evalAst_Return_functions in Hv.
  - apply evalAst_supported_Return.
Qed.

(** ** The functions of [FNS] and the number of their arguments *)

Lemma is_nan_Prim2SF (x : float) : Prim2SF x = S754_nan → is_nan x = true.
Proof. intros Hx. unfold is_nan. by rewrite FloatAxioms.eqb_spec, Hx. Qed.

Lemma add_nan_r (a : float) : is_nan (a + nan) = true.
Proof.
  apply is_nan_Prim2SF. rewrite FloatAxioms.add_spec. change (Prim2SF nan) with S754_nan.
  unfold SF64add, SFadd. by destruct (Prim2SF a) as [| [] | |].
Qed.

Lemma mul_nan_r (a : float) : is_nan (a * nan) = true.
Proof.
  apply is_nan_Prim2SF. rewrite FloatAxioms.mul_spec. change (Prim2SF nan) with S754_nan.
  unfold SF64mul, SFmul. by destruct (Prim2SF a) as [| [] | |].
Qed.

Lemma div_nan_r (a : float) : is_nan (a / nan) = true.
Proof.
  apply is_nan_Prim2SF. rewrite FloatAxioms.div_spec. change (Prim2SF nan) with S754_nan.
  unfold SF64div, SFdiv. by destruct (Prim2SF a) as [| [] | |].
Qed.

(** X26. A function of [FNS] never fails for the number of its arguments.
    Applied to none it gives [NaN]. Applied to one, [-] negates it and
    every other function gives [NaN], but for [+] on a text, which joins
    the text of [undefined] to it. Applied to more than two, it gives what
    it gives for the first two. *)
Theorem FNS_arity fn f :
  FNS fn = Some f →
  (∃ x, f [] = JNum x ∧ is_nan x = true) ∧
  (∀ a, if String.eqb fn "-" then f [a] = JNum (- toNumber (Some a))%float
        else if String.eqb fn "+" && is_text (Some a)
             then f [a] = JStr (toText (Some a) +:+ "undefined")
             else ∃ x, f [a] = JNum x ∧ is_nan x = true) ∧
  (∀ a b rest, f (a :: b :: rest) = f [a; b]).
Proof.
  unfold FNS.
  destruct (String.eqb_spec fn "+") as [-> | _].
  { intros [= <-]. split_and!; [by eexists | | done].
    intros a. cbn [String.eqb Ascii.eqb Bool.eqb andb].
    unfold js_add. cbn [lookup list_lookup].
    destruct (is_text (Some a)); [done |].
    eexists. split; [done |]. apply add_nan_r. }
  destruct (String.eqb_spec fn "-") as [-> | _];
    [intros [= <-]; split_and!; [by eexists | done | done] |].
  destruct (String.eqb_spec fn "*") as [-> | _];
    [intros [= <-]; split_and!;
       [by eexists | intros a; eexists; split; [done | apply mul_nan_r] | done] |].
  destruct (String.eqb_spec fn "/") as [-> | _];
    [intros [= <-]; split_and!;
       [by eexists | intros a; eexists; split; [done | apply div_nan_r] | done] |].
  destruct (String.eqb_spec fn "min") as [-> | _].
  { intros [= <-]. split_and!; [by eexists | | done].
    intros a. eexists. split; [done |]. simpl. unfold Math_min.
    by rewrite orb_true_r. }
  destruct (String.eqb_spec fn "max") as [-> | _]; [| discriminate].
  intros [= <-]. split_and!; [by eexists | | done].
  intros a. eexists. split; [done |]. simpl. unfold Math_max.
  by rewrite orb_true_r.
Qed.

(** ** The first formula of a cell *)

Lemma value_of_referenced_record cells cellId refs k :
  cellId ∉ refs →
  value_of (addToReferenced cellId refs false cells).2 k = value_of cells k.
Proof.
  intros Hnin. unfold value_of.
  destruct (addToReferenced_lookup cellId refs false cells Hnin) as [_ ->].
  case_decide; [| done]. by destruct (cells !! k).
Qed.

(** X10. A formula given to a cell that has no record yet, which parses,
    does not refer to the cell itself and uses supported functions only, is
    accepted. The answer holds the one entry of the cell, with the value of
    the formula in the table before the call; the cell gets a record with
    the text, the tree and that value; each referenced cell holds the cell
    as a dependent, in a placeholder when it had no record; and no other
    record changes. *)
Theorem first_formula_accepted cells cellId expr ast base :
  cells !! cellId = None →
  parse expr cellId = Some ast →
  CellRef_parse cellId = Some base →
  cellId ∉ extractReferencedCellIds ast base →
  has_unsupported ast = false →
  ∃ v cells',
    evalAst cells ast base cellId = Return v ∧
    eval cells cellId expr = Some (okResult [(cellId, v)], cells') ∧
    cells' !! cellId = Some (mkCellInfo cellId expr (Some ast) v (DepSet [])) ∧
    ∀ k, k ≠ cellId →
      cells' !! k =
      if decide (k ∈ extractReferencedCellIds ast base)
      then Some (referenced_record cellId k (cells !! k))
      else cells !! k.
Proof.
  intros Hnone Hparse Hbase Hnin Hs.
  apply (evalAst_supported_Return cells ast base cellId) in Hs as [v Hv].
  pose proof (addToReferenced_lookup cellId _ false cells Hnin) as [Hf Hlook].
  pose proof (λ k, value_of_referenced_record cells cellId _ k Hnin) as Hval.
  destruct (addToReferenced cellId (extractReferencedCellIds ast base) false
              cells) as [found cells3] eqn:Hadd.
  simpl in Hf, Hlook, Hval. subst found.
  set (c := mkCellInfo cellId expr (Some ast) v (DepSet [])).
  exists v, (<[cellId := c]> cells3).
  split; [done |]. split; [| split].
  - assert (eval_try cells cellId expr ast base =
            Return ([(cellId, v)], mkPropState (<[cellId := c]> cells3) ∅ []))
      as Hrun; [| by rewrite (eval_Return _ _ _ _ _ _ _ Hparse Hbase Hrun)].
    rewrite eval_try_stages. unfold retracted. rewrite Hnone. simpl.
    rewrite bool_decide_eq_false_2 by done. rewrite Hadd.
    rewrite (evalAst_agree cells3 cells ast base cellId cellId), Hv
      by (intros k _; apply Hval).
    simpl. unfold committed. rewrite Hnone. fold c.
    rewrite updateDependentCells_S. simpl. rewrite lookup_insert_eq. simpl.
    rewrite decide_False by set_solver. done.
  - apply lookup_insert_eq.
  - intros k Hne. rewrite lookup_insert_ne by done. apply Hlook.
Qed.

(** ** Records are kept *)

Lemma eval_keeps_text cells cellId expr r cells' k c :
  eval cells cellId expr = Some (r, cells') →
  cells !! k = Some c →
  ∃ c', cells' !! k = Some c' ∧
        cell_id c' = cell_id c ∧ cell_expr c' = cell_expr c.
Proof.
  intros Hev Hk. destruct r as [u | message code].
  - apply eval_ok_inv in Hev as (ast & base & st & _ & _ & Hrun & ->).
    apply eval_try_Return_inv in Hrun
      as (cells2 & result & upd & Hr & Hnin & _ & Hup & _).
    apply updateDependentCells_values_only in Hup. specialize (Hup k).
    simpl in Hup.
    assert (∃ c4, committed cells
              (addToReferenced cellId (extractReferencedCellIds ast base)
                 false cells2).2 cellId expr ast result !! k = Some c4 ∧
            cell_id c4 = cell_id c ∧ cell_expr c4 = cell_expr c)
      as (c4 & Hc4 & Hid & Hexpr).
    { destruct (decide (k = cellId)) as [-> | Hne].
      - unfold committed. rewrite Hk, lookup_alter, decide_True by done.
        destruct (addToReferenced_lookup cellId
                    (extractReferencedCellIds ast base) false cells2 Hnin)
          as [_ ->].
        rewrite decide_False by done.
        pose proof (retracted_lookup_eq _ _ _ _ _ Hr) as H2. rewrite Hk in H2.
        destruct (cells2 !! cellId) as [c2 |]; [| done].
        eexists. split; [done |]. by rewrite H2.
      - rewrite (before_propagation_lookup _ _ _ _ _ _ result _ Hr Hnin Hne).
        pose proof (retracted_lookup_ne _ _ _ _ _ k Hr Hne) as H2.
        rewrite Hk in H2. destruct (cells2 !! k) as [c2 |]; [| done].
        case_decide; (eexists; split; [done |]); simpl; by rewrite H2. }
    rewrite Hc4 in Hup. destruct (st_cells st !! k) as [c' |]; [| done].
    destruct Hup as [Hc' _]. exists c'. split; [done |].
    rewrite Hc'. simpl. done.
  - revert Hev. unfold eval, eval_traced.
    destruct (parse expr cellId) as [ast |];
      [| intros [= _ _ <-]; by exists c].
    destruct (CellRef_parse cellId) as [base |];
      [| intros [= _ _ <-]; by exists c].
    destruct (eval_try cells cellId expr ast base) as [[u st] | e |];
      [discriminate | | discriminate].
    intros [= _ _ <-]. exists (json_cell (json_cell c)).
    split; [| done]. unfold json_roundtrip. by rewrite !lookup_fmap, Hk.
Qed.

(** X11. No sequence of calls of [eval] removes a record or changes its
    [id] or its [expr]: the text of a cell is the one of the call that
    created its record, or "0" for a placeholder, whatever formula the cell
    is given later and whether the calls succeed or fail. *)
Theorem records_keep_their_text edits cells cells' k c :
  replay edits cells = Some cells' →
  cells !! k = Some c →
  ∃ c', cells' !! k = Some c' ∧
        cell_id c' = cell_id c ∧ cell_expr c' = cell_expr c.
Proof.
  revert cells c.
  induction edits as [| [cellId expr] rest IH]; intros cells c; simpl.
  - intros [= <-] Hk. by exists c.
  - destruct (eval cells cellId expr) as [[r cells1] |] eqn:Hev; [| discriminate].
    intros Hrest Hk.
    destruct (eval_keeps_text _ _ _ _ _ _ _ Hev Hk) as (c1 & Hk1 & Hid & Hexpr).
    destruct (IH _ _ Hrest Hk1) as (c' & Hk' & Hid' & Hexpr').
    exists c'. split; [done |]. split; congruence.
Qed.


(** ** Propagation reaches every dependent *)

Lemma updates_set_elem_of k v (u : Updates) k' :
  k' ∈ (updates_set k v u).*1 ↔ k' = k ∨ k' ∈ u.*1.
Proof.
  rewrite updates_set_keys. case_decide; [| rewrite elem_of_app]; set_solver.
Qed.

Lemma Object_assign_elem_of (t s : Updates) k :
  k ∈ (Object_assign t s).*1 ↔ k ∈ t.*1 ∨ k ∈ s.*1.
Proof.
  unfold Object_assign. revert t.
  induction s as [| [k1 v1] rest IH]; intros t; simpl.
  - set_solver.
  - rewrite IH, updates_set_elem_of. set_solver.
Qed.

Lemma updates_get_is_Some k (u : Updates) :
  is_Some (updates_get k u) ↔ k ∈ u.*1.
Proof.
  induction u as [| [k1 v1] rest IH]; simpl.
  - split; [by intros [? ?] | by intros ?%elem_of_nil].
  - destruct (String.eqb_spec k1 k) as [-> | Hne].
    + split; [intros _; by left | eauto].
    + rewrite IH. set_solver.
Qed.

Lemma same_graph_refl cells : same_graph cells cells.
Proof. done. Qed.

Lemma same_graph_store_value cells0 st d v :
  same_graph cells0 (st_cells st) →
  same_graph cells0 (st_cells (store_value d v st)).
Proof.
  intros Hg k. destruct (Hg k) as [<- <-]. simpl.
  unfold deps_of, ast_of. rewrite lookup_alter.
  case_decide; [subst k |]; [| done].
  by destruct (st_cells st !! d).
Qed.

Lemma complete_mono cells0 (done1 done2 : list string) y :
  (∀ k, k ∈ done1 → k ∈ done2) →
  complete cells0 done1 y → complete cells0 done2 y.
Proof. intros Hsub Hc d Hd. apply Hsub, Hc, Hd. Qed.

Section Reach.
Variable cells0 : gmap string (CellInfo CellRef).

Lemma dependentsLoop_propagated recurse x path :
  (∀ st d u st',
     same_graph cells0 (st_cells st) →
     processed_complete cells0 st (path ++ [x]) →
     recomputed_complete cells0 st ((path ++ [x]) ++ [d]) →
     recurse st d (path ++ [x])%list = Return (u, st') →
     propagated cells0 d (path ++ [x]) st u st') →
  ∀ ids updates st (done0 : list string) u st',
    same_graph cells0 (st_cells st) →
    processed_complete cells0 st (path ++ [x]) →
    recomputed_complete cells0 st (path ++ [x]) →
    (∀ k, k ∈ st_recomputed st → k ∈ done0 ∨ k ∈ updates.*1) →
    dependentsLoop recurse x path ids updates st = Return (u, st') →
    same_graph cells0 (st_cells st') ∧
    processed_complete cells0 st' (path ++ [x]) ∧
    recomputed_complete cells0 st' (path ++ [x]) ∧
    (∀ k, k ∈ st_recomputed st → k ∈ st_recomputed st') ∧
    (∀ d, d ∈ ids → is_Some (ast_of cells0 d) → d ∈ st_recomputed st') ∧
    (∀ k, k ∈ st_recomputed st' → k ∈ done0 ∨ k ∈ u.*1) ∧
    (∀ k, k ∈ st_recomputed st' →
          k ∈ st_recomputed st ∨ ((k ∉ path) ∧ (k = x → x ∈ ids))).
Proof.
  intros Hrec ids.
  induction ids as [| d rest IH]; intros updates st done0 u st' Hg HP HR Hkeys;
    simpl.
  - intros [= <- <-]. split_and!; try done; try by intros d ?%elem_of_nil.
    intros k Hk. by left.
  - assert (∀ (st1 : PropState CellRef) upd1,
              st_cells st1 = st_cells st → st_recomputed st1 = st_recomputed st →
              st_processed st1 = st_processed st →
              (∀ k, k ∈ st_recomputed st1 → k ∈ done0 ∨ k ∈ upd1.*1) →
              ast_of cells0 d = None →
              dependentsLoop recurse x path rest upd1 st1 = Return (u, st') →
              same_graph cells0 (st_cells st') ∧
              processed_complete cells0 st' (path ++ [x]) ∧
              recomputed_complete cells0 st' (path ++ [x]) ∧
              (∀ k, k ∈ st_recomputed st → k ∈ st_recomputed st') ∧
              (∀ d', d' ∈ d :: rest → is_Some (ast_of cells0 d') →
                     d' ∈ st_recomputed st') ∧
              (∀ k, k ∈ st_recomputed st' → k ∈ done0 ∨ k ∈ u.*1) ∧
              (∀ k, k ∈ st_recomputed st' →
                    k ∈ st_recomputed st ∨
                    ((k ∉ path) ∧ (k = x → x ∈ d :: rest)))) as Hskip.
    { intros st1 upd1 Hc1 Hr1 Hp1 Hk1 Hnone Hrun.
      destruct (IH upd1 st1 done0 u st')
        as (G & HP' & HR' & Hmono & Hids & Hk' & Hnew);
        [by rewrite Hc1 | | | done | done |].
      - intros y Hy Hin. rewrite Hr1. apply HP; [done | by rewrite <- Hp1].
      - intros y Hy Hin Ha. rewrite Hr1. rewrite Hr1 in Hin. by apply HR.
      - split_and!; try done.
        + intros k Hk. apply Hmono. by rewrite Hr1.
        + intros d' [-> | Hd']%elem_of_cons Ha; [| by apply Hids].
          rewrite Hnone in Ha. by destruct Ha.
        + intros k Hk. destruct (Hnew k Hk) as [Hold | [Hp Hx]].
          * left. by rewrite <- Hr1.
          * right. split; [done |]. intros ->. right. by apply Hx. }
    destruct (Hg d) as [_ Hast]. unfold ast_of in Hast.
    destruct (st_cells st !! d) as [c |] eqn:Hd; simpl in Hast;
      [| by apply Hskip].
    destruct (cell_ast c) as [a |] eqn:Ha; [| by apply Hskip].
    clear Hskip. case_decide as Hpath; [discriminate |].
    destruct (CellRef_parse d) as [dref |]; [| discriminate].
    intros Hrun.
    apply bind_Return_inv in Hrun as (v & _ & Hrun).
    apply bind_Return_inv in Hrun as ([ru st2] & Hr & Hrun).
    set (st1 := store_value d v (processed_add x st)) in *.
    assert (same_graph cells0 (st_cells st1)) as Hg1
      by (by apply same_graph_store_value).
    assert (∀ y, complete cells0 (st_recomputed st) y →
                 complete cells0 (st_recomputed st1) y) as Hmono1.
    { intros y. apply complete_mono. intros k Hk. simpl.
      apply elem_of_app. by left. }
    apply Hrec in Hr as (Hg2 & HP2 & HR2 & _ & Hmono2 & Hk2 & Hnew2);
      [| done | |].
    + simpl in Hrun.
      destruct (IH (Object_assign (updates_set d v updates) ru) st2 done0 u st')
        as (G & HP' & HR' & Hmono & Hids & Hk' & Hnew);
        [done | done | done | | done |].
      { intros k Hk. destruct (Hk2 k Hk) as [Hk1 | Hk1].
        - simpl in Hk1.
          apply elem_of_app in Hk1 as [Hk1 | ->%list_elem_of_singleton].
          + destruct (Hkeys k Hk1) as [? | ?]; [by left | right].
            apply Object_assign_elem_of. left. apply updates_set_elem_of. by right.
          + right. apply Object_assign_elem_of. left.
            apply updates_set_elem_of. by left.
        - right. apply Object_assign_elem_of. by right. }
      split_and!; try done.
      * intros k Hk. apply Hmono, Hmono2. simpl. apply elem_of_app. by left.
      * intros d' [-> | Hd']%elem_of_cons Hd'a; [| by apply Hids].
        apply Hmono, Hmono2. simpl. apply elem_of_app. right.
        by apply list_elem_of_singleton.
      * intros k Hk. destruct (Hnew k Hk) as [Hold | [Hp Hx]].
        -- destruct (Hnew2 k Hold) as [Hold1 | [Hp _]].
           ++ simpl in Hold1.
              apply elem_of_app in Hold1 as [? | ->%list_elem_of_singleton];
                [by left | right].
              split; [done |]. intros ->. by left.
           ++ right. split.
              ** intros ?. apply Hp. apply elem_of_app. by left.
              ** intros ->. exfalso. apply Hp. apply elem_of_app. right.
                 by apply list_elem_of_singleton.
        -- right. split; [done |]. intros ->. right. by apply Hx.
    + intros y Hy Hin. apply Hmono1. apply HP; [done |].
      simpl in Hin. apply elem_of_union in Hin as [Hin | Hin]; [| done].
      apply elem_of_singleton in Hin as ->. exfalso. apply Hy.
      apply elem_of_app. right. by apply list_elem_of_singleton.
    + intros y Hy Hin Hay. apply Hmono1.
      simpl in Hin. apply elem_of_app in Hin as [Hin | Hin].
      * apply HR; [| done | done]. intros Hy'. apply Hy.
        apply elem_of_app. by left.
      * exfalso. apply Hy. apply elem_of_app. by right.
Qed.

Lemma updateDependentCells_propagated fuel st x path u st' :
  same_graph cells0 (st_cells st) →
  processed_complete cells0 st path →
  recomputed_complete cells0 st (path ++ [x]) →
  updateDependentCells fuel st x path = Return (u, st') →
  propagated cells0 x path st u st'.
Proof.
  revert st x path u st'.
  induction fuel as [| fuel IH]; intros st x path u st' Hg HP HR;
    [discriminate | rewrite updateDependentCells_S].
  assert (ast_of cells0 x = None → propagated cells0 x path st [] st) as Hnone.
  { intros Hn. split_and!; try done; try apply Hg.
    - intros y Hy Hin Hay. apply HR; [| done | done].
      intros [? | ->%list_elem_of_singleton]%elem_of_app; [done |].
      rewrite Hn in Hay. by destruct Hay.
    - intros _ Ha. rewrite Hn in Ha. by destruct Ha.
    - by left.
    - by left. }
  destruct (Hg x) as [Hdeps Hast]. unfold ast_of, deps_of in Hast, Hdeps.
  destruct (st_cells st !! x) as [c |] eqn:Hx; simpl in Hast;
    [| intros [= <- <-]; by apply Hnone].
  destruct (cell_ast c) as [a |] eqn:Ha;
    [| intros [= <- <-]; by apply Hnone].
  clear Hnone. case_decide as Hproc.
  - intros [= <- <-]. split_and!; try done; try apply Hg.
    + intros y Hy Hin Hay. destruct (decide (y = x)) as [-> | Hne].
      * by apply HP.
      * apply HR; [| done | done].
        intros [? | ?%list_elem_of_singleton]%elem_of_app; done.
    + intros Hx' _. by apply HP.
    + by left.
    + by left.
  - intros Hrun.
    destruct (dependentsLoop_propagated (updateDependentCells fuel) x path)
      with (ids := Array_from (cell_dependents c)) (updates := @nil (string * JsVal))
           (st := st) (done0 := st_recomputed st) (u := u) (st' := st')
      as (Hg' & HP' & HR' & Hmono & Hids & Hkeys & Hnew);
      [| done | | done | | done |].
    + intros st1 d u1 st1' Hg1 HP1 HR1 Hr1. by apply IH.
    + intros y Hy. apply HP. intros Hy'. apply Hy. apply elem_of_app. by left.
    + intros k Hk. by left.
    + assert (complete cells0 (st_recomputed st') x) as Hcx.
      { intros d [Hd Hda]. apply Hids; [| done]. by rewrite Hdeps. }
      split_and!; try done.
      * intros y Hy Hin. destruct (decide (y = x)) as [-> | Hne]; [done |].
        apply HP'; [| done].
        intros [? | ?%list_elem_of_singleton]%elem_of_app; done.
      * intros y Hy Hin Hay. destruct (decide (y = x)) as [-> | Hne]; [done |].
        apply HR'; [| done | done].
        intros [? | ?%list_elem_of_singleton]%elem_of_app; done.
      * intros k Hk. destruct (Hnew k Hk) as [? | [Hp Hkx]]; [by left | right].
        split; [done |]. intros ->. unfold deps_of. rewrite <- Hdeps.
        by apply Hkx.
Qed.

End Reach.

Lemma feeds_into_has_ast cells x y : feeds_into cells x y → is_Some (ast_of cells y).
Proof. by intros [? [_ ?] | ? ? _ [_ ?]]. Qed.

Lemma feeds_into_trans cells x y z :
  feeds_into cells x y → feeds_into cells y z → feeds_into cells x z.
Proof.
  intros Hxy. induction 1 as [z Hf | w z _ IH Hf].
  - by apply (feeds_next _ _ y).
  - by apply (feeds_next _ _ w).
Qed.

Lemma same_graph_feeds_into cells0 cells x y :
  same_graph cells0 cells → feeds_into cells x y → feeds_into cells0 x y.
Proof.
  intros Hg. induction 1 as [y [Hd Ha] | y z _ IH [Hd Ha]].
  - apply feeds_once. unfold feeds.
    destruct (Hg x) as [<- _], (Hg y) as [_ <-]. done.
  - apply (feeds_next _ _ y); [done |]. unfold feeds.
    destruct (Hg y) as [<- _], (Hg z) as [_ <-]. done.
Qed.

(** The keys of the map that propagation returns were recomputed. *)
Lemma dependentsLoop_keys recurse x path :
  (∀ st d p u st', recurse st d p = Return (u, st') →
     (∀ k, k ∈ st_recomputed st → k ∈ st_recomputed st') ∧
     (∀ k, k ∈ u.*1 → k ∈ st_recomputed st')) →
  ∀ ids updates st u st',
    (∀ k, k ∈ updates.*1 → k ∈ st_recomputed st) →
    dependentsLoop recurse x path ids updates st = Return (u, st') →
    (∀ k, k ∈ st_recomputed st → k ∈ st_recomputed st') ∧
    (∀ k, k ∈ u.*1 → k ∈ st_recomputed st').
Proof.
  intros Hrec ids.
  induction ids as [| d rest IH]; intros updates st u st' Hkeys; simpl.
  - by intros [= <- <-].
  - destruct (st_cells st !! d) as [c |] eqn:Hd; [| by apply IH].
    destruct (cell_ast c) as [a |] eqn:Ha; [| by apply IH].
    case_decide; [discriminate |].
    destruct (CellRef_parse d) as [dref |]; [| discriminate].
    intros Hrun.
    apply bind_Return_inv in Hrun as (v & _ & Hrun).
    apply bind_Return_inv in Hrun as ([ru st2] & Hr & Hrun).
    apply Hrec in Hr as [Hmono2 Hk2]. simpl in Hmono2, Hrun.
    apply IH in Hrun as [Hmono Hk].
    + split; [| done]. intros k Hk1. apply Hmono, Hmono2, elem_of_app. by left.
    + intros k [Hk1 | Hk1]%Object_assign_elem_of; [| by apply Hk2].
      apply Hmono2, elem_of_app.
      apply updates_set_elem_of in Hk1 as [-> | Hk1];
        [right; by apply list_elem_of_singleton | left; by apply Hkeys].
Qed.

Lemma updateDependentCells_keys fuel st x path u st' :
  updateDependentCells fuel st x path = Return (u, st') →
  (∀ k, k ∈ st_recomputed st → k ∈ st_recomputed st') ∧
  (∀ k, k ∈ u.*1 → k ∈ st_recomputed st').
Proof.
  revert st x path u st'.
  induction fuel as [| fuel IH]; intros st x path u st';
    [discriminate | rewrite updateDependentCells_S].
  assert ((∀ k, k ∈ st_recomputed st → k ∈ st_recomputed st) ∧
          (∀ k, k ∈ (@nil (string * JsVal)).*1 → k ∈ st_recomputed st)) as Hnil.
  { split; [done |]. by intros k ?%elem_of_nil. }
  destruct (st_cells st !! x) as [c |]; [| by intros [= <- <-]].
  destruct (cell_ast c); [| by intros [= <- <-]].
  case_decide; [by intros [= <- <-] |].
  apply dependentsLoop_keys; [exact IH | apply Hnil].
Qed.

(** The cells that propagation has not recomputed keep their record, and
    those that it has recomputed hold a formula. *)
Lemma updateDependentCells_recomputed fuel st x path u st' :
  updateDependentCells fuel st x path = Return (u, st') →
  same_graph (st_cells st) (st_cells st') ∧
  (∀ k, k ∈ st_recomputed st → k ∈ st_recomputed st') ∧
  (∀ k, k ∈ st_recomputed st' →
        k ∈ st_recomputed st ∨ is_Some (ast_of (st_cells st) k)) ∧
  (∀ k, k ∈ st_recomputed st' ∨ st_cells st' !! k = st_cells st !! k).
Proof.
  apply (updateDependentCells_inv (λ a b,
    same_graph (st_cells a) (st_cells b) ∧
    (∀ k, k ∈ st_recomputed a → k ∈ st_recomputed b) ∧
    (∀ k, k ∈ st_recomputed b →
          k ∈ st_recomputed a ∨ is_Some (ast_of (st_cells a) k)) ∧
    (∀ k, k ∈ st_recomputed b ∨ st_cells b !! k = st_cells a !! k))).
  - intros a. split_and!; try done; intros k; [intros ?; by left | by right].
  - intros a b c (Hg1 & Hm1 & Ha1 & Hu1) (Hg2 & Hm2 & Ha2 & Hu2). split_and!.
    + intros k. destruct (Hg1 k) as [<- <-]. apply Hg2.
    + intros k Hk. by apply Hm2, Hm1.
    + intros k Hk. destruct (Ha2 k Hk) as [Hk' | Hk']; [by apply Ha1 |].
      right. by destruct (Hg1 k) as [_ <-].
    + intros k. destruct (Hu2 k) as [? | ->]; [by left |].
      destruct (Hu1 k) as [? | ->]; [left; by apply Hm2 | by right].
  - intros a y. split_and!; try done; intros k; [intros ?; by left | by right].
  - intros a d c t v Hd Ht. split_and!.
    + by apply same_graph_store_value.
    + intros k Hk. simpl. apply elem_of_app. by left.
    + intros k. simpl. intros [? | ->%list_elem_of_singleton]%elem_of_app;
        [by left | right].
      unfold ast_of. rewrite Hd. simpl. rewrite Ht. eauto.
    + intros k. simpl. destruct (decide (k = d)) as [-> | Hne].
      * left. apply elem_of_app. right. by apply list_elem_of_singleton.
      * right. by rewrite lookup_alter_ne.
Qed.

(** What the propagation of an edit that is ok has done: [cells4] is the
    table that it started from, and [done] the ids that it recomputed. *)
Lemma eval_try_propagated cells cellId expr ast base u st :
  eval_try cells cellId expr ast base = Return (u, st) →
  ∃ cells4 upd,
    u = Object_assign [(cellId, value_of cells4 cellId)] upd ∧
    evalAst cells4 ast base cellId = Return (value_of cells4 cellId) ∧
    (∀ k, k ∈ st_recomputed st ∨ st_cells st !! k = cells4 !! k) ∧
    (∀ k, k ∈ st_recomputed st ↔ k ∈ upd.*1) ∧
    ast_of (st_cells st) cellId = Some ast ∧
    (∀ r, r ∈ extractReferencedCellIds ast base →
          cellId ∈ deps_of (st_cells st) r) ∧
    (∀ y, feeds (st_cells st) cellId y → y ∈ st_recomputed st) ∧
    (∀ y z, y ∈ st_recomputed st → feeds (st_cells st) y z →
            z ∈ st_recomputed st) ∧
    (cellId ∈ st_recomputed st → cellId ∈ deps_of (st_cells st) cellId).
Proof.
  intros Hrun.
  destruct (eval_ok_edges _ _ _ _ _ _ _ cellId Hrun) as [Hast _].
  rewrite decide_True in Hast by done.
  assert (∀ r, r ∈ extractReferencedCellIds ast base →
               cellId ∈ deps_of (st_cells st) r) as Hrefs.
  { intros r Hr. destruct (eval_ok_edges _ _ _ _ _ _ _ r Hrun) as [_ ->].
    pose proof Hrun as Hinv.
    apply eval_try_Return_inv in Hinv as (_ & _ & _ & _ & Hnin & _).
    rewrite decide_False by (by intros ->). rewrite decide_True by done.
    apply elem_of_Set_add. by left. }
  apply eval_try_Return_inv in Hrun
    as (cells2 & result & upd & Hr & Hnin & Hres & Hup & ->).
  set (cells4 := committed cells _ cellId expr ast result) in *.
  exists cells4, upd.
  pose proof (updateDependentCells_keys _ _ _ _ _ _ Hup) as [_ Hk1].
  pose proof (updateDependentCells_recomputed _ _ _ _ _ _ Hup)
    as (_ & _ & Hhas & Hkeep).
  apply (updateDependentCells_propagated cells4) in Hup
    as (Hg & _ & HR & Hc & _ & Hkeys & Hnew);
    [| done | by intros ? ? ? | by intros ? ? ?%elem_of_nil].
  simpl in Hkeys, Hnew, Hk1, Hhas, Hkeep.
  destruct (before_propagation_lookup_eq cells cells2 cellId expr ast base
              result Hr Hnin) as (c4 & Hc4 & Ha4 & Hv4).
  assert (value_of cells4 cellId = result) as Hval
    by (unfold value_of, cells4; by rewrite Hc4, Hv4).
  assert (∀ x y, feeds (st_cells st) x y → feeds cells4 x y) as Hfeeds.
  { intros x y [Hd Ha]. destruct (Hg x) as [Hgx _], (Hg y) as [_ Hgy].
    split; [by rewrite <- Hgx | by rewrite <- Hgy]. }
  split_and!; try done.
  - by rewrite Hval.
  - rewrite Hval, <- Hres. apply evalAst_agree. intros k Hk.
    unfold value_of, cells4.
    rewrite committed_lookup_ne; [done | by intros ->].
  - intros k. split; [| apply Hk1].
    intros Hk. by destruct (Hkeys k Hk) as [?%elem_of_nil | ?].
  - intros y Hy%Hfeeds. apply Hc; [apply not_elem_of_nil | | done].
    unfold ast_of, cells4. rewrite Hc4. simpl. rewrite Ha4. eauto.
  - intros y z Hy Hz%Hfeeds. apply (HR y); [apply not_elem_of_nil | done | | done].
    by destruct (Hhas y Hy) as [?%elem_of_nil | ?].
  - intros Hk. destruct (Hg cellId) as [-> _].
    destruct (Hnew cellId Hk) as [?%elem_of_nil | [_ Hx]]; [done |].
    by apply Hx.
Qed.

Lemma feeds_into_recomputed cells (done : list string) x y :
  (∀ z, feeds cells x z → z ∈ done) →
  (∀ w z, w ∈ done → feeds cells w z → z ∈ done) →
  feeds_into cells x y → y ∈ done.
Proof.
  intros Hroot Hclosed. induction 1 as [y Hf | y z _ IH Hf].
  - by apply Hroot.
  - by apply (Hclosed y).
Qed.

(** X12. When [eval] succeeds, propagation has reached every cell that
    depends on the edited cell: a cell that is reached from it through
    dependents that hold a formula, in any number of steps, is a key of the
    map that the call returns. *)
Theorem propagation_reaches_dependents cells cellId expr u cells' y :
  eval cells cellId expr = Some (okResult u, cells') →
  feeds_into cells' cellId y →
  is_Some (updates_get y u).
Proof.
  intros Hev Hy.
  apply eval_ok_inv in Hev as (ast & base & st & _ & _ & Hrun & ->).
  apply eval_try_propagated in Hrun
    as (cells4 & upd & -> & _ & _ & Hkeys & _ & _ & Hroot & Hclosed & _).
  apply updates_get_is_Some, Object_assign_elem_of. right. apply Hkeys.
  by apply (feeds_into_recomputed (st_cells st) _ cellId).
Qed.


(** ** Cycles *)

(** X13. When [eval] succeeds, the edited cell is not reached from itself
    through dependents that hold a formula, unless it is listed among its
    own dependents: a cycle that the new formula would close makes the call
    fail, at the first check or during propagation. *)
Theorem no_cycle_through_edited_cell cells cellId expr u cells' :
  eval cells cellId expr = Some (okResult u, cells') →
  cellId ∉ deps_of cells' cellId →
  ¬ feeds_into cells' cellId cellId.
Proof.
  intros Hev Hself Hy. apply Hself.
  apply eval_ok_inv in Hev as (ast & base & st & _ & _ & Hrun & ->).
  apply eval_try_propagated in Hrun
    as (cells4 & upd & _ & _ & _ & _ & _ & _ & Hroot & Hclosed & Hrec).
  apply Hrec. by apply (feeds_into_recomputed (st_cells st) _ cellId).
Qed.

Lemma retracted_deps_subseteq cells cellId base k y :
  y ∈ retracted_deps cells cellId base k → y ∈ deps_of cells k.
Proof.
  unfold retracted_deps. case_decide; [| done].
  rewrite elem_of_Set_delete. by intros [_ ?].
Qed.

Lemma eval_ok_edited_graph cells cellId expr ast base u st :
  eval_try cells cellId expr ast base = Return (u, st) →
  edited_graph cells cellId ast base (st_cells st).
Proof. intros Hrun k. by apply (eval_ok_edges _ _ expr _ _ u). Qed.

(** The table at the start of propagation has the edges of the edit. *)
Lemma committed_edited_graph cells cells2 cellId expr ast base result :
  retracted cells cellId ast base = Return cells2 →
  cellId ∉ extractReferencedCellIds ast base →
  edited_graph cells cellId ast base
    (committed cells
       (addToReferenced cellId (extractReferencedCellIds ast base) false cells2).2
       cellId expr ast result).
Proof.
  intros Hr Hnin k.
  rewrite <- (retracted_deps_of _ _ _ _ _ k Hr).
  unfold ast_of, deps_of. destruct (decide (k = cellId)) as [-> | Hne].
  - unfold committed.
    destruct (addToReferenced_lookup cellId _ false cells2 Hnin) as [_ Hk].
    pose proof (retracted_lookup_eq _ _ _ _ _ Hr) as Heq.
    destruct (cells !! cellId) as [c |].
    + rewrite lookup_alter_eq, Hk, decide_False by done.
      destruct (cells2 !! cellId) as [c2 |]; [| done]. simpl. by rewrite Heq.
    + rewrite lookup_insert_eq. by destruct (cells2 !! cellId).
  - rewrite (before_propagation_lookup _ _ _ _ _ _ result _ Hr Hnin Hne).
    pose proof (retracted_lookup_ne _ _ _ _ _ k Hr Hne) as H2.
    destruct (decide (k ∈ extractReferencedCellIds ast base)).
    + simpl.
      destruct (cells !! k) as [c |], (cells2 !! k) as [c2 |]; try done; simpl;
        first [by rewrite Set_add_nil | by rewrite H2].
    + destruct (cells !! k) as [c |], (cells2 !! k) as [c2 |]; try done.
      simpl. by rewrite H2.
Qed.

Section EditedGraph.
Variables (cells G : gmap string (CellInfo CellRef)) (cellId : string).
Variables (ast : Ast CellRef) (base : CellRef).
Hypothesis HG : edited_graph cells cellId ast base G.

Lemma edited_graph_feeds x y :
  y ≠ cellId → feeds G x y → feeds cells x y.
Proof.
  intros Hy [Hd Ha].
  destruct (HG x) as [_ Hdx]. destruct (HG y) as [Hay _].
  rewrite decide_False in Hay by done. split; [| by rewrite <- Hay].
  rewrite Hdx in Hd. repeat case_decide;
    try (apply elem_of_Set_add in Hd as [-> | Hd]; [done |]);
    by apply retracted_deps_subseteq in Hd.
Qed.

(** A chain of the table after the edit is a chain of the table before it,
    or it goes through the edited cell. *)
Lemma edited_graph_feeds_into x y :
  feeds_into G x y →
  feeds_into cells x y ∨
  ((x = cellId ∨ feeds_into G x cellId) ∧
   (y = cellId ∨ feeds_into G cellId y)).
Proof.
  induction 1 as [y Hf | y z Hxy IH Hf].
  - destruct (decide (y = cellId)) as [-> | Hy].
    + right. split; [right; by apply feeds_once | by left].
    + left. apply feeds_once. by apply edited_graph_feeds.
  - destruct (decide (z = cellId)) as [-> | Hz].
    { right. split; [right; by apply (feeds_next _ _ y) | by left]. }
    destruct IH as [Hold | [Hxc [-> | Hcy]]].
    + left. apply (feeds_next _ _ y); [done |]. by apply edited_graph_feeds.
    + right. split; [done |]. right. by apply feeds_once.
    + right. split; [done |]. right. by apply (feeds_next _ _ y).
Qed.

Hypothesis Hbase : CellRef_parse cellId = Some base.
Hypothesis Hsym : edges_symmetric cells.
Hypothesis Hnin : cellId ∉ extractReferencedCellIds ast base.

(** With edge symmetry, the edited cell is a dependent of the cells of its
    new reference set only. *)
Lemma edited_graph_into_edited y :
  cellId ∈ deps_of G y → y ∈ extractReferencedCellIds ast base.
Proof.
  intros Hd. destruct (HG y) as [_ Hdy]. rewrite Hdy in Hd.
  assert (cellId ∈ retracted_deps cells cellId base y → False) as Hret.
  { unfold retracted_deps. intros Hin.
    assert (cellId ∈ deps_of cells y) as Hdep
      by (by apply (retracted_deps_subseteq _ cellId base)).
    apply (proj1 (edges_symmetric_iff _) Hsym) in Hdep.
    apply references_true in Hdep as (a & b & Ha & Hb & Hy).
    rewrite Hbase in Hb. injection Hb as <-.
    rewrite decide_True in Hin.
    - apply elem_of_Set_delete in Hin as [? _]. done.
    - unfold previous_refs. by rewrite Ha. }
  clear Hdy. repeat case_decide; done.
Qed.

(** A chain from the edited cell is a chain of the table before the edit,
    or a chain of that table reaches a cell of the new reference set. *)
Lemma edited_graph_from_edited y :
  feeds_into G cellId y →
  feeds_into cells cellId y ∨
  ∃ r, r ∈ extractReferencedCellIds ast base ∧ feeds_into cells cellId r.
Proof.
  induction 1 as [y Hf | y z Hxy IH Hf].
  - destruct (decide (y = cellId)) as [-> | Hy].
    + destruct Hf as [Hd _]. by apply edited_graph_into_edited in Hd.
    + left. apply feeds_once. by apply edited_graph_feeds.
  - destruct IH as [Hold | Hnew]; [| by right].
    destruct (decide (z = cellId)) as [-> | Hz].
    + right. exists y. split; [| done].
      destruct Hf as [Hd _]. by apply edited_graph_into_edited.
    + left. apply (feeds_next _ _ y); [done |]. by apply edited_graph_feeds.
Qed.

(** The edit closes no cycle when no cell of the new reference set was
    reached from the edited cell. *)
Lemma edited_graph_acyclic :
  acyclic cells →
  (∀ r, r ∈ extractReferencedCellIds ast base → ¬ feeds_into cells cellId r) →
  acyclic G.
Proof.
  intros Hacyc Hrefs.
  assert (¬ feeds_into G cellId cellId) as Hroot.
  { intros [Hc | (r & Hr & Hc)]%edited_graph_from_edited.
    - by apply (Hacyc cellId).
    - by apply (Hrefs r). }
  intros x Hx.
  destruct (edited_graph_feeds_into _ _ Hx) as [Hold | [Hin Hout]].
  - by apply (Hacyc x).
  - apply Hroot. destruct Hin as [-> | Hin], Hout as [Heq | Hout];
      try done; try (by subst).
    by apply (feeds_into_trans _ _ x).
Qed.

End EditedGraph.

(** A table whose dependents climb in some rank has no cycle. *)
Lemma acyclic_by_rank cells (rank : string → nat) :
  (∀ x y, feeds cells x y → rank x < rank y) → acyclic cells.
Proof.
  intros Hr.
  assert (∀ x y, feeds_into cells x y → rank x < rank y) as Hlt.
  { intros x y H. induction H as [y H | y z _ IH H]; [by apply Hr |].
    apply Hr in H. lia. }
  intros x Hx%Hlt. lia.
Qed.

(** X14. With edge symmetry, the edits that are ok keep the table free of
    cycles: when no cell of the table is reached from itself through
    dependents that hold a formula, none is after the call. *)
Theorem acyclic_kept_by_ok_edits cells cellId expr u cells' :
  edges_symmetric cells →
  acyclic cells →
  eval cells cellId expr = Some (okResult u, cells') →
  acyclic cells'.
Proof.
  intros Hsym Hacyc Hev x Hx.
  apply eval_ok_inv in Hev as (ast & base & st & _ & Hbase & Hrun & ->).
  pose proof (eval_ok_edited_graph _ _ _ _ _ _ _ Hrun) as HG.
  pose proof Hrun as Hinv.
  apply eval_try_Return_inv in Hinv as (_ & _ & _ & _ & Hnin & _).
  assert (¬ feeds_into (st_cells st) cellId cellId) as Hroot.
  { intros Hc.
    apply eval_try_propagated in Hrun
      as (cells4 & upd & _ & _ & _ & _ & _ & _ & Hfrom & Hclosed & Hrec).
    assert (cellId ∈ deps_of (st_cells st) cellId) as Hself.
    { apply Hrec. by apply (feeds_into_recomputed (st_cells st) _ cellId). }
    by apply (edited_graph_into_edited _ _ _ _ _ HG Hbase Hsym) in Hself. }
  destruct (edited_graph_feeds_into _ _ _ _ _ HG _ _ Hx) as [Hold | [Hin Hout]].
  - by apply (Hacyc x).
  - apply Hroot. destruct Hin as [-> | Hin], Hout as [Heq | Hout];
      try done; try (by subst).
    by apply (feeds_into_trans _ _ x).
Qed.


(** ** Edits that are accepted *)

Lemma same_graph_trans (cells0 cells1 cells2 : gmap string (CellInfo CellRef)) :
  same_graph cells0 cells1 → same_graph cells1 cells2 → same_graph cells0 cells2.
Proof.
  intros H1 H2 k. destruct (H1 k) as [<- <-]. apply H2.
Qed.

Section NoThrow.
Variable G : gmap string (CellInfo CellRef).
Hypothesis Hacyc : acyclic G.
Hypothesis Hform : formulas_kept G.

Lemma dependentsLoop_no_Throw recurse x path :
  (∀ st d e, same_graph G (st_cells st) →
     (∀ p, p ∈ (path ++ [x])%list → feeds_into G p d) →
     recurse st d (path ++ [x])%list ≠ Throw e) →
  (∀ st d p u st', recurse st d p = Return (u, st') →
     same_graph (st_cells st) (st_cells st')) →
  (∀ p, p ∈ path → feeds_into G p x) →
  ∀ ids updates st e,
    (∀ d, d ∈ ids → d ∈ deps_of G x) → same_graph G (st_cells st) →
    dependentsLoop recurse x path ids updates st ≠ Throw e.
Proof.
  intros Hrec Hgraph Hchain ids.
  induction ids as [| d rest IH]; intros updates st e Hids Hg; simpl;
    [discriminate |].
  assert (∀ d', d' ∈ rest → d' ∈ deps_of G x) as Hrest
    by (intros d' Hd'; apply Hids; by right).
  destruct (Hg d) as [_ Hast]. unfold ast_of in Hast.
  destruct (st_cells st !! d) as [c |] eqn:Hd; simpl in Hast; [| by apply IH].
  destruct (cell_ast c) as [a |] eqn:Ha; [| by apply IH].
  assert (feeds G x d) as Hfeed.
  { split; [apply Hids; by left |]. unfold ast_of. rewrite <- Hast. eauto. }
  case_decide as Hpath.
  { exfalso. apply (Hacyc d). apply (feeds_next _ _ x); [by apply Hchain | done]. }
  destruct (Hform d a (eq_sym Hast)) as [Hsup [dref Hdref]]. rewrite Hdref.
  destruct (evalAst_supported_Return (st_cells st) a dref d Hsup) as [v Hv].
  simpl. rewrite Hv. simpl.
  assert (same_graph G (st_cells (store_value d v (processed_add x st)))) as Hg1
    by (by apply same_graph_store_value).
  destruct (recurse (store_value d v (processed_add x st)) d (path ++ [x])%list)
    as [[ru st2] | e' |] eqn:Hr; simpl.
  - apply IH; [done |]. apply Hgraph in Hr.
    by apply (same_graph_trans _ _ _ Hg1).
  - exfalso. revert Hr. apply Hrec; [done |].
    intros p [Hp | ->%list_elem_of_singleton]%elem_of_app.
    + apply (feeds_next _ _ x); [by apply Hchain | done].
    + by apply feeds_once.
  - discriminate.
Qed.

Lemma updateDependentCells_no_Throw fuel st x path e :
  same_graph G (st_cells st) →
  (∀ p, p ∈ path → feeds_into G p x) →
  updateDependentCells fuel st x path ≠ Throw e.
Proof.
  revert st x path e.
  induction fuel as [| fuel IH]; intros st x path e Hg Hchain;
    [discriminate | rewrite updateDependentCells_S].
  destruct (Hg x) as [Hdeps _]. unfold deps_of in Hdeps.
  destruct (st_cells st !! x) as [c |]; [| discriminate].
  destruct (cell_ast c); [| discriminate].
  case_decide; [discriminate |].
  apply dependentsLoop_no_Throw; try done.
  - intros st1 d e1 Hg1 Hch1. by apply IH.
  - intros st1 d p u st1' Hr.
    by apply updateDependentCells_recomputed in Hr as [? _].
  - intros d Hd. unfold deps_of. by rewrite <- Hdeps.
Qed.

End NoThrow.

Lemma removeFromPrevious_Return cellId prev cells :
  sets_kept cells →
  ∃ cells2, removeFromPrevious cellId prev cells = Return cells2 ∧
            sets_kept cells2.
Proof.
  revert cells. induction prev as [| p rest IH]; intros cells Hs; simpl;
    [by exists cells |].
  destruct (cells !! p) as [c |] eqn:Hp; [| by apply IH].
  destruct (cell_dependents c) as [ids |] eqn:Hc; [| by destruct (Hs p c Hp)].
  apply IH. intros k c'. rewrite lookup_insert. case_decide; [| apply Hs].
  by intros [= <-].
Qed.

Lemma retracted_Return cells cellId ast base :
  sets_kept cells →
  ∃ cells2, retracted cells cellId ast base = Return cells2 ∧ sets_kept cells2.
Proof.
  intros Hs. unfold retracted.
  destruct (cells !! cellId) as [c |] eqn:Hc; [| by exists cells].
  assert (sets_kept (alter (set_ast (Some ast)) cellId cells)) as Hs'.
  { intros k c'. rewrite lookup_alter. case_decide; [subst k | apply Hs].
    rewrite Hc. intros [= <-]. by apply (Hs cellId c). }
  destruct (cell_ast c); [by apply removeFromPrevious_Return | eauto].
Qed.

(** X29. An edit is accepted when nothing stands against it. In a table
    that has edge symmetry, no cycle, supported formulas at ids that parse,
    and a [Set] in every [dependents] field, [eval] succeeds for a formula
    that parses, uses supported functions only, does not refer to its own
    cell, and refers to no cell that is reached from its own cell through
    dependents. *)
Theorem acyclic_edit_accepted cells cellId expr ast base :
  parse expr cellId = Some ast →
  CellRef_parse cellId = Some base →
  has_unsupported ast = false →
  cellId ∉ extractReferencedCellIds ast base →
  (∀ r, r ∈ extractReferencedCellIds ast base → ¬ feeds_into cells cellId r) →
  sets_kept cells → formulas_kept cells →
  edges_symmetric cells → acyclic cells →
  ∃ u cells', eval cells cellId expr = Some (okResult u, cells').
Proof.
  intros Hparse Hbase Hsup Hnin Hrefs Hsets Hform Hsym Hacyc.
  assert (∀ e, eval_try cells cellId expr ast base ≠ Throw e) as Hok.
  { intros e. rewrite eval_try_stages.
    destruct (retracted_Return cells cellId ast base Hsets) as (cells2 & Hr & _).
    rewrite Hr. simpl.
    pose proof (addToReferenced_lookup cellId _ false cells2 Hnin) as [Hf _].
    rewrite bool_decide_eq_false_2 by done.
    pose proof (λ result, committed_edited_graph cells cells2 cellId expr ast
                            base result Hr Hnin) as HG.
    destruct (addToReferenced cellId (extractReferencedCellIds ast base) false
                cells2) as [found cells3]. simpl in Hf, HG. subst found.
    destruct (evalAst_supported_Return cells3 ast base cellId Hsup) as [v ->].
    simpl. specialize (HG v).
    set (cells4 := committed cells cells3 cellId expr ast v) in *.
    destruct (updateDependentCells (S (size cells4))
                (mkPropState cells4 ∅ []) cellId []) as [[upd st] | e' |] eqn:Hup;
      simpl; [discriminate | | discriminate].
    exfalso. revert Hup. apply (updateDependentCells_no_Throw cells4).
    - by apply (edited_graph_acyclic cells cells4 cellId ast base).
    - intros k a. destruct (HG k) as [-> _]. case_decide; [subst k |].
      + intros [= <-]. split; [done | by rewrite Hbase].
      + apply Hform.
    - done.
    - by intros p ?%elem_of_nil. }
  destruct (eval_try cells cellId expr ast base) as [[u st] | e |] eqn:Hrun.
  - exists u, (st_cells st). by apply (eval_Return _ _ _ ast base).
  - by destruct (Hok e).
  - by destruct (eval_try_no_OutOfFuel cells cellId expr ast base).
Qed.

(** X30. The edits that are ok keep what an accepted edit needs. After a
    call that succeeds every [dependents] field is still a [Set]; and when
    the formula of the call calls no member that [FNS] inherits from
    [Object.prototype], every formula of the table still uses keys of [FNS]
    only, at an id that parses. *)
Theorem ok_edits_keep_formulas_and_sets cells cellId expr u cells' :
  eval cells cellId expr = Some (okResult u, cells') →
  (∀ ast, parse expr cellId = Some ast → calls_inherited ast = false →
          formulas_kept cells → formulas_kept cells') ∧
  (sets_kept cells → sets_kept cells').
Proof.
  intros Hev.
  apply eval_ok_inv in Hev as (ast & base & st & Hparse & Hbase & Hrun & ->).
  pose proof (eval_ok_edited_graph _ _ _ _ _ _ _ Hrun) as HG.
  apply eval_try_Return_inv in Hrun
    as (cells2 & result & upd & Hr & Hnin & Hres & Hup & _).
  split.
  - intros ast' Hparse' Hown Hform k a.
    rewrite Hparse in Hparse'. injection Hparse' as <-.
    destruct (HG k) as [-> _]. case_decide; [subst k |].
    + intros [= <-]. split; [| by rewrite Hbase].
      apply own_functions_supported; [done |].
      by apply evalAst_Return_functions in Hres.
    + apply Hform.
  - intros Hsets k c' Hk.
    apply updateDependentCells_values_only in Hup. specialize (Hup k).
    simpl in Hup. rewrite Hk in Hup.
    destruct (retracted_Return cells cellId ast base Hsets) as (cells2' & Hr' & Hs2).
    rewrite Hr in Hr'. injection Hr' as <-.
    destruct (committed _ _ _ _ _ _ !! k) as [c4 |] eqn:Hc4; [| done].
    destruct Hup as [-> _]. simpl.
    destruct (decide (k = cellId)) as [-> | Hne].
    + revert Hc4. unfold committed.
      destruct (addToReferenced_lookup cellId _ false cells2 Hnin) as [_ Hlook].
      destruct (cells !! cellId) as [c |].
      * rewrite lookup_alter_eq, Hlook, decide_False by done.
        destruct (cells2 !! cellId) as [c2 |] eqn:Hc2; [| done].
        intros [= <-]. simpl. by apply (Hs2 cellId c2).
      * rewrite lookup_insert_eq. by intros [= <-].
    + rewrite (before_propagation_lookup _ _ _ _ _ _ result _ Hr Hnin Hne) in Hc4.
      case_decide.
      * injection Hc4 as <-. by destruct (cells2 !! k).
      * by apply (Hs2 k c4).
Qed.


(** ** Values and formulas *)

(** X15. When [eval] succeeds on a cell that is not listed among its own
    dependents, the cell holds the value of its new formula in the table
    that the call leaves: propagation has changed no cell that the formula
    reads. *)
Theorem edited_cell_holds_formula_value cells cellId expr u cells' :
  eval cells cellId expr = Some (okResult u, cells') →
  cellId ∉ deps_of cells' cellId →
  ∃ ast base,
    parse expr cellId = Some ast ∧ CellRef_parse cellId = Some base ∧
    ast_of cells' cellId = Some ast ∧
    evalAst cells' ast base cellId = Return (value_of cells' cellId).
Proof.
  intros Hev Hself.
  apply eval_ok_inv in Hev as (ast & base & st & Hparse & Hbase & Hrun & ->).
  exists ast, base.
  apply eval_try_propagated in Hrun
    as (cells4 & upd & _ & Hval & Hkeep & _ & Hast & Hrefs & _ & Hclosed & Hrec).
  split_and!; try done.
  assert (cellId ∉ st_recomputed st) as Hroot by (intros ?; by apply Hself, Hrec).
  assert (∀ k, k ∉ st_recomputed st →
               value_of (st_cells st) k = value_of cells4 k) as Hsame.
  { intros k Hk. unfold value_of. by destruct (Hkeep k) as [? | ->]. }
  rewrite (Hsame cellId Hroot), <- Hval.
  apply evalAst_agree. intros r Hr. apply Hsame.
  intros Hin. apply Hroot, (Hclosed r); [done |]. split; [by apply Hrefs |].
  rewrite Hast. eauto.
Qed.

(** X16. With edge symmetry, a call of [eval] that succeeds leaves every
    cell that is not in the map it returns as it found it: such a cell
    keeps its value, its formula reads the same values as before, and so
    it holds the value of its formula after the call if it did before. *)
Theorem untouched_cells_stay_consistent cells cellId expr u cells' k :
  edges_symmetric cells →
  eval cells cellId expr = Some (okResult u, cells') →
  updates_get k u = None →
  value_of cells' k = value_of cells k ∧
  ast_of cells' k = ast_of cells k ∧
  (∀ a b, ast_of cells k = Some a → CellRef_parse k = Some b →
          evalAst cells' a b k = evalAst cells a b k) ∧
  (consistent cells k → consistent cells' k).
Proof.
  intros Hsym Hev Hk.
  apply eval_ok_inv in Hev as (ast & base & st & _ & Hbase & Hrun & ->).
  destruct (eval_try_values _ _ _ _ _ _ _ Hrun) as (_ & Hedited & Hvalues).
  assert (k ≠ cellId) as Hne.
  { intros ->. rewrite Hk in Hedited. by destruct Hedited. }
  assert (value_of (st_cells st) k = value_of cells k) as Hvk
    by (by rewrite Hvalues, Hk).
  destruct (eval_ok_edges _ _ _ _ _ _ _ k Hrun) as [Hak _].
  rewrite decide_False in Hak by done.
  assert (∀ a b, ast_of cells k = Some a → CellRef_parse k = Some b →
                 evalAst (st_cells st) a b k = evalAst cells a b k) as Hreads.
  { intros a b Ha Hb. apply evalAst_agree. intros r Hr.
    rewrite Hvalues. destruct (updates_get r u) as [v |] eqn:Hru; [| done].
    exfalso.
    assert (feeds (st_cells st) r k) as Hfeeds.
    { split; [| rewrite Hak, Ha; eauto].
      assert (k ∈ deps_of cells r) as Hdep.
      { apply (proj1 (edges_symmetric_iff _) Hsym). apply references_true.
        by exists a, b. }
      assert (k ∈ retracted_deps cells cellId base r) as Hret.
      { unfold retracted_deps. case_decide; [| done].
        by apply elem_of_Set_delete. }
      destruct (eval_ok_edges _ _ _ _ _ _ _ r Hrun) as [_ ->].
      repeat case_decide; try done. apply elem_of_Set_add. by right. }
    apply eval_try_propagated in Hrun
      as (cells4 & upd & -> & _ & _ & Hkeys & _ & _ & Hroot & Hclosed & _).
    assert (k ∈ st_recomputed st) as Hin.
    { assert (r ∈ (Object_assign [(cellId, value_of cells4 cellId)] upd).*1)
        as Hr' by (apply updates_get_is_Some; rewrite Hru; eauto).
      apply Object_assign_elem_of in Hr' as [Hr' | Hr'].
      - apply list_elem_of_singleton in Hr'. simpl in Hr'. subst r.
        by apply Hroot.
      - apply (Hclosed r); [by apply Hkeys | done]. }
    apply Hkeys in Hin.
    assert (is_Some (updates_get k
              (Object_assign [(cellId, value_of cells4 cellId)] upd))) as Hs.
    { apply updates_get_is_Some, Object_assign_elem_of. by right. }
    rewrite Hk in Hs. by destruct Hs. }
  split_and!; try done.
  intros Hcons a b Ha Hb. rewrite Hak in Ha.
  rewrite (Hreads a b Ha Hb), Hvk. by apply Hcons.
Qed.


End MoreProperties.

(** * Properties of the web services *)

Section WebServices.
Import WS.

Local Open Scope Z_scope.

Lemma ERROR_MAP_range c z :
  ERROR_MAP c = Some z → z ∈ [400; 401; 404; 409; 500].
Proof.
  unfold ERROR_MAP.
  repeat (destruct (String.eqb c _); [intros [= <-]; set_solver |]).
  discriminate.
Qed.

Lemma getHttpStatus_fold errors status :
  fold_left getHttpStatus_step errors status =
  if decide (500 ∈ mapped_statuses errors) then 500
  else if status =? 0 then default 0 (head (mapped_statuses errors))
  else status.
Proof.
  revert status.
  induction errors as [| item rest IH]; intros status; simpl.
  - by destruct (Z.eqb_spec status 0).
  - rewrite IH. unfold mapped_statuses. simpl.
    destruct item as [[m [c |]] |]; simpl; [| done | done].
    destruct (ERROR_MAP c) as [z |] eqn:Hc; simpl; [| done].
    apply ERROR_MAP_range in Hc.
    fold (mapped_statuses rest). unfold STATUS.INTERNAL_SERVER_ERROR.
    assert (∀ y : Z, y ≠ 500 →
              500 ∈ y :: mapped_statuses rest ↔ 500 ∈ mapped_statuses rest)
      as Hcons by (intros y Hy; rewrite elem_of_cons; naive_solver).
    repeat (apply elem_of_cons in Hc as [-> | Hc]);
      [| | | | | by apply elem_of_nil in Hc];
      simpl; destruct (Z.eqb_spec status 0) as [-> | Hs]; simpl;
      repeat case_decide; try done;
      try (exfalso; rewrite Hcons in * by done; done);
      by apply Z.eqb_neq in Hs as ->.
Qed.

Lemma mapped_statuses_range errors z :
  z ∈ mapped_statuses errors → z ∈ [400; 401; 404; 409; 500].
Proof.
  unfold mapped_statuses. rewrite list_elem_of_omap.
  intros ([[m [c |]] |] & _ & Hz); simpl in Hz; try done.
  by apply ERROR_MAP_range in Hz.
Qed.

(** X17. The status of a list of errors is 500 when the code of one of them
    maps to 500 ([DB] or [INTERNAL]); otherwise it is the status of the
    first error whose code is a key of [ERROR_MAP], and 400 when there is
    none. It is always one of 400, 401, 404, 409 and 500. *)
Theorem getHttpStatus_first_mapped_code errors :
  getHttpStatus errors =
    (if decide (500 ∈ mapped_statuses errors) then 500
     else default 400 (head (mapped_statuses errors))) ∧
  getHttpStatus errors ∈ [400; 401; 404; 409; 500].
Proof.
  assert (getHttpStatus errors =
          if decide (500 ∈ mapped_statuses errors) then 500
          else default 400 (head (mapped_statuses errors))) as Heq.
  { unfold getHttpStatus. rewrite getHttpStatus_fold. simpl.
    case_decide; [done |].
    destruct (mapped_statuses errors) as [| z rest] eqn:Hms; [done |]. simpl.
    assert (z ∈ [400; 401; 404; 409; 500]) as Hz
      by (apply (mapped_statuses_range errors); rewrite Hms; by left).
    assert ((z =? 0) = false) as ->
      by (apply Z.eqb_neq; intros ->; set_solver).
    done. }
  split; [done |]. rewrite Heq. case_decide; [set_solver |].
  destruct (mapped_statuses errors) as [| z rest] eqn:Hms; [set_solver |].
  apply (mapped_statuses_range errors). rewrite Hms. by left.
Qed.

(** X18. A [PATCH] of a cell is answered with status 400 and one [BAD_REQ]
    error, whatever the services are, unless exactly one of [srcCellId] and
    [expr] is given, where an empty string counts as not given. With [expr]
    alone the answer is that of [evaluate] on it, and with [srcCellId] alone
    that of [copy] from it. An [Error] that the service throws is answered
    with status 400 and code [UNKNOWN]. *)
Theorem update_needs_exactly_one_parameter
    (URL_pathname URL_search : string → string) (T : Type)
    (evaluate : string → string → string → Outcome T)
    (copy : string → string → option string → Outcome T) (req : Request) :
  (truthy (query_srcCellId req) = truthy (query_expr req) →
   makeCellUpdateHandler URL_pathname URL_search T evaluate copy req =
     mkResponse 400
       (Failure (mkErrorEnvelope 400
          [IsErr (mkErr "exactly one of query parameter srcCellId or expr must be specified"
                        (Some "BAD_REQ"))]))) ∧
  (∀ e, query_expr req = Some e → e ≠ "" → truthy (query_srcCellId req) = false →
   makeCellUpdateHandler URL_pathname URL_search T evaluate copy req =
     send_outcome URL_pathname URL_search T req
       (evaluate (params_ssName req) (params_cellId req) e)) ∧
  (∀ s, query_srcCellId req = Some s → s ≠ "" → truthy (query_expr req) = false →
   makeCellUpdateHandler URL_pathname URL_search T evaluate copy req =
     send_outcome URL_pathname URL_search T req
       (copy (params_ssName req) (params_cellId req) (Some s))) ∧
  (∀ m, send_outcome URL_pathname URL_search T req (Rejected m) =
        mkResponse 400
          (Failure (mkErrorEnvelope 400 [IsErr (mkErr m (Some "UNKNOWN"))]))).
Proof.
  unfold makeCellUpdateHandler. split_and!.
  - intros Heq. unfold validateUpdateParams. rewrite Heq.
    by rewrite Bool.eqb_reflx.
  - intros e He Hne Hsrc. unfold validateUpdateParams.
    rewrite Hsrc, He. simpl.
    apply String.eqb_neq in Hne. by rewrite Hne.
  - intros s Hs Hne Hexpr. unfold validateUpdateParams.
    rewrite Hexpr, Hs. simpl.
    apply String.eqb_neq in Hne. rewrite Hne. simpl.
    destruct (query_expr req) as [e |]; [| done]. simpl in Hexpr.
    by destruct (String.eqb e "").
  - done.
Qed.

End WebServices.

(** * Properties of the React component *)

Section ViewProperties.
Import View.

Lemma applySSUpdates_step_spec heap ss k v heap' ss' :
  well_formed heap ss →
  applySSUpdates_step (heap, ss) (k, v) = (heap', ss') →
  well_formed heap' ss' ∧
  (∀ j l, ss !! j = Some l → ss' !! j = Some l) ∧
  (∀ j, view heap' ss' j =
        if decide (j = k)
        then Some (mkCellView (default "" (expr <$> view heap ss k)) v)
        else view heap ss j).
Proof.
  intros [Hdom Hinj]. unfold applySSUpdates_step, view.
  destruct (ss !! k) as [l |] eqn:Hk; intros [= <- <-].
  - destruct (Hdom k l Hk) as [c Hc]. split_and!.
    + split; [| done]. intros j l' Hj. rewrite lookup_alter.
      case_decide; [subst l'; by rewrite Hc | by apply (Hdom j)].
    + done.
    + intros j. destruct (decide (j = k)) as [-> | Hne].
      * rewrite Hk. simpl. rewrite lookup_alter_eq, Hc. done.
      * destruct (ss !! j) as [l' |] eqn:Hj; [| done]. simpl.
        rewrite lookup_alter_ne; [done |]. intros <-. apply Hne.
        by apply (Hinj j k l).
  - pose proof (is_fresh (dom heap)) as Hfresh.
    assert (∀ j l, ss !! j = Some l → l ≠ fresh (dom heap)) as Hold.
    { intros j l Hj ->. apply Hfresh. apply elem_of_dom. by apply (Hdom j). }
    split_and!.
    + split.
      * intros j l. rewrite lookup_insert. case_decide.
        -- intros [= <-]. rewrite lookup_insert_eq. eauto.
        -- intros Hj. rewrite lookup_insert_ne by (by apply not_eq_sym, (Hold j)).
           by apply (Hdom j).
      * intros j1 j2 l. rewrite !lookup_insert. repeat case_decide; subst.
        -- done.
        -- intros [= <-] Hj. by destruct (Hold _ _ Hj).
        -- intros Hj [= <-]. by destruct (Hold _ _ Hj).
        -- apply Hinj.
    + intros j l Hj. rewrite lookup_insert_ne; [done |]. intros <-. congruence.
    + intros j. destruct (decide (j = k)) as [-> | Hne].
      * rewrite lookup_insert_eq. simpl. by rewrite lookup_insert_eq.
      * rewrite lookup_insert_ne by done.
        destruct (ss !! j) as [l' |] eqn:Hj; [| done]. simpl.
        rewrite lookup_insert_ne; [done |]. by apply not_eq_sym, (Hold j).
Qed.

Lemma applySSUpdates_spec updates heap ss heap' ss' :
  well_formed heap ss → NoDup updates.*1 →
  applySSUpdates heap ss updates = (heap', ss') →
  well_formed heap' ss' ∧
  (∀ j l, ss !! j = Some l → ss' !! j = Some l) ∧
  (∀ j, view heap' ss' j =
        match updates_get j updates with
        | Some v => Some (mkCellView (default "" (expr <$> view heap ss j)) v)
        | None => view heap ss j
        end).
Proof.
  unfold applySSUpdates. revert heap ss.
  induction updates as [| [k v] rest IH]; intros heap ss Hwf Hnd.
  - by intros [= <- <-].
  - rewrite fmap_cons in Hnd. apply NoDup_cons in Hnd as [Hk Hrest].
    cbn [fst] in Hk.
    cbn [fold_left]. destruct (applySSUpdates_step (heap, ss) (k, v))
      as [heap1 ss1] eqn:Hstep.
    apply applySSUpdates_step_spec in Hstep as (Hwf1 & Hkeep1 & Hview1); [| done].
    intros Hrun. apply IH in Hrun as (Hwf' & Hkeep & Hview); [| done | done].
    split_and!; [done | |].
    + intros j l Hj. by apply Hkeep, Hkeep1.
    + intros j. rewrite Hview, !Hview1. cbn [updates_get].
      destruct (String.eqb_spec k j) as [-> | Hne].
      * rewrite (updates_get_None _ _ Hk). by rewrite decide_True.
      * by rewrite decide_False.
Qed.

(** X19. [applySSUpdates] gives a state in which each cell of the map of
    updates has the value of the map, with the text it had before, or the
    empty text when the cell is new; the other cells are as before. *)
Theorem applySSUpdates_view updates heap ss heap' ss' j :
  well_formed heap ss → NoDup updates.*1 →
  applySSUpdates heap ss updates = (heap', ss') →
  view heap' ss' j =
    match updates_get j updates with
    | Some v => Some (mkCellView (default "" (expr <$> view heap ss j)) v)
    | None => view heap ss j
    end.
Proof.
  intros Hwf Hnd Hrun.
  by destruct (applySSUpdates_spec _ _ _ _ _ Hwf Hnd Hrun) as (_ & _ & ->).
Qed.

(** X20. [applySSUpdates] changes the state that it is given: the copy that
    it returns shares the cell objects of the old state, so a cell of the
    old state reads, after the call, the value of the map of updates. *)
Theorem applySSUpdates_mutates_old_state updates heap ss heap' ss' j c v :
  well_formed heap ss → NoDup updates.*1 →
  applySSUpdates heap ss updates = (heap', ss') →
  view heap ss j = Some c →
  updates_get j updates = Some v →
  view heap' ss j = Some (mkCellView (expr c) v).
Proof.
  intros Hwf Hnd Hrun Hc Hv.
  destruct (applySSUpdates_spec _ _ _ _ _ Hwf Hnd Hrun) as (_ & Hkeep & Hview).
  specialize (Hview j). rewrite Hv, Hc in Hview. simpl in Hview.
  rewrite <- Hview. unfold view in *.
  destruct (ss !! j) as [l |] eqn:Hj; [| done].
  by rewrite (Hkeep j l Hj).
Qed.

Lemma applySSUpdates_lookup updates heap ss heap' ss' j :
  applySSUpdates heap ss updates = (heap', ss') →
  ss' !! j = None ↔ ss !! j = None ∧ j ∉ updates.*1.
Proof.
  unfold applySSUpdates. revert heap ss.
  induction updates as [| [k v] rest IH]; intros heap ss.
  - intros [= <- <-]. split; [| by intros [? _]].
    intros ?. split; [done | apply not_elem_of_nil].
  - cbn [fold_left]. destruct (applySSUpdates_step (heap, ss) (k, v))
      as [heap1 ss1] eqn:Hstep.
    intros Hrun. rewrite (IH _ _ Hrun), fmap_cons, not_elem_of_cons.
    assert (ss1 !! j = None ↔ ss !! j = None ∧ j ≠ k) as ->; [| simpl; tauto].
    revert Hstep. unfold applySSUpdates_step.
    destruct (ss !! k) as [l |] eqn:Hk; intros [= <- <-].
    + split; [| by intros [? _]]. intros Hj. split; [done |]. congruence.
    + rewrite lookup_insert. case_decide; [subst; naive_solver | naive_solver].
Qed.

(** X21. [onBlur] ends with a [TypeError] exactly when the text is not
    blank, the web service answers with a map of updates that does not hold
    the edited cell, and the state has no entry for the cell either. *)
Theorem onBlur_TypeError_iff (trim : string → string)
    (ws_remove : string → string → WS.SvcResult Updates)
    (ws_evaluate : string → string → string → WS.SvcResult Updates)
    ssName heap ss cellId text :
  onBlur trim ws_remove ws_evaluate ssName heap ss cellId text = TypeError ↔
  trim text ≠ "" ∧
  ∃ updates, ws_evaluate ssName cellId text = WS.SvcOk updates ∧
             (cellId ∉ updates.*1) ∧ ss !! cellId = None.
Proof.
  unfold onBlur. destruct (String.eqb_spec (trim text) "") as [Hblank | Hne].
  - split; [| by intros [? _]].
    destruct (ws_remove ssName cellId) as [u | es]; [| done].
    by destruct (applySSUpdates heap ss u).
  - destruct (ws_evaluate ssName cellId text) as [u | es].
    + destruct (applySSUpdates heap ss u) as [heap1 ss1] eqn:Hrun.
      pose proof (applySSUpdates_lookup _ _ _ _ _ cellId Hrun) as Hlook.
      destruct (ss1 !! cellId) as [l |].
      * split; [done |]. intros (_ & u' & [= <-] & Hu & Hs).
        by pose proof (proj2 Hlook (conj Hs Hu)).
      * split; [| done]. intros _. split; [done |].
        exists u. destruct (proj1 Hlook eq_refl). done.
    + split; [done |]. by intros (_ & u & ? & _).
Qed.

(** X22. When the web service accepts the edit, [onBlur] sets a state that
    shows, at the edited cell, the text as it was typed and the value of
    the map of updates, and at every other cell what [applySSUpdates]
    gives. When the text is blank and the removal is accepted, the state
    keeps the text that the cell had. *)
Theorem onBlur_view (trim : string → string)
    (ws_remove : string → string → WS.SvcResult Updates)
    (ws_evaluate : string → string → string → WS.SvcResult Updates)
    ssName heap ss cellId text updates :
  well_formed heap ss → NoDup updates.*1 →
  (trim text ≠ "" →
   ws_evaluate ssName cellId text = WS.SvcOk updates →
   ∀ v, updates_get cellId updates = Some v →
   ∃ heap' ss',
     onBlur trim ws_remove ws_evaluate ssName heap ss cellId text =
       SetSS heap' ss' ∧
     view heap' ss' cellId = Some (mkCellView text v) ∧
     ∀ j, j ≠ cellId →
       view heap' ss' j =
       match updates_get j updates with
       | Some w => Some (mkCellView (default "" (expr <$> view heap ss j)) w)
       | None => view heap ss j
       end) ∧
  (trim text = "" →
   ws_remove ssName cellId = WS.SvcOk updates →
   ∃ heap' ss',
     onBlur trim ws_remove ws_evaluate ssName heap ss cellId text =
       SetSS heap' ss' ∧
     ∀ c, view heap ss cellId = Some c →
          expr <$> view heap' ss' cellId = Some (expr c)).
Proof.
  intros Hwf Hnd. unfold onBlur.
  destruct (applySSUpdates heap ss updates) as [heap1 ss1] eqn:Hrun.
  destruct (applySSUpdates_spec _ _ _ _ _ Hwf Hnd Hrun)
    as ([Hdom Hinj] & Hkeep & Hview).
  split.
  - intros Hne%String.eqb_neq Hev v Hv. rewrite Hne, Hev, Hrun.
    pose proof (Hview cellId) as Hc. rewrite Hv in Hc. unfold view in Hc.
    destruct (ss1 !! cellId) as [l |] eqn:Hl; [| done]. simpl in Hc.
    eexists _, ss1. split; [done |]. split.
    + unfold view. rewrite Hl. simpl. rewrite lookup_alter_eq.
      fold (view heap ss cellId) in Hc. by rewrite Hc.
    + intros j Hj. rewrite <- Hview. unfold view.
      destruct (ss1 !! j) as [l' |] eqn:Hl'; [| done]. simpl.
      rewrite lookup_alter_ne; [done |]. intros <-. apply Hj.
      by apply (Hinj j cellId l).
  - intros Hblank%String.eqb_eq Hrm. rewrite Hblank, Hrm, Hrun.
    eexists _, _. split; [done |]. intros c Hc.
    rewrite Hview, Hc. by destruct (updates_get cellId updates).
Qed.


End ViewProperties.

(** * Properties of the data access object *)

Section DaoProperties.
Import Dao.

Lemma matches_iff filter doc :
  matches filter doc = true ↔ (spreadsheetName doc, cellId doc) = filter.
Proof.
  unfold matches. destruct filter as [name cell]. simpl.
  rewrite andb_true_iff, String.eqb_eq, bool_decide_eq_true. naive_solver.
Qed.

Lemma list_updateOne_spec filter e coll r coll' :
  list_updateOne filter e coll = (r, coll') →
  (expr <$> list_findOne filter coll' = Some e) ∧
  (∀ other, other ≠ filter → list_findOne other coll' = list_findOne other coll) ∧
  (expr <$> list_findOne filter coll = Some e →
   r = mkUpdateResult 0 0 ∧ coll' = coll) ∧
  (expr <$> list_findOne filter coll ≠ Some e →
   (upsertedCount r =? 1)%nat || (modifiedCount r =? 1)%nat = true) ∧
  (unique coll → unique coll').
Proof.
  unfold list_findOne, unique. revert r coll'.
  induction coll as [| doc rest IH]; intros r coll'; simpl.
  - intros [= <- <-]. simpl.
    assert (matches filter (mkDocument filter.1 filter.2 e) = true) as Hm
      by (apply matches_iff; by destruct filter).
    rewrite Hm. split_and!; try done.
    + intros other Hne.
      destruct (matches other _) eqn:Ho; [| done].
      apply matches_iff in Ho. simpl in Ho. destruct filter. by destruct Hne.
    + intros _. apply NoDup_singleton.
  - destruct (matches filter doc) eqn:Hm.
    + apply matches_iff in Hm as Hkey.
      destruct (String.eqb_spec (expr doc) e) as [He | He]; intros [= <- <-];
        simpl.
      * rewrite Hm. simpl.
        split_and!; try done; [by rewrite He | intros []; by rewrite He].
      * assert (matches filter (mkDocument (spreadsheetName doc) (cellId doc) e)
                = true) as Hm' by (by apply matches_iff).
        rewrite Hm'. simpl. split_and!; try done.
        -- intros other Hne.
           assert (∀ d x, matches other (mkDocument (spreadsheetName d)
                                           (cellId d) x) = matches other d)
             as Hsame by done.
           rewrite Hsame.
           destruct (matches other doc) eqn:Ho; [| done].
           apply matches_iff in Ho. congruence.
        -- intros [= ?]. done.
    + destruct (list_updateOne filter e rest) as [r1 rest1] eqn:Hrest.
      intros [= <- <-]. simpl. rewrite Hm.
      destruct (IH _ _ eq_refl) as (Hfound & Hother & Hsame & Hcount & Huniq).
      split_and!; try done.
      * intros other Hne. rewrite (Hother other Hne). done.
      * intros Hs. destruct (Hsame Hs) as [-> ->]. done.
      * rewrite !NoDup_cons. intros [Hnin Hnd]. split; [| by apply Huniq].
        intros Hin. apply Hnin.
        apply list_elem_of_fmap in Hin as (d & Hd & Hin).
        apply list_elem_of_fmap.
        destruct (find (matches (spreadsheetName doc, cellId doc)) rest)
          as [d0 |] eqn:Hf.
        -- apply find_some in Hf as [Hin0 Hm0]. apply matches_iff in Hm0.
           exists d0. split; [done | by apply list_elem_of_In].
        -- exfalso.
           assert ((spreadsheetName doc, cellId doc) ≠ filter) as Hne.
           { intros Heq. apply (proj2 (matches_iff filter doc)) in Heq.
             congruence. }
           pose proof (Hother _ Hne) as Ho. rewrite Hf in Ho.
           apply list_elem_of_In in Hin.
           eapply find_none in Ho; [| exact Hin].
           symmetry in Hd. apply (proj2 (matches_iff _ d)) in Hd. congruence.
Qed.

(** X23. With the driver on a list of documents, after [setCellExpr] the
    cell holds the text: [query] on the same identifier gives it, and gives
    for any other cell what it gave before. The call fails, with code [DB]
    and the message "Circular reference involving" the identifier, exactly
    when the cell already held that text, and then the collection is as it
    was. When the calls of the driver throw, [setCellExpr] and [query]
    answer the message of the error with the code [DB]. *)
Theorem setCellExpr_then_query fault id e coll r coll' :
  setCellExpr (mongo fault) id e coll = (r, coll') →
  match fault with
  | Some message =>
      r = WS.ws_errResult message "DB" ∧ coll' = coll ∧
      query (mongo fault) id coll' = WS.ws_errResult message "DB"
  | None =>
      query (mongo None) id coll' = WS.SvcOk e ∧
      (∀ id', split_id id' ≠ split_id id →
              query (mongo None) id' coll' = query (mongo None) id' coll) ∧
      (r = WS.SvcOk tt ↔ expr <$> list_findOne (split_id id) coll ≠ Some e) ∧
      (r ≠ WS.SvcOk tt →
       r = WS.ws_errResult ("Circular reference involving " +:+ id) "DB" ∧
       coll' = coll)
  end.
Proof.
  destruct fault as [message |]; [by intros [= <- <-] |].
  unfold setCellExpr, query. simpl.
  destruct (list_updateOne (split_id id) e coll) as [ur coll1] eqn:Hup.
  destruct (list_updateOne_spec _ _ _ _ _ Hup)
    as (Hfound & Hother & Hsame & Hcount & _).
  destruct (decide (expr <$> list_findOne (split_id id) coll = Some e))
    as [Hs | Hs].
  - destruct (Hsame Hs) as [-> ->]. simpl. intros [= <- <-].
    split_and!; try done.
    by destruct (list_findOne (split_id id) coll) as [d |]; simplify_eq/=.
  - rewrite (Hcount Hs). intros [= <- <-]. split_and!; try done.
    + by destruct (list_findOne (split_id id) coll1) as [d |]; simplify_eq/=.
    + intros id' Hne. by rewrite (Hother _ Hne).
Qed.

Lemma list_deleteOne_spec filter coll :
  unique coll →
  list_findOne filter (list_deleteOne filter coll) = None ∧
  (∀ other, other ≠ filter →
     list_findOne other (list_deleteOne filter coll) = list_findOne other coll) ∧
  unique (list_deleteOne filter coll).
Proof.
  unfold list_findOne, unique.
  induction coll as [| doc rest IH]; simpl; [done |].
  rewrite NoDup_cons. intros [Hnin Hnd].
  destruct (IH Hnd) as (Hgone & Hother & Huniq).
  destruct (matches filter doc) eqn:Hm.
  - apply matches_iff in Hm as Hkey. split_and!; [| | done].
    + destruct (find (matches filter) rest) as [d |] eqn:Hf; [| done].
      apply find_some in Hf as [Hin Hd]. apply matches_iff in Hd.
      exfalso. apply Hnin. apply list_elem_of_fmap. exists d.
      split; [congruence | by apply list_elem_of_In].
    + intros other Hne. destruct (matches other doc) eqn:Ho; [| done].
      apply matches_iff in Ho. congruence.
  - simpl. rewrite Hm. split_and!; [done | |].
    + intros other Hne. by rewrite (Hother other Hne).
    + apply NoDup_cons. split; [| done]. intros Hin. apply Hnin.
      apply list_elem_of_fmap in Hin as (d & Hd & Hin).
      apply list_elem_of_fmap. exists d. split; [done |].
      clear -Hin. induction rest as [| d0 rest IH]; simpl in *;
        [by apply elem_of_nil in Hin |].
      destruct (matches filter d0); [by right |].
      apply elem_of_cons in Hin as [-> | Hin]; [by left | right; by apply IH].
Qed.

(** X24. With the driver on a list of documents, [setCellExpr], [remove]
    and [clear] keep the documents of the collection unique for their
    [spreadsheetName] and [cellId]; and in such a collection, after
    [remove] the cell reads as the empty text and every other cell as
    before. When the calls of the driver throw, [remove] and [clear] answer
    the message of the error with the code [DB]. *)
Theorem remove_then_query id coll :
  unique coll →
  (∀ e, unique (setCellExpr (mongo None) id e coll).2) ∧
  unique (remove (mongo None) id coll).2 ∧
  unique (clear (mongo None) coll).2 ∧
  query (mongo None) id (remove (mongo None) id coll).2 = WS.SvcOk "" ∧
  (∀ id', split_id id' ≠ split_id id →
          query (mongo None) id' (remove (mongo None) id coll).2 =
            query (mongo None) id' coll) ∧
  (∀ message,
     remove (mongo (Some message)) id coll =
       (WS.ws_errResult message "DB", coll) ∧
     clear (mongo (Some message)) coll = (WS.ws_errResult message "DB", coll)).
Proof.
  intros Hu.
  destruct (list_deleteOne_spec (split_id id) coll Hu) as (Hgone & Hother & Huniq).
  split_and!.
  - intros e. unfold setCellExpr. simpl.
    destruct (list_updateOne (split_id id) e coll) as [ur coll1] eqn:Hup.
    destruct (list_updateOne_spec _ _ _ _ _ Hup) as (_ & _ & _ & _ & Hu1).
    by destruct (_ || _); apply Hu1.
  - done.
  - apply NoDup_nil_2.
  - unfold query, remove. simpl. by rewrite Hgone.
  - intros id' Hne. unfold query, remove. simpl. by rewrite (Hother _ Hne).
  - done.
Qed.

Lemma split_no_sep (s : string) :
  (∀ c, In c (list_ascii_of_string s) → c ≠ ":"%char) →
  split ":" s = [s].
Proof.
  induction s as [| c rest IH]; simpl; [done |]. intros Hc.
  destruct (Ascii.eqb_spec c ":") as [-> | Hne].
  - by destruct (Hc ":"%char (or_introl eq_refl)).
  - rewrite IH; [done |]. intros c' Hin. apply Hc. by right.
Qed.

Lemma split_first (name rest : string) :
  (∀ c, In c (list_ascii_of_string name) → c ≠ ":"%char) →
  split ":" (name +:+ ":" +:+ rest) = name :: split ":" rest.
Proof.
  induction name as [| c name' IH]; simpl; [done |]. intros Hc.
  destruct (Ascii.eqb_spec c ":") as [-> | Hne].
  - by destruct (Hc ":"%char (or_introl eq_refl)).
  - rewrite IH; [done |]. intros c' Hin. apply Hc. by right.
Qed.

(** X25. [getData] labels each text with the [spreadsheetName] of its
    document, which is the part of the identifier before its first colon,
    and not with the cell: with the driver on a list of documents, after
    [setCellExpr] on the identifier [name:rest] the data hold the pair of
    [name] and the text, and for an identifier without a colon the pair of
    the identifier and the text. When the calls of the driver throw,
    [getData] answers the message of the error with the code [DB]. *)
Theorem getData_labels_by_name name e coll :
  (∀ c, In c (list_ascii_of_string name) → c ≠ ":"%char) →
  (∀ rest, ∃ data,
     getData (mongo None)
       (setCellExpr (mongo None) (name +:+ ":" +:+ rest) e coll).2 =
       WS.SvcOk data ∧
     (name, e) ∈ data) ∧
  (∃ data,
     getData (mongo None) (setCellExpr (mongo None) name e coll).2 =
       WS.SvcOk data ∧
     (name, e) ∈ data) ∧
  (∀ message,
     getData (mongo (Some message)) coll = WS.ws_errResult message "DB").
Proof.
  intros Hname.
  assert (∀ id cell, split_id id = (name, cell) →
            ∃ data, getData (mongo None) (setCellExpr (mongo None) id e coll).2
                      = WS.SvcOk data ∧
                    (name, e) ∈ data) as Hgen.
  { intros id cell Hid. unfold getData. simpl. eexists. split; [done |].
    unfold setCellExpr. simpl. rewrite Hid.
    destruct (list_updateOne (name, cell) e coll) as [ur coll1] eqn:Hup.
    destruct (list_updateOne_spec _ _ _ _ _ Hup) as (Hfound & _).
    assert ((if (upsertedCount ur =? 1)%nat || (modifiedCount ur =? 1)%nat
             then (WS.SvcOk tt, coll1)
             else (WS.ws_errResult ("Circular reference involving " +:+ id)
                     "DB", coll1)).2 = coll1) as -> by (by destruct (_ || _)).
    unfold list_findOne in Hfound.
    destruct (find (matches (name, cell)) coll1) as [d |] eqn:Hf; [| done].
    apply find_some in Hf as [Hin Hm]. apply matches_iff in Hm.
    apply list_elem_of_fmap. exists d. split; [| by apply list_elem_of_In].
    simpl in Hfound. simplify_eq/=. done. }
  split_and!.
  - intros rest. apply (Hgen _ (split ":" rest !! 0%nat)).
    unfold split_id. by rewrite (split_first name rest Hname).
  - apply (Hgen _ None). unfold split_id. by rewrite (split_no_sep name Hname).
  - done.
Qed.

End DaoProperties.

(** * Properties of the DOM user interface *)

Section DomProperties.
Import Dom.
Variable Number_toString : JsVal → string.

Lemma update_focused focused updates (pg pg' : Page) raised :
  update Number_toString focused updates pg = (pg', raised) →
  pg' !! focused = pg !! focused.
Proof.
  revert pg. induction updates as [| [k v] rest IH]; intros pg; simpl.
  - by intros [= <- <-].
  - case_decide as Hk; [apply IH |].
    destruct (pg !! k) as [cell |]; [| by intros [= <- <-]].
    intros Hrun. apply IH in Hrun. by rewrite Hrun, lookup_insert_ne.
Qed.

(** X27. [update] leaves the focused cell as it is, whatever the map of
    updates holds for it; it changes no [data-expr] attribute, and adds no
    element and removes none. *)
Theorem update_skips_focused_cell focused updates (pg pg' : Page) raised :
  update Number_toString focused updates pg = (pg', raised) →
  pg' !! focused = pg !! focused ∧
  dom pg' = dom pg ∧
  ∀ k, data_expr <$> pg' !! k = data_expr <$> pg !! k.
Proof.
  revert pg. induction updates as [| [k v] rest IH]; intros pg; simpl.
  - by intros [= <- <-].
  - case_decide as Hk; [apply IH |].
    destruct (pg !! k) as [cell |] eqn:Hcell; [| by intros [= <- <-]].
    intros Hrun. apply IH in Hrun as (Hf & Hdom & Hexpr). split_and!.
    + by rewrite Hf, lookup_insert_ne.
    + rewrite Hdom, dom_insert_L. apply elem_of_dom_2 in Hcell. set_solver.
    + intros j. rewrite Hexpr, lookup_insert. case_decide; [subst j |]; [| done].
      by rewrite Hcell.
Qed.

(** X28. When the answer to an edit arrives while the edited cell is still
    [focusedCellId], [blurCell] records the trimmed text in [data-expr] but
    leaves the text content of the cell as it was typed and its
    [data-value] as before, though the answer holds the new value of the
    cell. *)
Theorem blurCell_keeps_typed_text (trim : string → string)
    (ws_evaluate : string → string → string → WS.SvcResult Updates)
    (ws_remove : string → string → WS.SvcResult Updates)
    ssName (st : State) cellId target updates :
  focusedCellId st = cellId →
  trim (textContent target) ≠ "" →
  ws_evaluate ssName cellId (trim (textContent target)) = WS.SvcOk updates →
  page (blurCell Number_toString trim ws_evaluate ws_remove ssName st cellId
          target).1 !! cellId =
    Some (mkElement (Some (trim (textContent target))) (data_value target)
            (textContent target)).
Proof.
  intros Hfocus Hne%String.eqb_neq Hev. unfold blurCell.
  rewrite Hne, Hev.
  destruct (update _ _ _ _) as [page2 raised] eqn:Hup.
  apply update_focused in Hup.
  rewrite Hfocus, lookup_insert_eq in Hup.
  by destruct raised.
Qed.

End DomProperties.

(** * The scenarios of the specification, with the parser of the examples *)

Module Examples.
Import Demo.

(** The witness of C3: the two formulas of the specification. *)
Lemma self_reference_rejected_witness :
  eval ∅ "a1" "a1" = Some (errResult "CIRCULAR_REF" "CIRCULAR_REF", ∅) ∧
  eval sheet_b1_a1 "a1" "+(a1,1)" =
    Some (errResult "CIRCULAR_REF" "CIRCULAR_REF",
          json_roundtrip (json_roundtrip sheet_b1_a1)).
Proof.
  split.
  - rewrite (self_reference_rejected (P := parser) ∅ "a1" "a1"
               (Ref (mkRel 0 0)) (mkRel 0 0));
      [vm_compute; reflexivity | vm_compute; reflexivity
      | vm_compute; reflexivity | vm_compute; left].
  - apply (self_reference_rejected (P := parser) sheet_b1_a1 "a1" "+(a1,1)"
             (App "+" [Ref (mkRel 0 0); Num (JNum 1)]) (mkRel 0 0));
      [vm_compute; reflexivity | vm_compute; reflexivity | vm_compute; left].
Defined.

(** The counterexample of C6: the placeholder that [eval] creates for [b1]
    holds the formula text ["0"], not the empty text. *)
Lemma placeholder_expr_is_not_empty :
  ∃ cells',
    eval ∅ "a1" "b1" = Some (okResult [("a1", JNum 0)], cells') ∧
    cells' !! "b1" = Some (mkCellInfo "b1" "0" None (JNum 0) (DepSet ["a1"])) ∧
    cell_expr <$> cells' !! "b1" ≠ Some "".
Proof.
  exists (<["b1" := mkCellInfo "b1" "0" None (JNum 0) (DepSet ["a1"])]>
            (<["a1" := mkCellInfo "a1" "b1" (Some ref_b1_from_a1) (JNum 0)
                         (DepSet [])]> ∅)).
  split; [vm_compute; reflexivity |].
  split; [vm_compute; reflexivity | vm_compute; discriminate].
Qed.

Lemma placeholder_created_witness :
  eval sheet_b1_a1 "c1" "d1" =
    Some (okResult [("c1", JNum 0)], sheet_c1_refers_d1) ∧
  sheet_c1_refers_d1 !! "d1" =
    Some (mkCellInfo "d1" "0" None (JNum 0) (DepSet ["c1"])).
Proof.
  assert (eval sheet_b1_a1 "c1" "d1" =
            Some (okResult [("c1", JNum 0)], sheet_c1_refers_d1)) as Hev
    by (vm_compute; reflexivity).
  split; [exact Hev |].
  apply (placeholder_created (P := parser) sheet_b1_a1 "c1" "d1"
           (Ref (mkRel 1 0)) (mkRel 2 0) [("c1", JNum 0)] sheet_c1_refers_d1
           "d1");
    [vm_compute; reflexivity | vm_compute; reflexivity | exact Hev
    | vm_compute; left | vm_compute; reflexivity].
Defined.

(** The counterexample of C7: the failure of an unsupported function
    surfaces as the typed result [CIRCULAR_REF]. *)
Lemma unsupported_function_is_typed_result :
  parse "foo(1)" "a1" = Some (App "foo" [Num (JNum 1)]) ∧
  FNS "foo" = None ∧ is_function "foo" = false ∧
  eval ∅ "a1" "foo(1)" = Some (errResult "CIRCULAR_REF" "CIRCULAR_REF", ∅).
Proof. repeat split; vm_compute; reflexivity. Qed.

Lemma unsupported_function_witness :
  (∀ cells0 cellId0, ∃ e,
      evalAst cells0 (App "foo" [Num (JNum 1)]) (mkRel 0 0) cellId0 = Throw e ∧
      ((∃ fn, is_function fn = false ∧
              e = ThrownError ("Unsupported function: " +:+ fn)) ∨
       (e = ThrownTypeError ∧
        calls_inherited (CellRef := Rel) (App "foo" [Num (JNum 1)]) = true))) ∧
  eval sheet_b1_a1 "a1" "foo(1)" =
    Some (errResult "CIRCULAR_REF" "CIRCULAR_REF",
          json_roundtrip (json_roundtrip sheet_b1_a1)).
Proof.
  apply (unsupported_function_reported_as_circular (P := parser) sheet_b1_a1
           "a1" "foo(1)" (App "foo" [Num (JNum 1)]) (mkRel 0 0));
    vm_compute; reflexivity.
Defined.

(** A name that [FNS] inherits is no unsupported function. [constructor]
    is [Object]: the call is accepted and the cell holds a [Number] object;
    [toString] answers for [null], and [+] joins a text and a number;
    [valueOf] throws a [TypeError], which [eval] reports as it reports
    every exception. *)
Lemma inherited_function_is_called :
  parse "constructor(1)" "a1" = Some (App "constructor" [Num (JNum 1)]) ∧
  FNS "constructor" = None ∧ is_function "constructor" = true ∧
  fst <$> eval ∅ "a1" "constructor(1)" = Some (okResult [("a1", JNumObj 1)]) ∧
  fst <$> eval ∅ "a1" "+(constructor(1),2)" = Some (okResult [("a1", JNum 3)]) ∧
  fst <$> eval ∅ "a1" "+(toString(1),2)" =
    Some (okResult [("a1", JStr "[object Null]2")]) ∧
  fst <$> eval ∅ "a1" "*(toString(1),2)" = Some (okResult [("a1", JNum nan)]) ∧
  fst <$> eval ∅ "a1" "isPrototypeOf(1)" =
    Some (okResult [("a1", JBool false)]) ∧
  evalAst ∅ (App "valueOf" [Num (JNum 1)]) (mkRel 0 0) "a1" =
    Throw ThrownTypeError ∧
  fst <$> eval ∅ "a1" "valueOf(1)" =
    Some (errResult "CIRCULAR_REF" "CIRCULAR_REF").
Proof. repeat split; vm_compute; reflexivity. Qed.

(** *** Rollback (C1, C2, C4) *)

Lemma sheet_b1_a1_replayed :
  replay [("b1", "3"); ("a1", "+(b1,2)")] ∅ = Some sheet_b1_a1.
Proof. vm_compute. reflexivity. Qed.

(** C1 on the code. [b1 = 3], [a1 = +(b1,2)], then the failing call
    [eval("c1","c1")]: the table that the call leaves is not the table
    before it. The [JSON] copy holds [{}] for every dependents set, so [b1]
    has lost its dependent [a1], and the next edit of [b1] no longer updates
    [a1]. *)
Lemma rollback_drops_dependents :
  eval sheet_b1_a1 "c1" "c1" =
    Some (errResult "CIRCULAR_REF" "CIRCULAR_REF", sheet_rolled_back) ∧
  cell_dependents <$> sheet_b1_a1 !! "b1" = Some (DepSet ["a1"]) ∧
  cell_dependents <$> sheet_rolled_back !! "b1" = Some DepPlain ∧
  sheet_rolled_back ≠ sheet_b1_a1 ∧
  fst <$> eval sheet_b1_a1 "b1" "10" =
    Some (okResult [("b1", JNum 10); ("a1", JNum 12)]) ∧
  fst <$> eval sheet_rolled_back "b1" "10" = Some (okResult [("b1", JNum 10)]).
Proof.
  repeat split; try (vm_compute; reflexivity).
  intros Heq. apply (f_equal (λ m, cell_dependents <$> m !! "b1")) in Heq.
  vm_compute in Heq. discriminate.
Qed.

Lemma sheet_b1_refers_a1_replayed :
  replay [("b1", "a1")] ∅ = Some sheet_b1_refers_a1.
Proof. vm_compute. reflexivity. Qed.

(** C2 on the code. [b1 = a1], then [eval("a1","b1")]: the formula does not
    reference [a1] itself; propagation finds [a1] on its path and throws;
    the call answers [CIRCULAR_REF]; and the table that it leaves has lost
    the dependents of [a1] that the table before the call had. *)
Lemma propagation_cycle_rollback_drops_dependents :
  parse "b1" "a1" = Some ref_b1_from_a1 ∧
  extractReferencedCellIds ref_b1_from_a1 (mkRel 0 0) = ["b1"] ∧
  eval_try sheet_b1_refers_a1 "a1" "b1" ref_b1_from_a1 (mkRel 0 0) =
    Throw (ThrownErrResult "CIRCULAR_REF" "CIRCULAR_REF") ∧
  eval sheet_b1_refers_a1 "a1" "b1" =
    Some (errResult "CIRCULAR_REF" "CIRCULAR_REF",
          sheet_b1_refers_a1_rolled_back) ∧
  cell_dependents <$> sheet_b1_refers_a1 !! "a1" = Some (DepSet ["b1"]) ∧
  cell_dependents <$> sheet_b1_refers_a1_rolled_back !! "a1" = Some DepPlain.
Proof. repeat split; vm_compute; reflexivity. Qed.

Lemma sheet_keys (cells : gmap string (CellInfo Rel)) ca cb X :
  cells = <["a1" := ca]> (<["b1" := cb]> ∅) →
  is_Some (cells !! X) → X = "a1" ∨ X = "b1".
Proof.
  intros -> [c Hc]. rewrite !lookup_insert in Hc.
  repeat case_decide; auto. by rewrite lookup_empty in Hc.
Qed.

(** C4 on the code. Edge symmetry holds in the table of [b1 = 3],
    [a1 = +(b1,2)], and no longer after the failing call [eval("c1","c1")]:
    the AST of [a1] references [b1], and the dependents of [b1] do not hold
    [a1]. *)
Lemma rollback_breaks_edge_symmetry :
  edge_symmetry sheet_b1_a1 ∧
  eval sheet_b1_a1 "c1" "c1" =
    Some (errResult "CIRCULAR_REF" "CIRCULAR_REF", sheet_rolled_back) ∧
  references sheet_rolled_back "a1" "b1" = true ∧
  has_dependent sheet_rolled_back "b1" "a1" = false ∧
  ¬ edge_symmetry sheet_rolled_back.
Proof.
  split; [| split; [| split; [| split]]]; try (vm_compute; reflexivity).
  - intros X Y HX HY.
    destruct (sheet_keys _ _ _ X eq_refl HX) as [-> | ->],
             (sheet_keys _ _ _ Y eq_refl HY) as [-> | ->];
      vm_compute; reflexivity.
  - intros Hsym.
    assert (is_Some (sheet_rolled_back !! "a1")) as Ha by (vm_compute; eauto).
    assert (is_Some (sheet_rolled_back !! "b1")) as Hb by (vm_compute; eauto).
    specialize (Hsym "b1" "a1" Hb Ha). vm_compute in Hsym. discriminate.
Qed.

(** *** The diamond (C5) *)

Lemma diamond_replayed : replay diamond_edits ∅ = Some diamond.
Proof. vm_compute. reflexivity. Qed.

(** C5 on the code. In the diamond, [eval("a1","5")] recomputes [d1] twice:
    after [b1], with the value of [c1] from before the edit, and again after
    [c1]. With a cell [e1 = d1] behind the diamond, [e1] is recomputed after
    the first of the two only, and keeps 6 while [d1] ends with 10. *)
Lemma diamond_recomputes_twice :
  (λ x, (x.1.1, x.2)) <$> eval_traced diamond "a1" "5" =
    Some (okResult [("a1", JNum 5); ("b1", JNum 5); ("d1", JNum 10);
                    ("c1", JNum 5)],
          ["b1"; "d1"; "c1"; "d1"]) ∧
  (cells ← replay (diamond_edits ++ [("e1", "d1")])%list ∅;
   x ← eval_traced cells "a1" "5";
   Some (x.1.1, x.2, cell_value <$> x.1.2 !! "d1", cell_value <$> x.1.2 !! "e1"))
  = Some (okResult [("a1", JNum 5); ("b1", JNum 5); ("d1", JNum 10);
                    ("e1", JNum 6); ("c1", JNum 5)],
          ["b1"; "d1"; "e1"; "c1"; "d1"],
          Some (JNum 10), Some (JNum 6)).
Proof. split; vm_compute; reflexivity. Qed.

(** *** Witnesses of C8, C9 and C10 *)

Lemma sheet_a1_placeholder_b1_reachable : reachable sheet_a1_placeholder_b1.
Proof.
  apply (reachable_eval (P := parser) ∅ "a1" "+(b1,2)"
           (okResult [("a1", JNum 2)]) _ reachable_empty).
  vm_compute. reflexivity.
Defined.

(** [c1] has no record and [b1] is a placeholder: both read as 0. *)
Lemma empty_cell_reads_as_zero_witness :
  evalAst sheet_a1_placeholder_b1 (Ref (mkRel 2 0)) (mkRel 0 0) "a1" =
    Return (JNum 0) ∧
  evalAst sheet_a1_placeholder_b1
    (zero_unassigned sheet_a1_placeholder_b1 (mkRel 0 0)
       (App "+" [ref_b1_from_a1; Num (JNum 2)])) (mkRel 0 0) "a1" =
  evalAst sheet_a1_placeholder_b1 (App "+" [ref_b1_from_a1; Num (JNum 2)])
    (mkRel 0 0) "a1".
Proof.
  destruct (empty_cell_reads_as_zero (P := parser) sheet_a1_placeholder_b1)
    as [Hmissing Hunassigned].
  split.
  - apply (Hmissing (mkRel 0 0) (mkRel 2 0) "c1" "a1");
      vm_compute; reflexivity.
  - apply Hunassigned. exact sheet_a1_placeholder_b1_reachable.
Defined.

Lemma concrete_scenario_witness :
  eval ∅ "b1" "3" = Some (okResult [("b1", JNum 3)], scenario1) ∧
  eval scenario1 "a1" "+(b1,2)" =
    Some (okResult [("a1", JNum 5)], scenario2 (mkRel 1 0)) ∧
  eval (scenario2 (mkRel 1 0)) "b1" "10" =
    Some (okResult [("b1", JNum 10); ("a1", JNum 12)], scenario3 (mkRel 1 0)) ∧
  remove (scenario3 (mkRel 1 0)) "b1" =
    Some (okResult [("b1", JNum 0); ("a1", JNum 2)], scenario4 (mkRel 1 0)).
Proof.
  apply (concrete_scenario (P := parser) (mkRel 1 0) (mkRel 1 0) (mkRel 0 0));
    vm_compute; reflexivity.
Defined.

(** In the cell [b1], the reference that the parser reads from ["z1"] is 25
    columns to the right: it resolves to no cell. *)
Lemma unresolved_reference_reads_zero_witness :
  resolve (P := absolute_parser) (mkRel 1 0) (mkRel 25 0) = None ∧
  extractReferencedCellIds (P := absolute_parser) (Ref (mkRel 25 0)) (mkRel 1 0)
    = [] ∧
  eval (P := absolute_parser) sheet_b1_a1 "c1" "z1" =
    Some (okResult [("c1", JNum 0)],
          <["c1" := mkCellInfo "c1" "z1" (Some (Ref (mkRel 25 0))) (JNum 0)
                      (DepSet [])]> sheet_b1_a1).
Proof.
  assert (resolve (P := absolute_parser) (mkRel 2 0) (mkRel 25 0) = None)
    as Hres by (vm_compute; reflexivity).
  split; [vm_compute; reflexivity |].
  split; [vm_compute; reflexivity |].
  assert (parse (ExprParser := absolute_parser) "z1" "c1"
          = Some (Ref (mkRel 25 0))) as Hp by (vm_compute; reflexivity).
  assert (CellRef_parse (ExprParser := absolute_parser) "c1"
          = Some (mkRel 2 0)) as Hb by (vm_compute; reflexivity).
  destruct (unresolved_reference_reads_zero (P := absolute_parser)
              sheet_b1_a1 "c1" "z1" (Ref (mkRel 25 0)) (mkRel 2 0) Hp Hb)
    as (_ & _ & Hfresh & _).
  apply (Hfresh (mkRel 25 0) eq_refl Hres). vm_compute. reflexivity.
Defined.

(** *** Witnesses of the properties of failed and ok calls *)

Lemma syntax_failure_keeps_table_witness :
  eval sheet_b1_a1 "a1" "+(b1" =
    Some (errResult "syntax error" "SYNTAX", sheet_b1_a1).
Proof.
  assert (∃ cells', eval sheet_b1_a1 "a1" "+(b1" =
                      Some (errResult "syntax error" "SYNTAX", cells'))
    as [cells' Hev] by (eexists; vm_compute; reflexivity).
  rewrite Hev.
  by rewrite (syntax_failure_keeps_table (P := parser) _ _ _ _ _ Hev).
Defined.

Lemma rollback_restores_json_copy_witness :
  sheet_rolled_back = json_roundtrip sheet_b1_a1 ∧
  dom sheet_rolled_back = dom sheet_b1_a1 ∧
  ∀ k, sheet_rolled_back !! k = json_cell <$> sheet_b1_a1 !! k.
Proof.
  apply (rollback_restores_json_copy (P := parser) sheet_b1_a1 "c1" "c1"
           "CIRCULAR_REF").
  vm_compute. reflexivity.
Defined.

Lemma edges_symmetric_empty : edges_symmetric (P := parser) ∅.
Proof. intros X Y. reflexivity. Defined.

(** [b1 = 3], then [a1 = +(b1,2)]: the second edit adds the edge between
    [b1] and [a1], on both sides. *)
Lemma edge_symmetry_kept_by_ok_edits_witness :
  edges_symmetric (scenario2 (mkRel 1 0)) ∧ edge_symmetry (scenario2 (mkRel 1 0)).
Proof.
  assert (edges_symmetric (P := parser) scenario1) as Hsym.
  { apply (edge_symmetry_kept_by_ok_edits (P := parser) ∅ "b1" "3"
             [("b1", JNum 3)] scenario1 edges_symmetric_empty).
    vm_compute. reflexivity. }
  apply (edge_symmetry_kept_by_ok_edits (P := parser) scenario1 "a1" "+(b1,2)"
           [("a1", JNum 5)] (scenario2 (mkRel 1 0)) Hsym).
  vm_compute. reflexivity.
Defined.

(** After the failed call, [a1] cannot be edited: its old formula references
    [b1], whose dependents are [{}]. *)
Lemma edit_after_rollback_fails_witness :
  eval sheet_rolled_back "a1" "7" =
    Some (errResult "CIRCULAR_REF" "CIRCULAR_REF",
          json_roundtrip sheet_rolled_back).
Proof.
  apply (edit_after_rollback_fails (P := parser) sheet_rolled_back "a1" "7"
           (Num (JNum 7)) (mkRel 0 0)
           (mkCellInfo "a1" "+(b1,2)"
              (Some (App "+" [ref_b1_from_a1; Num (JNum 2)])) (JNum 5) DepPlain)
           (App "+" [ref_b1_from_a1; Num (JNum 2)]) "b1");
    try (vm_compute; reflexivity).
  - intros k ck Hk.
    assert (is_Some (sheet_rolled_back !! k)) as Hs by eauto.
    destruct (sheet_keys _ _ _ k eq_refl Hs) as [-> | ->];
      vm_compute in Hk; by injection Hk as <-.
  - vm_compute. left.
  - vm_compute. eauto.
Defined.

(** Propagation from [b1] in [sheet_b1_a1] recomputes [a1] and keeps the
    record of [b1]. *)
Lemma propagation_writes_values_only_witness :
  dom sheet_b1_a1 = dom sheet_b1_a1 ∧
  ∃ v, sheet_b1_a1 !! "b1" =
         Some (set_value v (mkCellInfo "b1" "3" (Some (Num (JNum 3))) (JNum 3)
                              (DepSet ["a1"]))) ∧
       (Some (Num (R := Rel) (JNum 3)) = None → v = JNum 3).
Proof.
  apply (propagation_writes_values_only (P := parser) 3
           (mkPropState sheet_b1_a1 ∅ []) "b1" [] [("a1", JNum 5)]
           (mkPropState sheet_b1_a1 {["b1"]} ["a1"]) "b1");
    vm_compute; reflexivity.
Defined.

End Examples.

(** * Further examples *)

Module MoreExamples.
Import Demo.

(** ** The class *)

(** [b1 = 10] in the sheet where [a1 = +(b1,2)]. *)
Lemma updates_report_values_witness :
  NoDup [("b1", JNum 10); ("a1", JNum 12)].*1 ∧
  is_Some (updates_get "b1" [("b1", JNum 10); ("a1", JNum 12)]) ∧
  ∀ k, value_of (scenario3 (mkRel 1 0)) k =
       default (value_of (scenario2 (mkRel 1 0)) k)
               (updates_get k [("b1", JNum 10); ("a1", JNum 12)]).
Proof.
  apply (updates_report_values (P := parser) (scenario2 (mkRel 1 0)) "b1" "10").
  vm_compute. reflexivity.
Defined.

(** Two tables that agree on [b1], read from [a1] and from [c1]. *)
Lemma evalAst_reads_references_witness :
  evalAst sheet_b1_a1 (App "+" [ref_b1_from_a1; Num (JNum 2)]) (mkRel 0 0) "a1" =
  evalAst scenario1 (App "+" [ref_b1_from_a1; Num (JNum 2)]) (mkRel 0 0) "c1".
Proof.
  apply (evalAst_reads_references (P := parser)).
  assert (extractReferencedCellIds (App "+" [ref_b1_from_a1; Num (JNum 2)])
            (mkRel 0 0) = ["b1"]) as -> by (vm_compute; reflexivity).
  intros k ->%list_elem_of_singleton. vm_compute. reflexivity.
Defined.

(** [a1 = +(b1,2)] in the sheet that holds [b1 = 3] only. *)
Lemma first_formula_accepted_witness :
  ∃ v cells',
    evalAst scenario1 (App "+" [ref_b1_from_a1; Num (JNum 2)]) (mkRel 0 0) "a1"
      = Return v ∧
    eval scenario1 "a1" "+(b1,2)" = Some (okResult [("a1", v)], cells') ∧
    cells' !! "a1" =
      Some (mkCellInfo "a1" "+(b1,2)"
              (Some (App "+" [ref_b1_from_a1; Num (JNum 2)])) v (DepSet [])) ∧
    ∀ k, k ≠ "a1" →
      cells' !! k =
      if decide (k ∈ extractReferencedCellIds
                       (App "+" [ref_b1_from_a1; Num (JNum 2)]) (mkRel 0 0))
      then Some (referenced_record "a1" k (scenario1 !! k))
      else scenario1 !! k.
Proof.
  apply (first_formula_accepted (P := parser) scenario1 "a1" "+(b1,2)"
           (App "+" [ref_b1_from_a1; Num (JNum 2)]) (mkRel 0 0));
    try (vm_compute; reflexivity).
  assert (extractReferencedCellIds (App "+" [ref_b1_from_a1; Num (JNum 2)])
            (mkRel 0 0) = ["b1"]) as -> by (vm_compute; reflexivity).
  by intros ?%list_elem_of_singleton.
Defined.

(** [b1] keeps the text ["3"] when it is given the formula [10]. *)
Lemma records_keep_their_text_witness :
  ∃ c', scenario3 (mkRel 1 0) !! "b1" = Some c' ∧
        cell_id c' = "b1" ∧ cell_expr c' = "3".
Proof.
  apply (records_keep_their_text (P := parser) [("b1", "10")]
           (scenario2 (mkRel 1 0)) (scenario3 (mkRel 1 0)) "b1"
           (mkCellInfo "b1" "3" (Some (Num (JNum 3))) (JNum 3) (DepSet ["a1"])));
    vm_compute; reflexivity.
Defined.

Lemma scenario3_b1_feeds_a1 : feeds_into (scenario3 (mkRel 1 0)) "b1" "a1".
Proof.
  apply feeds_once. split.
  - assert (deps_of (scenario3 (mkRel 1 0)) "b1" = ["a1"]) as ->
      by (vm_compute; reflexivity).
    by apply list_elem_of_singleton.
  - assert (ast_of (scenario3 (mkRel 1 0)) "a1" =
            Some (App "+" [Ref (mkRel 1 0); Num (JNum 2)])) as ->
      by (vm_compute; reflexivity).
    eauto.
Defined.

(** [a1] depends on [b1]: it is in the answer to [b1 = 10]. *)
Lemma propagation_reaches_dependents_witness :
  is_Some (updates_get "a1" [("b1", JNum 10); ("a1", JNum 12)]).
Proof.
  apply (propagation_reaches_dependents (P := parser) (scenario2 (mkRel 1 0))
           "b1" "10" _ (scenario3 (mkRel 1 0)) "a1");
    [vm_compute; reflexivity | exact scenario3_b1_feeds_a1].
Defined.

Lemma no_cycle_through_edited_cell_witness :
  ¬ feeds_into (scenario3 (mkRel 1 0)) "b1" "b1".
Proof.
  apply (no_cycle_through_edited_cell (P := parser) (scenario2 (mkRel 1 0))
           "b1" "10" [("b1", JNum 10); ("a1", JNum 12)]);
    [vm_compute; reflexivity |].
  assert (deps_of (scenario3 (mkRel 1 0)) "b1" = ["a1"]) as ->
    by (vm_compute; reflexivity).
  by intros ?%list_elem_of_singleton.
Defined.

Lemma acyclic_empty : acyclic (CellRef := Rel) ∅.
Proof.
  intros x Hx. by destruct Hx as [y [Hd%elem_of_nil _] | y z _ [Hd%elem_of_nil _]].
Defined.

(** The tables of the scenario have edge symmetry. *)
Lemma scenario1_edges_symmetric : edges_symmetric (P := parser) scenario1.
Proof.
  apply (eval_ok_edges_symmetric (P := parser) ∅ "b1" "3" [("b1", JNum 3)]);
    [exact Examples.edges_symmetric_empty | vm_compute; reflexivity].
Qed.

Lemma scenario2_edges_symmetric :
  edges_symmetric (P := parser) (scenario2 (mkRel 1 0)).
Proof.
  apply (eval_ok_edges_symmetric (P := parser) scenario1 "a1" "+(b1,2)"
           [("a1", JNum 5)]);
    [exact scenario1_edges_symmetric | vm_compute; reflexivity].
Qed.

Lemma sheet_c1_refers_d1_edges_symmetric :
  edges_symmetric (P := parser) sheet_c1_refers_d1.
Proof.
  apply (eval_ok_edges_symmetric (P := parser) (scenario2 (mkRel 1 0)) "c1" "d1"
           [("c1", JNum 0)]);
    [exact scenario2_edges_symmetric | vm_compute; reflexivity].
Qed.

(** In the table of [b1 = 3] and [a1 = +(b1,2)] the one dependent is [a1],
    of [b1]. *)
Lemma scenario2_deps x :
  deps_of (scenario2 (mkRel 1 0)) x = if decide (x = "b1") then ["a1"] else [].
Proof.
  unfold deps_of, scenario2. rewrite !lookup_insert.
  repeat case_decide; subst; done.
Qed.

Lemma scenario2_acyclic : acyclic (scenario2 (mkRel 1 0)).
Proof.
  apply (acyclic_by_rank _ (λ x, if decide (x = "b1") then 0 else 1)).
  intros x y [Hd _]. rewrite scenario2_deps in Hd.
  case_decide; [| by apply elem_of_nil in Hd].
  apply list_elem_of_singleton in Hd as ->. case_decide; [done | lia].
Qed.

Lemma scenario2_reached_from_b1 y :
  feeds_into (scenario2 (mkRel 1 0)) "b1" y → y = "a1".
Proof.
  induction 1 as [y [Hd _] | y z _ -> [Hd _]]; rewrite scenario2_deps in Hd.
  - by apply list_elem_of_singleton in Hd.
  - by apply elem_of_nil in Hd.
Qed.

Lemma scenario2_sets_kept : sets_kept (scenario2 (mkRel 1 0)).
Proof.
  intros k c. unfold scenario2. rewrite !lookup_insert.
  repeat case_decide; first [by intros [= <-] | by rewrite lookup_empty].
Qed.

Lemma scenario2_formulas_kept : formulas_kept (P := parser) (scenario2 (mkRel 1 0)).
Proof.
  intros k a. unfold ast_of, scenario2. rewrite !lookup_insert.
  repeat case_decide; subst; simpl;
    first [by rewrite lookup_empty | intros [= <-]; split; vm_compute; eauto].
Qed.

(** [b1 = 3], [a1 = +(b1,2)], [b1 = 10]: the second edit adds the edge from
    [b1] to [a1] and the third recomputes [a1]. *)
Lemma acyclic_kept_by_ok_edits_witness : acyclic (scenario3 (mkRel 1 0)).
Proof.
  apply (acyclic_kept_by_ok_edits (P := parser) (scenario2 (mkRel 1 0)) "b1" "10"
           [("b1", JNum 10); ("a1", JNum 12)] _ scenario2_edges_symmetric);
    [| vm_compute; reflexivity].
  apply (acyclic_kept_by_ok_edits (P := parser) scenario1 "a1" "+(b1,2)"
           [("a1", JNum 5)] _ scenario1_edges_symmetric);
    [| vm_compute; reflexivity].
  apply (acyclic_kept_by_ok_edits (P := parser) ∅ "b1" "3" [("b1", JNum 3)] _
           Examples.edges_symmetric_empty acyclic_empty).
  vm_compute. reflexivity.
Defined.

Lemma edited_cell_holds_formula_value_witness :
  ∃ ast base,
    parse "+(b1,2)" "a1" = Some ast ∧ CellRef_parse "a1" = Some base ∧
    ast_of (scenario2 (mkRel 1 0)) "a1" = Some ast ∧
    evalAst (scenario2 (mkRel 1 0)) ast base "a1" =
      Return (value_of (scenario2 (mkRel 1 0)) "a1").
Proof.
  apply (edited_cell_holds_formula_value (P := parser) scenario1 "a1" "+(b1,2)"
           [("a1", JNum 5)]);
    [vm_compute; reflexivity |].
  assert (deps_of (scenario2 (mkRel 1 0)) "a1" = []) as ->
    by (vm_compute; reflexivity).
  apply not_elem_of_nil.
Defined.

(** [c1] holds the formula [d1] and its value, 0. *)
Lemma sheet_c1_refers_d1_consistent : consistent sheet_c1_refers_d1 "c1".
Proof.
  intros a b Ha Hb. vm_compute in Ha, Hb.
  injection Ha as <-. injection Hb as <-. vm_compute. reflexivity.
Qed.

(** [b1 = 10] in the table where [a1 = +(b1,2)] and [c1 = d1]: the answer
    holds [b1] and [a1]; [c1] is not in it, and keeps its formula, its
    value and their agreement. *)
Lemma untouched_cells_stay_consistent_witness :
  eval sheet_c1_refers_d1 "b1" "10" =
    Some (okResult [("b1", JNum 10); ("a1", JNum 12)], sheet_c1_refers_d1_b1_10) ∧
  value_of sheet_c1_refers_d1_b1_10 "c1" = value_of sheet_c1_refers_d1 "c1" ∧
  ast_of sheet_c1_refers_d1_b1_10 "c1" = ast_of sheet_c1_refers_d1 "c1" ∧
  (∀ a b, ast_of sheet_c1_refers_d1 "c1" = Some a →
          CellRef_parse "c1" = Some b →
          evalAst sheet_c1_refers_d1_b1_10 a b "c1" =
            evalAst sheet_c1_refers_d1 a b "c1") ∧
  consistent sheet_c1_refers_d1_b1_10 "c1".
Proof.
  assert (eval sheet_c1_refers_d1 "b1" "10" =
            Some (okResult [("b1", JNum 10); ("a1", JNum 12)],
                  sheet_c1_refers_d1_b1_10)) as Hev by (vm_compute; reflexivity).
  destruct (untouched_cells_stay_consistent (P := parser) sheet_c1_refers_d1
              "b1" "10" _ _ "c1" sheet_c1_refers_d1_edges_symmetric Hev eq_refl)
    as (Hv & Ha & He & Hc).
  split_and!; [exact Hev | exact Hv | exact Ha | exact He |].
  apply Hc. exact sheet_c1_refers_d1_consistent.
Defined.

(** [b1 = c1] in the table where [a1 = +(b1,2)]: [b1] has the dependent
    [a1], and [c1] is not reached from [b1]. *)
Lemma acyclic_edit_accepted_witness :
  ∃ u cells',
    eval (P := parser) (scenario2 (mkRel 1 0)) "b1" "c1" =
      Some (okResult u, cells').
Proof.
  apply (acyclic_edit_accepted (P := parser) (scenario2 (mkRel 1 0)) "b1" "c1"
           (Ref (mkRel 1 0)) (mkRel 1 0));
    first [ exact scenario2_sets_kept | exact scenario2_formulas_kept
          | exact scenario2_edges_symmetric | exact scenario2_acyclic
          | vm_compute; reflexivity | idtac ].
  - assert (extractReferencedCellIds (Ref (mkRel 1 0)) (mkRel 1 0) = ["c1"])
      as -> by (vm_compute; reflexivity).
    by intros ?%list_elem_of_singleton.
  - assert (extractReferencedCellIds (Ref (mkRel 1 0)) (mkRel 1 0) = ["c1"])
      as -> by (vm_compute; reflexivity).
    intros r ->%list_elem_of_singleton Hr.
    by apply scenario2_reached_from_b1 in Hr.
Defined.

(** [a1 = +(b1,2)] in the table of [b1 = 3]: the table gets a formula with
    a reference, and [b1] a dependent. *)
Lemma ok_edits_keep_formulas_and_sets_witness :
  formulas_kept (P := parser) (scenario2 (mkRel 1 0)) ∧
  sets_kept (scenario2 (mkRel 1 0)).
Proof.
  destruct (ok_edits_keep_formulas_and_sets (P := parser) scenario1 "a1"
              "+(b1,2)" [("a1", JNum 5)] (scenario2 (mkRel 1 0)))
    as [Hform Hsets]; [vm_compute; reflexivity |].
  split.
  - apply (Hform (App "+" [Ref (mkRel 1 0); Num (JNum 2)]));
      [vm_compute; reflexivity | vm_compute; reflexivity |].
    intros k a. unfold ast_of, scenario1. rewrite lookup_insert.
    case_decide; subst; simpl;
      first [by rewrite lookup_empty | intros [= <-]; split; vm_compute; eauto].
  - apply Hsets. intros k c. unfold scenario1. rewrite lookup_insert.
    case_decide; first [by intros [= <-] | by rewrite lookup_empty].
Defined.

(** A tree of keys of [FNS], and one with a name that [FNS] does not
    have. *)
Lemma evalAst_returns_iff_supported_witness :
  ((∃ v, evalAst scenario1 (App "+" [ref_b1_from_a1; Num (JNum 2)])
           (mkRel 0 0) "a1" = Return v) ↔
   has_unsupported (CellRef := Rel) (App "+" [ref_b1_from_a1; Num (JNum 2)])
     = false) ∧
  ((∃ v, evalAst scenario1 (App "foo" [ref_b1_from_a1]) (mkRel 0 0) "a1"
           = Return v) ↔
   has_unsupported (CellRef := Rel) (App "foo" [ref_b1_from_a1]) = false).
Proof.
  split; apply (evalAst_returns_iff_supported (P := parser));
    vm_compute; reflexivity.
Defined.

(** [-] on any argument, and [+] on a text and on a number. *)
Lemma FNS_arity_witness :
  (∃ f, FNS "-" = Some f ∧
        (∃ x, f [] = JNum x ∧ is_nan x = true) ∧
        (∀ a, f [a] = JNum (- toNumber (Some a))%float) ∧
        (∀ a b rest, f (a :: b :: rest) = f [a; b])) ∧
  (∃ g, FNS "+" = Some g ∧
        g [JStr "a"] = JStr "aundefined" ∧
        ∃ x, g [JNum 1] = JNum x ∧ is_nan x = true).
Proof.
  split.
  - eexists. split; [reflexivity |].
    apply (FNS_arity "-" _ eq_refl).
  - eexists. split; [reflexivity |].
    destruct (FNS_arity "+" _ eq_refl) as (_ & Hone & _).
    split; [exact (Hone (JStr "a")) | exact (Hone (JNum 1))].
Defined.

(** ** The React component *)

Definition heap_a1 : gmap nat View.CellView :=
  {[ 0%nat := View.mkCellView "1" (JNum 1) ]}.

Definition sheet_view_a1 : gmap string nat := {[ "a1" := 0%nat ]}.

Lemma heap_a1_well_formed : View.well_formed heap_a1 sheet_view_a1.
Proof.
  unfold heap_a1, sheet_view_a1. split.
  - intros k l [<- <-]%lookup_singleton_Some. vm_compute. eauto.
  - by intros k1 k2 l [<- <-]%lookup_singleton_Some [<- _]%lookup_singleton_Some.
Defined.

Lemma applySSUpdates_view_witness :
  View.view {[ 0%nat := View.mkCellView "1" (JNum 2) ]} sheet_view_a1 "a1" =
  match updates_get "a1" [("a1", JNum 2)] with
  | Some v =>
      Some (View.mkCellView
              (default "" (View.expr <$> View.view heap_a1 sheet_view_a1 "a1")) v)
  | None => View.view heap_a1 sheet_view_a1 "a1"
  end.
Proof.
  apply (applySSUpdates_view [("a1", JNum 2)] heap_a1 sheet_view_a1 _ _ "a1"
           heap_a1_well_formed);
    [apply NoDup_singleton | vm_compute; reflexivity].
Defined.

(** The old state [sheet_view_a1] reads 2 at [a1] after the call. *)
Lemma applySSUpdates_mutates_old_state_witness :
  View.view {[ 0%nat := View.mkCellView "1" (JNum 2) ]} sheet_view_a1 "a1" =
  Some (View.mkCellView "1" (JNum 2)).
Proof.
  apply (applySSUpdates_mutates_old_state [("a1", JNum 2)] heap_a1 sheet_view_a1
           _ sheet_view_a1 "a1" (View.mkCellView "1" (JNum 1)) (JNum 2)
           heap_a1_well_formed);
    [apply NoDup_singleton | vm_compute; reflexivity..].
Defined.

Lemma onBlur_view_witness :
  (id "2" ≠ "" →
   (λ _ _ _ : string, WS.SvcOk [("a1", JNum 2)]) "s" "a1" "2" =
     WS.SvcOk [("a1", JNum 2)] →
   ∀ v, updates_get "a1" [("a1", JNum 2)] = Some v →
   ∃ heap' ss',
     View.onBlur id (λ _ _, WS.SvcOk [("a1", JNum 2)])
       (λ _ _ _, WS.SvcOk [("a1", JNum 2)]) "s" heap_a1 sheet_view_a1 "a1" "2" =
       View.SetSS heap' ss' ∧
     View.view heap' ss' "a1" = Some (View.mkCellView "2" v) ∧
     ∀ j, j ≠ "a1" →
       View.view heap' ss' j =
       match updates_get j [("a1", JNum 2)] with
       | Some w =>
           Some (View.mkCellView
                   (default "" (View.expr <$> View.view heap_a1 sheet_view_a1 j))
                   w)
       | None => View.view heap_a1 sheet_view_a1 j
       end) ∧
  (id "2" = "" →
   (λ _ _ : string, WS.SvcOk [("a1", JNum 2)]) "s" "a1" =
     WS.SvcOk [("a1", JNum 2)] →
   ∃ heap' ss',
     View.onBlur id (λ _ _, WS.SvcOk [("a1", JNum 2)])
       (λ _ _ _, WS.SvcOk [("a1", JNum 2)]) "s" heap_a1 sheet_view_a1 "a1" "2" =
       View.SetSS heap' ss' ∧
     ∀ c, View.view heap_a1 sheet_view_a1 "a1" = Some c →
          View.expr <$> View.view heap' ss' "a1" = Some (View.expr c)).
Proof.
  apply (onBlur_view id (λ _ _, WS.SvcOk [("a1", JNum 2)])
           (λ _ _ _, WS.SvcOk [("a1", JNum 2)]) "s" heap_a1 sheet_view_a1 "a1"
           "2" [("a1", JNum 2)] heap_a1_well_formed).
  apply NoDup_singleton.
Defined.

(** ** The data access object *)

(** Two documents of the spreadsheet [ss]. *)
Definition docs_a1_b1 : list Dao.Document :=
  [Dao.mkDocument "ss" (Some "a1") "1"; Dao.mkDocument "ss" (Some "b1") "2"].

Lemma docs_a1_b1_unique : Dao.unique docs_a1_b1.
Proof.
  unfold Dao.unique. simpl. apply NoDup_cons. split; [| apply NoDup_singleton].
  by intros [=]%list_elem_of_singleton.
Qed.

(** The text ["1"] is set at [a1] a second time, which fails; then the text
    ["3"], which succeeds; then ["3"] with a driver whose calls throw. *)
Lemma setCellExpr_then_query_witness :
  (Dao.setCellExpr (Dao.mongo None) "ss:a1" "1" docs_a1_b1 =
     (WS.ws_errResult "Circular reference involving ss:a1" "DB", docs_a1_b1) ∧
   Dao.query (Dao.mongo None) "ss:a1" docs_a1_b1 = WS.SvcOk "1") ∧
  (Dao.setCellExpr (Dao.mongo None) "ss:a1" "3" docs_a1_b1 =
     (WS.SvcOk tt, [Dao.mkDocument "ss" (Some "a1") "3";
                    Dao.mkDocument "ss" (Some "b1") "2"]) ∧
   Dao.query (Dao.mongo None) "ss:a1"
     [Dao.mkDocument "ss" (Some "a1") "3"; Dao.mkDocument "ss" (Some "b1") "2"]
     = WS.SvcOk "3" ∧
   Dao.query (Dao.mongo None) "ss:b1"
     [Dao.mkDocument "ss" (Some "a1") "3"; Dao.mkDocument "ss" (Some "b1") "2"]
     = Dao.query (Dao.mongo None) "ss:b1" docs_a1_b1) ∧
  (Dao.setCellExpr (Dao.mongo (Some "connection closed")) "ss:a1" "3" docs_a1_b1
     = (WS.ws_errResult "connection closed" "DB", docs_a1_b1) ∧
   Dao.query (Dao.mongo (Some "connection closed")) "ss:a1" docs_a1_b1 =
     WS.ws_errResult "connection closed" "DB").
Proof.
  split; [| split].
  - assert (Dao.setCellExpr (Dao.mongo None) "ss:a1" "1" docs_a1_b1 =
              (WS.ws_errResult "Circular reference involving ss:a1" "DB",
               docs_a1_b1)) as Hset by (vm_compute; reflexivity).
    split; [exact Hset |].
    by destruct (setCellExpr_then_query None _ _ _ _ _ Hset) as (Hq & _).
  - assert (Dao.setCellExpr (Dao.mongo None) "ss:a1" "3" docs_a1_b1 =
              (WS.SvcOk tt, [Dao.mkDocument "ss" (Some "a1") "3";
                             Dao.mkDocument "ss" (Some "b1") "2"])) as Hset
      by (vm_compute; reflexivity).
    destruct (setCellExpr_then_query None _ _ _ _ _ Hset) as (Hq & Hother & _).
    split_and!; [exact Hset | exact Hq |].
    apply Hother. vm_compute. discriminate.
  - assert (Dao.setCellExpr (Dao.mongo (Some "connection closed")) "ss:a1" "3"
              docs_a1_b1 =
              (WS.ws_errResult "connection closed" "DB", docs_a1_b1)) as Hset
      by (vm_compute; reflexivity).
    split; [exact Hset |].
    by destruct (setCellExpr_then_query (Some "connection closed") _ _ _ _ _ Hset)
      as (_ & _ & Hq).
Defined.

(** [a1] is removed from the two documents: [b1] reads as before. *)
Lemma remove_then_query_witness :
  Dao.remove (Dao.mongo None) "ss:a1" docs_a1_b1 =
    (WS.SvcOk tt, [Dao.mkDocument "ss" (Some "b1") "2"]) ∧
  Dao.unique (Dao.remove (Dao.mongo None) "ss:a1" docs_a1_b1).2 ∧
  Dao.query (Dao.mongo None) "ss:a1"
    (Dao.remove (Dao.mongo None) "ss:a1" docs_a1_b1).2 = WS.SvcOk "" ∧
  Dao.query (Dao.mongo None) "ss:b1"
    (Dao.remove (Dao.mongo None) "ss:a1" docs_a1_b1).2 = WS.SvcOk "2" ∧
  Dao.remove (Dao.mongo (Some "connection closed")) "ss:a1" docs_a1_b1 =
    (WS.ws_errResult "connection closed" "DB", docs_a1_b1).
Proof.
  destruct (remove_then_query "ss:a1" docs_a1_b1 docs_a1_b1_unique)
    as (_ & Hu & _ & Hq & Hother & Hfault).
  split_and!; [vm_compute; reflexivity | exact Hu | exact Hq | |].
  - rewrite Hother; [vm_compute; reflexivity | vm_compute; discriminate].
  - apply Hfault.
Defined.

Lemma getData_labels_by_name_witness :
  (∀ rest, ∃ data,
     Dao.getData (Dao.mongo None)
       (Dao.setCellExpr (Dao.mongo None) ("ss" +:+ ":" +:+ rest) "1"
          docs_a1_b1).2 = WS.SvcOk data ∧
     ("ss", "1") ∈ data) ∧
  (∃ data,
     Dao.getData (Dao.mongo None)
       (Dao.setCellExpr (Dao.mongo None) "ss" "1" docs_a1_b1).2 =
       WS.SvcOk data ∧
     ("ss", "1") ∈ data) ∧
  (∀ message,
     Dao.getData (Dao.mongo (Some message)) docs_a1_b1 =
       WS.ws_errResult message "DB").
Proof.
  apply (getData_labels_by_name "ss" "1" docs_a1_b1).
  intros c [<- | [<- | []]]; discriminate.
Defined.

(** ** The DOM user interface *)

Definition page_a1 : gmap string Dom.Element :=
  {[ "a1" := Dom.mkElement None None "5" ]}.

Lemma update_skips_focused_cell_witness :
  page_a1 !! "a1" = page_a1 !! "a1" ∧
  dom page_a1 = dom page_a1 ∧
  ∀ k, Dom.data_expr <$> page_a1 !! k = Dom.data_expr <$> page_a1 !! k.
Proof.
  apply (update_skips_focused_cell (λ _, "5") "a1" [("a1", JNum 5)] page_a1
           page_a1 false).
  vm_compute. reflexivity.
Defined.

Lemma blurCell_keeps_typed_text_witness :
  Dom.page
    (Dom.blurCell (λ _, "5") id (λ _ _ _, WS.SvcOk [("a1", JNum 5)])
       (λ _ _, WS.SvcOk []) "s" (Dom.mkState page_a1 "a1") "a1"
       (Dom.mkElement None None "5")).1 !! "a1" =
  Some (Dom.mkElement (Some (id "5")) None "5").
Proof.
  apply (blurCell_keeps_typed_text (λ _, "5") id
           (λ _ _ _, WS.SvcOk [("a1", JNum 5)]) (λ _ _, WS.SvcOk []) "s"
           (Dom.mkState page_a1 "a1") "a1" (Dom.mkElement None None "5")
           [("a1", JNum 5)]);
    [reflexivity | discriminate | reflexivity].
Defined.

End MoreExamples.
